(** * checkers.js: the rules engine and the minimax search of [Checkers.ts]

    A shallow embedding of the [Checkers] class: the static functions of
    the move generator ([getAllowedMovesForBoard], [getCapturesForPiece],
    [getSimpleMovesForPiece]), of the board model ([cloneBoard],
    [getDirections], [updateBoard], [evaluateBoard]), of the search
    ([shuffle], [minimax]) and of the comparison of moves
    ([compareMoves]), and the methods of a session ([reset], [getPiece],
    [getCurrentState], [move], [validateMove], [bestMove]); then the
    properties the specification states about them, and further
    properties of the same functions.

    Layout.
    - The program on board values: a board is a list of rows, a function
      returns a new board.  The methods of a session ([Module Game])
      return the session after the call and the events they emit.
    - The program on a store ([Module Store]): [cloneBoard] and
      [updateBoard] again, with arrays and piece objects as references
      that assignments update in place; it is shown to compute what the
      value model computes ([updateBoard_refines]).
    - The vocabulary of the specification: the chains the capture search
      builds, and beside them the rules read on the cells of the board
      alone ([canJump], [jumps], [captureMove], [stepMove]); the lemmas
      show that the two agree.  Then the theorems.

    Conventions.
    - A JavaScript [number] used as a row, a column or a score is a [Z].
    - A board [(Piece | null)[][]] is a list of rows, a row a list of cells,
      a cell [None] for [null] and [Some p] for a piece object.
    - An array read [a[i]] outside the array yields [undefined]; reading a
      property of [undefined] throws a [TypeError].  Both are written out.
    - No function of the class assigns to a field of a piece or of a
      position it did not create itself, so pieces, positions and moves are
      values in the first model; the store model shows the sharing.
    - [Math.random] is a stream of draws that the search threads through
      its calls; every property of the search holds for every stream. *)

From Stdlib Require Import ZArith Lia.
From Stdlib Require String.
From stdpp Require Import base tactics option numbers list.
Import String.StringSyntax.

Set Default Proof Using "Type".
Local Open Scope Z_scope.

(** ** Data model ([types.ts]) *)

Inductive Color := red | black.
Inductive PieceType := man | king.

Record Piece := mkPiece { color : Color; type : PieceType }.
Record Position := mkPos { row : Z; col : Z }.
Record CheckersMove := mkMove {
  from : Position;
  path : list Position;
  captures : list Position
}.

Global Instance Color_eq_dec : EqDecision Color.
Proof. solve_decision. Defined.
Global Instance PieceType_eq_dec : EqDecision PieceType.
Proof. solve_decision. Defined.
Global Instance Piece_eq_dec : EqDecision Piece.
Proof. solve_decision. Defined.
Global Instance Position_eq_dec : EqDecision Position.
Proof. solve_decision. Defined.
Global Instance CheckersMove_eq_dec : EqDecision CheckersMove.
Proof. solve_decision. Defined.

Abbreviation Row := (list (option Piece)).
Abbreviation Board := (list (list (option Piece))).

(** ** Outcomes of a call

    [Ok v] is a normal return.  [Err TypeError] is the exception JavaScript
    raises when a property of [undefined] is read or written ([board[r][c]]
    with no row [r], [finalPos.row] with an empty path).  [Err OffRow] marks
    an assignment [row[c] = v] to a column the row array does not have:
    JavaScript would add an element or a property to that array, which a
    row of [Piece | null] cells cannot hold, so the value model stops there
    (the store model of [Module Store] lets the row grow).  No assignment
    of the move generator leaves its row.  [Err OutOfFuel] belongs to the
    recursion bound of the capture search only. *)

Inductive Fault := TypeError | OffRow | OutOfFuel.

Inductive Res (A : Type) :=
| Ok (a : A)
| Err (e : Fault).
Arguments Ok {A} a.
Arguments Err {A} e.

Global Instance Res_ret : MRet Res := λ A a, Ok a.
Global Instance Res_bind : MBind Res := λ A B f m,
  match m with Ok a => f a | Err e => Err e end.
Global Instance Res_fmap : FMap Res := λ A B f m,
  match m with Ok a => Ok (f a) | Err e => Err e end.

(** What an array read can produce at the type [Piece | null], plus
    [undefined] for an index the array does not have. *)
Inductive JsCell :=
| Undefined
| Null
| Obj (p : Piece).

(** [a[i]] for an integer [i]: [None] is [undefined]. *)
Definition zget {A} (l : list A) (i : Z) : option A :=
  if decide (0 ≤ i) then l !! Z.to_nat i else None.

(** [board[r][c]] *)
Definition readCell (board : Board) (r c : Z) : Res JsCell :=
  match zget board r with
  | None => Err TypeError
  | Some cells =>
      Ok (match zget cells c with
          | None => Undefined
          | Some None => Null
          | Some (Some p) => Obj p
          end)
  end.

(** [board[r][c] = v] on a board whose rows are not shared with another
    board: every assignment of the program goes into a fresh clone. *)
Definition writeCell (board : Board) (r c : Z) (v : option Piece) : Res Board :=
  match zget board r with
  | None => Err TypeError
  | Some cells =>
      match zget cells c with
      | None => Err OffRow
      | Some _ =>
          Ok (<[Z.to_nat r := <[Z.to_nat c := v]> cells]> board)
      end
  end.

(** ** The session object *)

Record Checkers := mkCheckers { _board : Board; _turn : Color }.

(** [reset()]: the starting layout, red to move. *)
Definition initialCell (r c : Z) : option Piece :=
  if decide ((r + c) `mod` 2 = 1) then
    if decide (r < 3) then Some (mkPiece black man)
    else if decide (r > 4) then Some (mkPiece red man)
    else None
  else None.

Definition initialBoard : Board :=
  (λ r, (λ c, initialCell r c) <$> seqZ 0 8) <$> seqZ 0 8.

Definition reset : Checkers := mkCheckers initialBoard red.

(** [getPiece(pos)] *)
Definition getPiece (g : Checkers) (pos : Position) : Res JsCell :=
  if (row pos <? 0) || (row pos >=? 8) || (col pos <? 0) || (col pos >=? 8)
  then Ok Null
  else readCell (_board g) (row pos) (col pos).

(** ** Board model: static helpers *)

(** [cloneBoard(board)]: a new array of new rows; [{ ...cell }] copies the
    two fields of a piece into a new object. *)
Definition cloneBoard (board : Board) : Board :=
  (λ cells : Row,
     (λ cell, match cell with
              | Some p => Some (mkPiece (color p) (type p))
              | None => None
              end) <$> cells) <$> board.

(** [getDirections(piece)] *)
Definition getDirections (piece : Piece) : list (Z * Z) :=
  if decide (type piece = king) then [(-1, -1); (-1, 1); (1, -1); (1, 1)]
  else if decide (color piece = red) then [(-1, -1); (-1, 1)]
  else [(1, -1); (1, 1)].

(** The bounds tests the generator writes inline:
    [p.row < 0 || p.row >= 8 || p.col < 0 || p.col >= 8] and
    [p.row >= 0 && p.row < 8 && p.col >= 0 && p.col < 8]. *)
Definition offBoard (p : Position) : bool :=
  (row p <? 0) || (row p >=? 8) || (col p <? 0) || (col p >=? 8).

Definition onBoard (p : Position) : bool :=
  (row p >=? 0) && (row p <? 8) && (col p >=? 0) && (col p <? 8).

(** [for (const x of xs) { ... }] over a loop state, stopping at a fault. *)
Fixpoint forOf {A St : Type} (body : St → A → Res St) (xs : list A) (s : St)
  : Res St :=
  match xs with
  | [] => Ok s
  | x :: xs' => s' ← body s x; forOf body xs' s'
  end.

(** ** Move generator *)

(** The guards of one iteration of the direction loop of
    [getCapturesForPiece] (the three [continue]s): [Some (enemyPos,
    landingPos)] when the jump in direction [d] is available. *)
Definition jumpAt (board : Board) (pos : Position) (piece : Piece) (d : Z * Z)
  : Res (option (Position * Position)) :=
  let enemyPos := mkPos (row pos + d.1) (col pos + d.2) in
  let landingPos := mkPos (row pos + 2 * d.1) (col pos + 2 * d.2) in
  if offBoard landingPos then Ok None
  else
    enemyPiece ← (if onBoard enemyPos
                   then readCell board (row enemyPos) (col enemyPos)
                   else Ok Null);
    match enemyPiece with
    | Obj e =>
        if decide (color e = color piece) then Ok None
        else
          landing ← readCell board (row landingPos) (col landingPos);
          match landing with
          | Null => Ok (Some (enemyPos, landingPos))
          | _ => Ok None
          end
    | _ => Ok None
    end.

(** The simulation of one jump: clone, clear the captured square, put the
    piece value it was called with on the landing square, clear the origin. *)
Definition simulateJump (board : Board) (pos : Position) (piece : Piece)
    (enemyPos landingPos : Position) : Res Board :=
  let newBoard := cloneBoard board in
  newBoard ← writeCell newBoard (row enemyPos) (col enemyPos) None;
  newBoard ← writeCell newBoard (row landingPos) (col landingPos) (Some piece);
  writeCell newBoard (row pos) (col pos) None.

(** [getCapturesForPiece], with a bound [fuel] on the depth of the
    recursion. *)
Fixpoint getCapturesFuel (fuel : nat) (board : Board) (pos : Position)
    (piece : Piece) (currentMove : option CheckersMove)
  : Res (list CheckersMove) :=
  match fuel with
  | O => Err OutOfFuel
  | S fuel' =>
      let directions := getDirections piece in
      let moveSoFar :=
        match currentMove with
        | Some cm => mkMove (from cm) (path cm) (captures cm)
        | None => mkMove pos [] []
        end in
      '(moves, foundCapture) ←
        forOf (λ '(moves, foundCapture) d,
          j ← jumpAt board pos piece d;
          match j with
          | None => Ok (moves, foundCapture)
          | Some (enemyPos, landingPos) =>
              newBoard ← simulateJump board pos piece enemyPos landingPos;
              let newMove :=
                mkMove (from moveSoFar)
                       (path moveSoFar ++ [landingPos])
                       (captures moveSoFar ++ [enemyPos]) in
              furtherCaptures ←
                getCapturesFuel fuel' newBoard landingPos piece (Some newMove);
              if (0 <? length furtherCaptures)%nat
              then Ok (moves ++ furtherCaptures, true)
              else Ok (moves ++ [newMove], true)
          end) directions ([], false);
      if negb foundCapture && (0 <? length (captures moveSoFar))%nat
      then Ok [moveSoFar]
      else Ok moves
  end.

(** The number of cells holding a piece of the other color: every jump
    removes one, so a chain is never longer. *)
Definition isOpponent (c : Color) (cell : option Piece) : bool :=
  match cell with
  | Some p => bool_decide (color p ≠ c)
  | None => false
  end.

Definition opponents (c : Color) (board : Board) : nat :=
  length (filter (λ cell, isOpponent c cell = true) (concat board)).

(** [getCapturesForPiece(board, pos, piece, currentMove?)] *)
Definition getCapturesForPiece (board : Board) (pos : Position) (piece : Piece)
    (currentMove : option CheckersMove) : Res (list CheckersMove) :=
  getCapturesFuel (S (opponents (color piece) board)) board pos piece currentMove.

(** [getSimpleMovesForPiece(board, pos, piece)] *)
Definition getSimpleMovesForPiece (board : Board) (pos : Position)
    (piece : Piece) : Res (list CheckersMove) :=
  forOf (λ moves d,
    let target := mkPos (row pos + d.1) (col pos + d.2) in
    if offBoard target then Ok moves
    else
      t ← readCell board (row target) (col target);
      match t with
      | Null => Ok (moves ++ [mkMove pos [target] []])
      | _ => Ok moves
      end) (getDirections piece) [].

(** One iteration of the inner loop of [getAllowedMovesForBoard]. *)
Definition scanCell (board : Board) (turn : Color) (r : Z)
    (acc : list CheckersMove * list CheckersMove) (c : Z)
  : Res (list CheckersMove * list CheckersMove) :=
  let '(allCaptures, allSimple) := acc in
  piece ← readCell board r c;
  match piece with
  | Obj p =>
      if decide (color p = turn) then
        let pos := mkPos r c in
        caps ← getCapturesForPiece board pos p None;
        if (0 <? length caps)%nat
        then Ok (allCaptures ++ caps, allSimple)
        else
          simple ← getSimpleMovesForPiece board pos p;
          Ok (allCaptures, allSimple ++ simple)
      else Ok (allCaptures, allSimple)
  | _ => Ok (allCaptures, allSimple)
  end.

(** [getAllowedMovesForBoard(board, turn)] *)
Definition getAllowedMovesForBoard (board : Board) (turn : Color)
  : Res (list CheckersMove) :=
  '(allCaptures, allSimple) ←
    forOf (λ acc r, forOf (scanCell board turn r) (seqZ 0 8) acc)
          (seqZ 0 8) ([], []);
  if (0 <? length allCaptures)%nat then Ok allCaptures else Ok allSimple.

(** ** Applying a move *)

(** [_promoteIfNeeded(piece, row)], used by [move] on the session board. *)
Definition _promoteIfNeeded (piece : Piece) (r : Z) : Piece :=
  if decide (type piece = king) then piece
  else if bool_decide (color piece = red) && (r =? 0)
       then mkPiece (color piece) king
  else if bool_decide (color piece = black) && (r =? 7)
       then mkPiece (color piece) king
  else piece.

(** [updateBoard(board, move)].  With an empty [path], [finalPos] is
    [undefined] and the first read of [finalPos.row] throws. *)
Definition updateBoard (board : Board) (move : CheckersMove) : Res Board :=
  let newBoard := cloneBoard board in
  piece ← readCell newBoard (row (from move)) (col (from move));
  match piece with
  | Obj piece =>
      newBoard ← writeCell newBoard (row (from move)) (col (from move)) None;
      newBoard ← forOf (λ nb cap, writeCell nb (row cap) (col cap) None)
                       (captures move) newBoard;
      match last (path move) with
      | None => Err TypeError
      | Some finalPos =>
          let newPiece := mkPiece (color piece) (type piece) in
          let newPiece :=
            if decide (type newPiece = man) then
              if bool_decide (color newPiece = red) && (row finalPos =? 0)
              then mkPiece (color newPiece) king
              else if bool_decide (color newPiece = black) && (row finalPos =? 7)
              then mkPiece (color newPiece) king
              else newPiece
            else newPiece in
          writeCell newBoard (row finalPos) (col finalPos) (Some newPiece)
      end
  | _ => Ok newBoard
  end.

(** ** Static evaluation *)

(** [evaluateBoard(board, perspective)] *)
Definition evaluateBoard (board : Board) (perspective : Color) : Res Z :=
  forOf (λ value r,
    forOf (λ value c,
      piece ← readCell board r c;
      match piece with
      | Obj p =>
          let pieceVal := if decide (type p = man) then 10 else 50 in
          if decide (color p = perspective)
          then Ok (value + pieceVal)
          else Ok (value - pieceVal)
      | _ => Ok value
      end) (seqZ 0 8) value) (seqZ 0 8) 0.

(** ** Search *)

(** [Math.random] is an outside source of numbers.  It is a stream of
    draws; [Math.floor(Math.random() * (i + 1))] takes the next draw and
    yields an index between [0] and [i]. *)
Definition Rng := nat → nat.

Definition randomIndex (bound : nat) (g : Rng) : nat * Rng :=
  ((g 0 `mod` bound)%nat, λ n, g (S n)).

(** [[array[i], array[j]] = [array[j], array[i]]] *)
Definition swap {A} (array : list A) (i j : nat) : list A :=
  match array !! i, array !! j with
  | Some x, Some y => <[j := x]> (<[i := y]> array)
  | _, _ => array
  end.

(** The loop of [shuffle]: [for (let i = array.length - 1; i > 0; i--)]. *)
Fixpoint shuffleFrom {A} (i : nat) (array : list A) (g : Rng) : list A * Rng :=
  match i with
  | O => (array, g)
  | S i' =>
      let '(j, g') := randomIndex (i + 1) g in
      shuffleFrom i' (swap array i j) g'
  end.

(** [shuffle(array)] *)
Definition shuffle {A} (array : list A) (g : Rng) : list A * Rng :=
  shuffleFrom (length array - 1) array g.

(** A score is a JavaScript number that starts at [-Infinity] or
    [Infinity] in the two loops of [minimax]. *)
Inductive Score :=
| NegInfinity
| Finite (z : Z)
| PosInfinity.

(** [a > b] *)
Definition score_gt (a b : Score) : bool :=
  match a, b with
  | NegInfinity, _ => false
  | Finite _, NegInfinity => true
  | Finite x, Finite y => x >? y
  | Finite _, PosInfinity => false
  | PosInfinity, PosInfinity => false
  | PosInfinity, _ => true
  end.

(** [a < b] *)
Definition score_lt (a b : Score) : bool := score_gt b a.

Record SearchResult := mkResult {
  score : Score;
  move : option CheckersMove
}.

(** [minimax(board, depth, isMax, turn, perspective)].  [depth] counts
    plies down to [0] and is a natural number here: [depth === 0] is the
    case [O], [depth - 1] the predecessor.  (A negative or fractional
    depth never meets [depth === 0]; it is outside the model.) *)
Fixpoint minimax (board : Board) (depth : nat) (isMax : bool)
    (turn perspective : Color) (g : Rng) : Res (SearchResult * Rng) :=
  moves ← getAllowedMovesForBoard board turn;
  let terminal :=
    s ← evaluateBoard board perspective; Ok (mkResult (Finite s) None, g) in
  match depth with
  | O => terminal
  | S depth' =>
      if (length moves =? 0)%nat then terminal
      else
        let '(shuffledMoves, g) := shuffle moves g in
        if isMax then
          '(bestVal, bestMove, g) ←
            forOf (λ '(bestVal, bestMove, g) move,
              newBoard ← updateBoard board move;
              let nextTurn := if decide (turn = red) then black else red in
              '(result, g) ←
                minimax newBoard depth' false nextTurn perspective g;
              if score_gt (score result) bestVal
              then Ok (score result, Some move, g)
              else Ok (bestVal, bestMove, g))
            shuffledMoves (NegInfinity, None, g);
          Ok (mkResult bestVal bestMove, g)
        else
          '(bestVal, bestMove, g) ←
            forOf (λ '(bestVal, bestMove, g) move,
              newBoard ← updateBoard board move;
              let nextTurn := if decide (turn = red) then black else red in
              '(result, g) ←
                minimax newBoard depth' true nextTurn perspective g;
              if score_lt (score result) bestVal
              then Ok (score result, Some move, g)
              else Ok (bestVal, bestMove, g))
            shuffledMoves (PosInfinity, None, g);
          Ok (mkResult bestVal bestMove, g)
  end.

(** [bestMove(depth)] on a session. *)
Definition bestMove (game : Checkers) (depth : nat) (g : Rng)
  : Res (option CheckersMove * Rng) :=
  '(result, g) ←
    minimax (cloneBoard (_board game)) depth true (_turn game) (_turn game) g;
  Ok (move result, g).

(** ** The session: moves and state snapshots *)

(** [a[i].row !== b[i].row || a[i].col !== b[i].col]; reading a field of
    an element the array does not have throws. *)
Definition differAt (a b : list Position) (i : nat) : Res bool :=
  match a !! i, b !! i with
  | Some p, Some q => Ok (negb (row p =? row q) || negb (col p =? col q))
  | _, _ => Err TypeError
  end.

(** [for (let i = 0; i < a.length; i++) if (...) return false], as the
    answer to: does the loop meet a difference. *)
Fixpoint anyDiffer (a b : list Position) (indices : list nat) : Res bool :=
  match indices with
  | [] => Ok false
  | i :: indices' =>
      d ← differAt a b i;
      if d : bool then Ok true else anyDiffer a b indices'
  end.

(** [compareMoves(m1, m2)] *)
Definition compareMoves (m1 m2 : CheckersMove) : Res bool :=
  if negb (row (from m1) =? row (from m2))
     || negb (col (from m1) =? col (from m2))
  then Ok false
  else if negb (length (path m1) =? length (path m2))%nat then Ok false
  else
    d ← anyDiffer (path m1) (path m2) (seq 0 (length (path m1)));
    if d : bool then Ok false
    else if negb (length (captures m1) =? length (captures m2))%nat
    then Ok false
    else
      d ← anyDiffer (captures m1) (captures m2)
                    (seq 0 (length (captures m1)));
      if d : bool then Ok false else Ok true.

(** [xs.some(f)] *)
Fixpoint arraySome {A} (f : A → Res bool) (xs : list A) : Res bool :=
  match xs with
  | [] => Ok false
  | x :: xs' => b ← f x; if b : bool then Ok true else arraySome f xs'
  end.

Module Game.
Local Open Scope string_scope.

Inductive GameState := redTurn | blackTurn | gameOver.

Record CheckersGameState := mkState {
  board : Board;
  turn : Color;
  allowedMoves : list CheckersMove;
  gameState : GameState;
  boardStatus : String.string;
  isGameOver : bool
}.

(** A color as the string it is in the source. *)
Definition colorName (c : Color) : String.string :=
  match c with red => "red" | black => "black" end.

(** [getCurrentState()] *)
Definition getCurrentState (g : Checkers) : Res CheckersGameState :=
  allowedMoves ← getAllowedMovesForBoard (_board g) (_turn g);
  let isGameOver := (length allowedMoves =? 0)%nat in
  let boardStatus :=
    if isGameOver
    then String.append "Game Over! "
           (String.append (if decide (_turn g = red) then "Black" else "Red")
                          " wins!")
    else String.append (colorName (_turn g)) "'s turn" in
  Ok (mkState (cloneBoard (_board g)) (_turn g) allowedMoves
        (if isGameOver then gameOver
         else if decide (_turn g = red) then redTurn else blackTurn)
        boardStatus isGameOver).

(** [_emitStateChange()]: the event [stateChange] carries a snapshot; the
    events a call emits are listed in its result, in order. *)
Definition _emitStateChange (g : Checkers) : Res (list CheckersGameState) :=
  s ← getCurrentState g; Ok [s].

(** [validateMove(move)] *)
Definition validateMove (g : Checkers) (mv : CheckersMove) : Res bool :=
  allowedMoves ← getAllowedMovesForBoard (_board g) (_turn g);
  arraySome (λ m, compareMoves m mv) allowedMoves.

(** [move(move)]: the answer, the session after the call and the events
    emitted.  The assignments go into the board of the session, the
    captured squares first, then the origin, then the final square.
    [getPiece(move.from)!] is [null] when the origin is off the board or
    empty, and [_promoteIfNeeded] then throws at [piece.type].  [Err] is
    a call that throws; the session it leaves is not described. *)
Definition move (g : Checkers) (mv : CheckersMove)
  : Res (bool * Checkers * list CheckersGameState) :=
  valid ← validateMove g mv;
  if negb valid then Ok (false, g, [])
  else
    piece ← getPiece g (from mv);
    board ← forOf (λ b cap, writeCell b (row cap) (col cap) None)
                  (captures mv) (_board g);
    let finalPos := last (path mv) in
    board ← writeCell board (row (from mv)) (col (from mv)) None;
    match finalPos with
    | None => Err TypeError
    | Some finalPos =>
        match piece with
        | Obj piece =>
            board ← writeCell board (row finalPos) (col finalPos)
                      (Some (_promoteIfNeeded piece (row finalPos)));
            let g' := mkCheckers board
                        (if decide (_turn g = red) then black else red) in
            events ← _emitStateChange g';
            Ok (true, g', events)
        | _ => Err TypeError
        end
    end.

(** [reset()] as a method: the session is set to the starting position
    and the change is announced. *)
Definition reset (g : Checkers) : Res (Checkers * list CheckersGameState) :=
  let g' := reset in
  events ← _emitStateChange g';
  Ok (g', events).

(** [new Checkers()] *)
Definition new : Res (Checkers * list CheckersGameState) :=
  reset (mkCheckers [] red).

End Game.

(** ** Arrays and objects in the store

    [cloneBoard] and [updateBoard] once more, this time with the arrays and
    the piece objects as JavaScript holds them: references into a store,
    which an assignment updates in place and which two boards may share.
    A location is an index into the store; an allocation appends. *)

Module Store.

Abbreviation Loc := nat.

(** An element of a row array: [null], a reference to a piece object, or
    a hole, which an array has after an assignment beyond its end and
    which reads as [undefined]. *)
Inductive Slot :=
| SHole
| SNull
| SRef (l : Loc).

Inductive Obj :=
| ORows (rows : list Loc)     (* a board: references to its rows *)
| OCells (cells : list Slot)  (* a row *)
| OPiece (p : Piece).         (* a piece object *)

Abbreviation Heap := (list Obj).

(** A call returns a value or throws; either way it leaves a store. *)
Inductive Outcome (A : Type) :=
| Return (a : A) (h : Heap)
| Throw (e : Fault) (h : Heap).
Arguments Return {A} a h.
Arguments Throw {A} e h.

Definition heapOf {A} (o : Outcome A) : Heap :=
  match o with Return _ h => h | Throw _ h => h end.

Definition M (A : Type) : Type := Heap → Outcome A.

Definition ret {A} (a : A) : M A := λ h, Return a h.
Definition throw {A} (e : Fault) : M A := λ h, Throw e h.
Definition bind {A B} (m : M A) (k : A → M B) : M B :=
  λ h, match m h with Return a h' => k a h' | Throw e h' => Throw e h' end.

Notation "x ⇐ m ; k" := (bind m (λ x, k))
  (at level 20, m at level 100, k at level 200, only parsing).

Definition alloc (o : Obj) : M Loc := λ h, Return (length h) (h ++ [o]).
Definition load (l : Loc) : M Obj := λ h,
  match h !! l with Some o => Return o h | None => Throw TypeError h end.
Definition store (l : Loc) (o : Obj) : M unit := λ h,
  Return () (<[l := o]> h).

(** [xs.map(f)] *)
Fixpoint arrayMap {A B} (f : A → M B) (xs : list A) : M (list B) :=
  match xs with
  | [] => ret []
  | x :: xs' => y ⇐ f x; ys ⇐ arrayMap f xs'; ret (y :: ys)
  end.

(** [for (const x of xs) { ... }] *)
Fixpoint forEach {A} (f : A → M unit) (xs : list A) : M unit :=
  match xs with
  | [] => ret ()
  | x :: xs' => _ ⇐ f x; forEach f xs'
  end.

(** [cell ? { ...cell } : null]; [map] leaves a hole a hole. *)
Definition cloneCell (c : Slot) : M Slot :=
  match c with
  | SHole => ret SHole
  | SNull => ret SNull
  | SRef lp =>
      o ⇐ load lp;
      match o with
      | OPiece p =>
          lp' ⇐ alloc (OPiece (mkPiece (color p) (type p))); ret (SRef lp')
      | _ => throw TypeError
      end
  end.

(** [row.map((cell) => ...)] *)
Definition cloneRow (lr : Loc) : M Loc :=
  o ⇐ load lr;
  match o with
  | OCells cells => cells' ⇐ arrayMap cloneCell cells; alloc (OCells cells')
  | _ => throw TypeError
  end.

(** [cloneBoard(board)] *)
Definition cloneBoard (board : Loc) : M Loc :=
  o ⇐ load board;
  match o with
  | ORows rows => rows' ⇐ arrayMap cloneRow rows; alloc (ORows rows')
  | _ => throw TypeError
  end.

(** What [board[r][c]] evaluates to: [undefined], [null] or a reference. *)
Inductive Ref :=
| RUndefined
| RNull
| RObj (l : Loc).

(** [board[r][c]] *)
Definition readCell (board : Loc) (r c : Z) : M Ref :=
  o ⇐ load board;
  match o with
  | ORows rows =>
      match zget rows r with
      | None => throw TypeError
      | Some lr =>
          o' ⇐ load lr;
          match o' with
          | OCells cells =>
              ret (match zget cells c with
                   | None | Some SHole => RUndefined
                   | Some SNull => RNull
                   | Some (SRef lp) => RObj lp
                   end)
          | _ => throw TypeError
          end
      end
  | _ => throw TypeError
  end.

(** [row[c] = v] on the elements of a row array: an index within the
    array is overwritten; an index beyond its end makes the array grow,
    with holes up to that index; a negative index names a property that is
    not an element, and the elements stay as they are. *)
Definition assign (cells : list Slot) (c : Z) (v : Slot) : list Slot :=
  if decide (c < 0) then cells
  else if decide (Z.to_nat c < length cells)%nat
       then <[Z.to_nat c := v]> cells
       else cells ++ replicate (Z.to_nat c - length cells) SHole ++ [v].

(** [board[r][c] = v]: the row array is updated in place. *)
Definition writeCell (board : Loc) (r c : Z) (v : Slot) : M unit :=
  o ⇐ load board;
  match o with
  | ORows rows =>
      match zget rows r with
      | None => throw TypeError
      | Some lr =>
          o' ⇐ load lr;
          match o' with
          | OCells cells => store lr (OCells (assign cells c v))
          | _ => throw TypeError
          end
      end
  | _ => throw TypeError
  end.

(** [updateBoard(board, move)] *)
Definition updateBoard (board : Loc) (move : CheckersMove) : M Loc :=
  newBoard ⇐ cloneBoard board;
  piece ⇐ readCell newBoard (row (from move)) (col (from move));
  match piece with
  | RObj lp =>
      _ ⇐ writeCell newBoard (row (from move)) (col (from move)) SNull;
      _ ⇐ forEach (λ cap, writeCell newBoard (row cap) (col cap) SNull)
                  (captures move);
      let finalPos := last (path move) in
      o ⇐ load lp;
      match o with
      | OPiece p =>
          newPiece ⇐ alloc (OPiece (mkPiece (color p) (type p)));
          match finalPos with
          | None => throw TypeError
          | Some finalPos =>
              _ ⇐ (if decide (type p = man) then
                     if bool_decide (color p = red) && (row finalPos =? 0)
                     then store newPiece (OPiece (mkPiece (color p) king))
                     else if bool_decide (color p = black) && (row finalPos =? 7)
                     then store newPiece (OPiece (mkPiece (color p) king))
                     else ret ()
                   else ret ());
              _ ⇐ writeCell newBoard (row finalPos) (col finalPos)
                            (SRef newPiece);
              ret newBoard
          end
      | _ => throw TypeError
      end
  | _ => ret newBoard
  end.

(** *** The board a reference denotes *)

Definition pieceAtLoc (h : Heap) (c : Slot) : option (option Piece) :=
  match c with
  | SHole => None
  | SNull => Some None
  | SRef lp =>
      match h !! lp with
      | Some (OPiece p) => Some (Some p)
      | _ => None
      end
  end.

Definition rowAt (h : Heap) (lr : Loc) : option (list (option Piece)) :=
  match h !! lr with
  | Some (OCells cells) => mapM (pieceAtLoc h) cells
  | _ => None
  end.

Definition boardAt (h : Heap) (lb : Loc) : option Board :=
  match h !! lb with
  | Some (ORows rows) => mapM (rowAt h) rows
  | _ => None
  end.

(** The locations a board is made of: the board array, its row arrays and
    its piece objects. *)
Definition cellLocs (h : Heap) (c : Slot) : list Loc :=
  match c with SRef lp => [lp] | _ => [] end.

Definition rowLocs (h : Heap) (lr : Loc) : list Loc :=
  lr :: match h !! lr with
        | Some (OCells cells) => cells ≫= cellLocs h
        | _ => []
        end.

Definition boardLocs (h : Heap) (lb : Loc) : list Loc :=
  lb :: match h !! lb with
        | Some (ORows rows) => rows ≫= rowLocs h
        | _ => []
        end.

(** Every object of [h] is at the same location, unchanged, in [h']. *)
Definition preserved (h h' : Heap) : Prop :=
  ∀ l o, h !! l = Some o → h' !! l = Some o.

(** [fresh h h' ls]: the locations [ls] were allocated between [h] and
    [h']. *)
Definition fresh (h h' : Heap) (ls : list Loc) : Prop :=
  ∀ l, l ∈ ls → (length h ≤ l < length h')%nat.

(** [private h0 lb rows h]: the store [h] keeps every object of [h0], and
    [lb] is in [h] a board array whose rows [rows] were all allocated after
    [h0]. *)
Definition private (h0 : Heap) (lb : Loc) (rows : list Loc) (h : Heap) : Prop :=
  preserved h0 h ∧ h !! lb = Some (ORows rows) ∧
  (length h0 ≤ length h)%nat ∧ ∀ lr, lr ∈ rows → (length h0 ≤ lr)%nat.

End Store.

(** ** Specification vocabulary *)

(** The shape of a board of the data model: 8 rows of 8 cells. *)
Definition wfBoard (b : Board) : Prop :=
  length b = 8%nat ∧ Forall (λ cells : Row, length cells = 8%nat) b.

(** The stored cell at a row and a column, if the board has it. *)
Definition cell (b : Board) (r c : Z) : option (option Piece) :=
  cells ← zget b r; zget cells c.

Definition cellAt (b : Board) (p : Position) : option (option Piece) :=
  cell b (row p) (col p).

Definition jsCell (c : option Piece) : JsCell :=
  match c with Some p => Obj p | None => Null end.

Definition inGrid (p : Position) : Prop :=
  0 ≤ row p < 8 ∧ 0 ≤ col p < 8.

(** *** Jumps and chains *)

(** The geometry of a hop from [pos] in direction [d]. *)
Definition enemyOf (pos : Position) (d : Z * Z) : Position :=
  mkPos (row pos + d.1) (col pos + d.2).
Definition landingOf (pos : Position) (d : Z * Z) : Position :=
  mkPos (row pos + 2 * d.1) (col pos + 2 * d.2).

(** [chain piece b pos ps cs b' pos']: starting on board [b] at [pos], the
    landing squares [ps] and the captured squares [cs] are a sequence of
    available jumps, each simulated as the generator does; [b'] is the
    last simulated board and [pos'] the last landing square.  The piece
    value is the same at every hop. *)
Inductive chain (piece : Piece)
  : Board → Position → list Position → list Position → Board → Position → Prop :=
| chain_nil b pos : chain piece b pos [] [] b pos
| chain_step b pos d e l b1 ps cs b' pos' :
    d ∈ getDirections piece →
    jumpAt b pos piece d = Ok (Some (e, l)) →
    simulateJump b pos piece e l = Ok b1 →
    chain piece b1 l ps cs b' pos' →
    chain piece b pos (l :: ps) (e :: cs) b' pos'.

(** No jump is available to [piece] from [pos] on [b]. *)
Definition stuck (piece : Piece) (b : Board) (pos : Position) : Prop :=
  ∀ d, d ∈ getDirections piece → jumpAt b pos piece d = Ok None.

(** The move sequence a call starts from, and its extension by a chain. *)
Definition startMove (pos : Position) (currentMove : option CheckersMove)
  : CheckersMove :=
  match currentMove with
  | Some cm => mkMove (from cm) (path cm) (captures cm)
  | None => mkMove pos [] []
  end.

Definition extend (m : CheckersMove) (ps cs : list Position) : CheckersMove :=
  mkMove (from m) (path m ++ ps) (captures m ++ cs).

(** The body of the direction loop, as it stands in [getCapturesFuel]. *)
Definition captureStep (fuel' : nat) b pos piece (moveSoFar : CheckersMove)
    (st : list CheckersMove * bool) (d : Z * Z)
  : Res (list CheckersMove * bool) :=
  let '(moves, foundCapture) := st in
  j ← jumpAt b pos piece d;
  match j with
  | None => Ok (moves, foundCapture)
  | Some (enemyPos, landingPos) =>
      newBoard ← simulateJump b pos piece enemyPos landingPos;
      let newMove :=
        mkMove (from moveSoFar)
               (path moveSoFar ++ [landingPos])
               (captures moveSoFar ++ [enemyPos]) in
      furtherCaptures ←
        getCapturesFuel fuel' newBoard landingPos piece (Some newMove);
      if (0 <? length furtherCaptures)%nat
      then Ok (moves ++ furtherCaptures, true)
      else Ok (moves ++ [newMove], true)
  end.

(** The simple moves of a piece: one step to an empty adjacent square. *)
Definition simpleStep (b : Board) (pos : Position) (piece : Piece)
    (m : CheckersMove) : Prop :=
  ∃ d, d ∈ getDirections piece ∧ inGrid (enemyOf pos d) ∧
       cellAt b (enemyOf pos d) = Some None ∧
       m = mkMove pos [enemyOf pos d] [].

(** The squares in the order of the two loops of [getAllowedMovesForBoard],
    and the pieces of one color met in that order. *)
Definition squares : list (Z * Z) :=
  r ← seqZ 0 8; (λ c, (r, c)) <$> seqZ 0 8.

Definition pieceAt (b : Board) (turn : Color) (rc : Z * Z)
  : option (Position * Piece) :=
  match cell b rc.1 rc.2 with
  | Some (Some p) =>
      if decide (color p = turn) then Some (mkPos rc.1 rc.2, p) else None
  | _ => None
  end.

Definition piecesOf (b : Board) (turn : Color) : list (Position * Piece) :=
  omap (pieceAt b turn) squares.

(** The simple moves of a piece count only when it has no capture. *)
Definition keptSimple (caps simple : list CheckersMove) : list CheckersMove :=
  match caps with [] => simple | _ => [] end.

(** [m] is a capture move of a piece of [turn]: a non-empty chain from its
    square that cannot be extended. *)
Definition captureOf (b : Board) (turn : Color) (m : CheckersMove) : Prop :=
  ∃ piece b' pos',
    cellAt b (from m) = Some (Some piece) ∧ color piece = turn ∧
    chain piece b (from m) (path m) (captures m) b' pos' ∧
    stuck piece b' pos' ∧ path m ≠ [].

(** [m] is a simple move of a piece of [turn]. *)
Definition simpleOf (b : Board) (turn : Color) (m : CheckersMove) : Prop :=
  ∃ piece,
    cellAt b (from m) = Some (Some piece) ∧ color piece = turn ∧
    simpleStep b (from m) piece m.

(** *** Example boards *)

Definition NN : option Piece := None.
Definition RM : option Piece := Some (mkPiece red man).
Definition RK : option Piece := Some (mkPiece red king).
Definition BM : option Piece := Some (mkPiece black man).

(** A red man on (5,2) that can jump (4,3) and then (2,3). *)
Definition doubleJumpBoard : Board :=
  [ [NN; NN; NN; NN; NN; NN; NN; NN];
    [NN; NN; NN; NN; NN; NN; NN; NN];
    [NN; NN; NN; BM; NN; NN; NN; NN];
    [NN; NN; NN; NN; NN; NN; NN; NN];
    [NN; NN; NN; BM; NN; NN; NN; NN];
    [NN; NN; RM; NN; NN; NN; NN; NN];
    [NN; NN; NN; NN; NN; NN; NN; NN];
    [NN; NN; NN; NN; NN; NN; NN; NN] ].

(** A red man on (2,1) that jumps (1,2) and lands on the back rank at
    (0,3); a black man on (1,4) with (2,5) empty stands where a king on
    (0,3) could jump next. *)
Definition backRankBoard : Board :=
  [ [NN; NN; NN; NN; NN; NN; NN; NN];
    [NN; NN; BM; NN; BM; NN; NN; NN];
    [NN; RM; NN; NN; NN; NN; NN; NN];
    [NN; NN; NN; NN; NN; NN; NN; NN];
    [NN; NN; NN; NN; NN; NN; NN; NN];
    [NN; NN; NN; NN; NN; NN; NN; NN];
    [NN; NN; NN; NN; NN; NN; NN; NN];
    [NN; NN; NN; NN; NN; NN; NN; NN] ].

(** A red king on (4,1) inside a diamond of four black men: it can go
    round either way and ends on the square it started from. *)
Definition circuitBoard : Board :=
  [ [NN; NN; NN; NN; NN; NN; NN; NN];
    [NN; NN; NN; NN; NN; NN; NN; NN];
    [NN; NN; NN; NN; NN; NN; NN; NN];
    [NN; NN; BM; NN; BM; NN; NN; NN];
    [NN; RK; NN; NN; NN; NN; NN; NN];
    [NN; NN; BM; NN; BM; NN; NN; NN];
    [NN; NN; NN; NN; NN; NN; NN; NN];
    [NN; NN; NN; NN; NN; NN; NN; NN] ].

(** A red man on (3,2) with a capture over (2,3), and a second red man on
    (5,6) that has only simple moves. *)
Definition mixedBoard : Board :=
  [ [NN; NN; NN; NN; NN; NN; NN; NN];
    [NN; NN; NN; NN; NN; NN; NN; NN];
    [NN; NN; NN; BM; NN; NN; NN; NN];
    [NN; NN; RM; NN; NN; NN; NN; NN];
    [NN; NN; NN; NN; NN; NN; NN; NN];
    [NN; NN; NN; NN; NN; NN; RM; NN];
    [NN; NN; NN; NN; NN; NN; NN; NN];
    [NN; NN; NN; NN; NN; NN; NN; NN] ].

(** A red man on (3,5) that can jump the black man on (2,6) and land on
    (1,7), in the last column; it can also step to (2,4). *)
Definition edgeBoard : Board :=
  [ [NN; NN; NN; NN; NN; NN; NN; NN];
    [NN; NN; NN; NN; NN; NN; NN; NN];
    [NN; NN; NN; NN; NN; NN; BM; NN];
    [NN; NN; NN; NN; NN; RM; NN; NN];
    [NN; NN; NN; NN; NN; NN; NN; NN];
    [NN; NN; NN; NN; NN; NN; NN; NN];
    [NN; NN; NN; NN; NN; NN; NN; NN];
    [NN; NN; NN; NN; NN; NN; NN; NN] ].

(** A black man on (3,2) held by four red men: the squares ahead of it
    are taken and so are the squares behind them. *)
Definition blockedBoard : Board :=
  [ [NN; NN; NN; NN; NN; NN; NN; NN];
    [NN; NN; NN; NN; NN; NN; NN; NN];
    [NN; NN; NN; NN; NN; NN; NN; NN];
    [NN; NN; BM; NN; NN; NN; NN; NN];
    [NN; RM; NN; RM; NN; NN; NN; NN];
    [RM; NN; NN; NN; RM; NN; NN; NN];
    [NN; NN; NN; NN; NN; NN; NN; NN];
    [NN; NN; NN; NN; NN; NN; NN; NN] ].

(** A board with 8 rows of unequal lengths.  The red man on (2,0) has a
    black man on (1,1) next to it, and row 0 has no cell behind it; the
    red man on (7,2) has an empty square on (6,1), and row 6 has no cell
    on (6,3). *)
Definition raggedBoard : Board :=
  [ [NN; NN];
    [NN; BM];
    [RM];
    [];
    [];
    [];
    [NN; NN; NN];
    [NN; NN; RM] ].

(** *** Shapes of moves *)

(** A jump captures something; a simple move captures nothing. *)
Definition isCapture (m : CheckersMove) : Prop := captures m ≠ [].
Definition isSimple (m : CheckersMove) : Prop := captures m = [].

(** The move-shape invariant of the data model. *)
Definition moveShape (m : CheckersMove) : Prop :=
  (captures m ≠ [] ∧ length (path m) = length (captures m)) ∨
  (captures m = [] ∧ length (path m) = 1%nat).

(** [m1] is a strict prefix of [m2]: same origin, and the path and the
    captures of [m2] properly extend those of [m1]. *)
Definition strictPrefix (m1 m2 : CheckersMove) : Prop :=
  from m1 = from m2 ∧
  (∃ ps, ps ≠ [] ∧ path m2 = path m1 ++ ps) ∧
  (∃ cs, cs ≠ [] ∧ captures m2 = captures m1 ++ cs).

(** The squares a chain passes over and lands on, hop by hop, for a fixed
    set of directions. *)
Fixpoint hops (dirs : list (Z * Z)) (pos : Position)
    (ps cs : list Position) : Prop :=
  match ps, cs with
  | [], [] => True
  | l :: ps', e :: cs' =>
      (∃ d, d ∈ dirs ∧ e = enemyOf pos d ∧ l = landingOf pos d) ∧
      hops dirs l ps' cs'
  | _, _ => False
  end.

(** A piece reaches the back rank of its opponent. *)
Definition reachesBackRank (piece : Piece) (fin : Position) : Prop :=
  (color piece = red ∧ row fin = 0) ∨ (color piece = black ∧ row fin = 7).

(** *** Evaluation and search *)

(** The score as the specification words it: the sum over the cells of the
    board of the value of the piece, 10 for a man and 50 for a king,
    counted positively for the color of the perspective and negatively
    for the other. *)
Definition pieceValue (p : Piece) : Z :=
  match type p with man => 10 | king => 50 end.

Definition signedValue (perspective : Color) (c : option Piece) : Z :=
  match c with
  | Some p => if decide (color p = perspective) then pieceValue p
              else - pieceValue p
  | None => 0
  end.

Definition material (b : Board) (perspective : Color) : Z :=
  foldr Z.add 0 (signedValue perspective <$> concat b).

(** Two runs that end alike: both return, on related values, or both stop
    on the same fault. *)
Definition resRel {A B} (R : A → B → Prop) (x : Res A) (y : Res B) : Prop :=
  match x, y with
  | Ok a, Ok b => R a b
  | Err e, Err e' => e = e'
  | _, _ => False
  end.

(** The body of the two loops of [evaluateBoard]. *)
Definition evalCell (b : Board) (perspective : Color) (r : Z)
    (value : Z) (c : Z) : Res Z :=
  piece ← readCell b r c;
  match piece with
  | Obj p =>
      let pieceVal := if decide (type p = man) then 10 else 50 in
      if decide (color p = perspective)
      then Ok (value + pieceVal)
      else Ok (value - pieceVal)
  | _ => Ok value
  end.

(** [turn === "red" ? "black" : "red"] *)
Definition opposite (turn : Color) : Color :=
  if decide (turn = red) then black else red.

(** The body of the two loops of [minimax]: [better] is [>] in the
    maximizing loop and [<] in the minimizing one, [recur] the call one ply
    deeper. *)
Definition searchStep (recur : Board → Rng → Res (SearchResult * Rng))
    (better : Score → Score → bool) (board : Board)
    (st : Score * option CheckersMove * Rng) (mv : CheckersMove)
  : Res (Score * option CheckersMove * Rng) :=
  let '(bestVal, bestMove, g) := st in
  newBoard ← updateBoard board mv;
  '(result, g) ← recur newBoard g;
  if better (score result) bestVal
  then Ok (score result, Some mv, g)
  else Ok (bestVal, bestMove, g).

(** *** Stores *)

(** [h'] keeps the piece objects of [h]. *)
Definition keepsPieces (h h' : Store.Heap) : Prop :=
  ∀ l p, h !! l = Some (Store.OPiece p) → h' !! l = Some (Store.OPiece p).

(** A store in which a board shares its storage: the eight row entries
    point to two arrays only (location 1, an empty row, seven times, and
    location 2 once), and the one piece object is at location 0.  The
    board array is at location 3; its value has a red man on (5,0). *)
Definition sharedHeap : list Store.Obj :=
  [ Store.OPiece (mkPiece red man);
    Store.OCells [Store.SNull; Store.SNull; Store.SNull; Store.SNull;
                  Store.SNull; Store.SNull; Store.SNull; Store.SNull];
    Store.OCells [Store.SRef 0; Store.SNull; Store.SNull; Store.SNull;
                  Store.SNull; Store.SNull; Store.SNull; Store.SNull];
    Store.ORows [1; 1; 1; 1; 1; 2; 1; 1]%nat ].

(** The value of the board at location 3 of [sharedHeap]. *)
Definition sharedBoard : Board :=
  [ [NN; NN; NN; NN; NN; NN; NN; NN];
    [NN; NN; NN; NN; NN; NN; NN; NN];
    [NN; NN; NN; NN; NN; NN; NN; NN];
    [NN; NN; NN; NN; NN; NN; NN; NN];
    [NN; NN; NN; NN; NN; NN; NN; NN];
    [RM; NN; NN; NN; NN; NN; NN; NN];
    [NN; NN; NN; NN; NN; NN; NN; NN];
    [NN; NN; NN; NN; NN; NN; NN; NN] ].

(** *** Squares of a move *)

(** The square [q] holds a piece that is not of color [turn]. *)
Definition holdsEnemy (b : Board) (turn : Color) (q : Position) : Prop :=
  ∃ ep, cellAt b q = Some (Some ep) ∧ color ep ≠ turn.

(** What a generated move is made of, on the board it was generated for:
    the piece on its origin, its final square, captured squares that are
    pairwise distinct and hold opposing pieces, and landing squares that
    are empty or the origin itself. *)
Definition legalShape (b : Board) (turn : Color) (m : CheckersMove)
    (piece : Piece) (fin : Position) : Prop :=
  cellAt b (from m) = Some (Some piece) ∧ color piece = turn ∧
  last (path m) = Some fin ∧ inGrid fin ∧
  Forall inGrid (path m) ∧ Forall inGrid (captures m) ∧
  NoDup (captures m) ∧
  Forall (holdsEnemy b turn) (captures m) ∧
  Forall (λ l, cellAt b l = Some None ∨ l = from m) (path m).

(** *** Sums over squares *)

Definition sumZ (l : list Z) : Z := foldr Z.add 0 l.

(** The weight of the cell on a square, [0] off the board. *)
Definition cellWeight (w : option Piece → Z) (b : Board) (q : Position) : Z :=
  match cellAt b q with Some x => w x | None => 0 end.

(** The value of the pieces on the squares [cs], and what a promotion
    adds to the value of a piece. *)
Definition capturedValue (b : Board) (cs : list Position) : Z :=
  sumZ (cellWeight (λ x, match x with Some p => pieceValue p | None => 0 end)
                   b <$> cs).

Definition promotionGain (piece : Piece) (fin : Position) : Z :=
  pieceValue (_promoteIfNeeded piece (row fin)) - pieceValue piece.

(** The weight that counts the pieces not of color [t]. *)
Definition enemyWeight (t : Color) (c : option Piece) : Z :=
  Z.of_nat (Nat.b2n (isOpponent t c)).

(** *** A session played *)

(** The calls [move(mv)] for the moves of a list, one after the other:
    the session at the end and the answers. *)
Fixpoint play (g : Checkers) (mvs : list CheckersMove)
  : Res (Checkers * list bool) :=
  match mvs with
  | [] => Ok (g, [])
  | mv :: mvs' =>
      r ← Game.move g mv;
      r' ← play r.1.2 mvs';
      Ok (r'.1, r.1.1 :: r'.2)
  end.

(** The number of accepted moves among the answers. *)
Definition accepted (oks : list bool) : nat :=
  length (filter (λ ok, ok = true) oks).

(** *** The value of a position *)

(** [w] is no better than [v] for the side that chooses. *)
Definition worseEq (isMax : bool) (w v : Z) : Prop :=
  if isMax then w ≤ v else v ≤ w.

(** The value of a position searched [depth] plies deep: the static
    evaluation at depth 0 or without a legal move, otherwise the value of
    a best successor, the largest for the maximizing side and the least
    for the minimizing side. *)
Fixpoint minimaxValue (depth : nat) (b : Board) (isMax : bool)
    (turn perspective : Color) (v : Z) : Prop :=
  ∃ l, getAllowedMovesForBoard b turn = Ok l ∧
  match depth with
  | O => evaluateBoard b perspective = Ok v
  | S depth' =>
      if decide (l = []) then evaluateBoard b perspective = Ok v
      else
        (∃ m nb, m ∈ l ∧ updateBoard b m = Ok nb ∧
           minimaxValue depth' nb (negb isMax) (opposite turn) perspective v) ∧
        (∀ m nb w, m ∈ l → updateBoard b m = Ok nb →
           minimaxValue depth' nb (negb isMax) (opposite turn) perspective w →
           worseEq isMax w v)
  end.

(** *** Directions *)

(** Every square of [ps], taken in order from [pos], is in a row ahead of
    the one before it: a smaller row for red, a larger one for black. *)
Fixpoint forwardRows (c : Color) (pos : Position) (ps : list Position)
  : Prop :=
  match ps with
  | [] => True
  | l :: ps' =>
      match c with red => row l < row pos | black => row pos < row l end ∧
      forwardRows c l ps'
  end.

(** *** The rules, read on the board

    What follows says when a jump or a step is there in terms of the
    cells of the board alone; none of it mentions a function of the
    program.  [enemyOf pos d] is the neighbour square of [pos] in
    direction [d] and [landingOf pos d] the square behind it. *)

(** The directions a piece may take: one column to either side, and one
    row up for a red man, one row down for a black man, either for a
    king. *)
Definition moveDir (piece : Piece) (d : Z * Z) : Prop :=
  (d.2 = -1 ∨ d.2 = 1) ∧
  match type piece with
  | king => d.1 = -1 ∨ d.1 = 1
  | man => d.1 = match color piece with red => -1 | black => 1 end
  end.

(** The four diagonal directions. *)
Definition diagonals : list (Z * Z) := [(-1, -1); (-1, 1); (1, -1); (1, 1)].

(** A jump of [piece] from [pos] in direction [d] is available on [b]:
    the neighbour square and the square behind it are on the board, the
    neighbour holds a piece of the other color and the square behind it
    is empty. *)
Definition canJump (b : Board) (pos : Position) (piece : Piece) (d : Z * Z)
  : Prop :=
  moveDir piece d ∧
  inGrid (enemyOf pos d) ∧ inGrid (landingOf pos d) ∧
  holdsEnemy b (color piece) (enemyOf pos d) ∧
  cellAt b (landingOf pos d) = Some None.

(** A step of [piece] from [pos] in direction [d] is available on [b]:
    the neighbour square is on the board and empty. *)
Definition canStep (b : Board) (pos : Position) (piece : Piece) (d : Z * Z)
  : Prop :=
  moveDir piece d ∧ inGrid (enemyOf pos d) ∧
  cellAt b (enemyOf pos d) = Some None.

(** No jump, and no step, is available to [piece] from [pos] on [b]. *)
Definition noJump (piece : Piece) (b : Board) (pos : Position) : Prop :=
  ∀ d, ¬ canJump b pos piece d.

Definition noStep (piece : Piece) (b : Board) (pos : Position) : Prop :=
  ∀ d, ¬ canStep b pos piece d.

(** The board in which every cell [x] on a square [q] is replaced by
    [f q x]. *)
Definition mapCells (f : Position → option Piece → option Piece) (b : Board)
  : Board :=
  imap (λ r cells,
    imap (λ c x, f (mkPos (Z.of_nat r) (Z.of_nat c)) x) cells) b.

(** The board after the jump of [piece] from [pos] in direction [d]: the
    square it left and the square it jumped over are empty, the square
    it landed on holds it, every other square is as before. *)
Definition afterJump (b : Board) (pos : Position) (piece : Piece) (d : Z * Z)
  : Board :=
  mapCells (λ q x,
    if decide (q = pos) then None
    else if decide (q = landingOf pos d) then Some piece
    else if decide (q = enemyOf pos d) then None
    else x) b.

(** [jumps piece b pos ps cs b' pos']: from [pos] on [b] the piece makes
    available jumps one after the other, landing on the squares [ps] and
    jumping over the squares [cs]; [b'] is the board after the last one
    and [pos'] the square reached.  The piece is the same at every jump:
    a man is not crowned on the way. *)
Inductive jumps (piece : Piece)
  : Board → Position → list Position → list Position → Board → Position → Prop :=
| jumps_nil b pos : jumps piece b pos [] [] b pos
| jumps_step b pos d ps cs b' pos' :
    canJump b pos piece d →
    jumps piece (afterJump b pos piece d) (landingOf pos d) ps cs b' pos' →
    jumps piece b pos (landingOf pos d :: ps) (enemyOf pos d :: cs) b' pos'.

(** A piece of [turn] stands on [pos], a square of the board. *)
Definition ownPiece (b : Board) (turn : Color) (pos : Position)
    (piece : Piece) : Prop :=
  inGrid pos ∧ cellAt b pos = Some (Some piece) ∧ color piece = turn.

(** Some piece of [turn] has a jump available on [b]. *)
Definition captureAvailable (b : Board) (turn : Color) : Prop :=
  ∃ pos piece d, ownPiece b turn pos piece ∧ canJump b pos piece d.

(** [m] is a capture move of [turn] on [b]: a piece of [turn] on its
    origin makes the jumps of its path over the squares of its captures,
    at least one, and no jump is available to it after the last. *)
Definition captureMove (b : Board) (turn : Color) (m : CheckersMove) : Prop :=
  ∃ piece b' pos',
    ownPiece b turn (from m) piece ∧
    jumps piece b (from m) (path m) (captures m) b' pos' ∧
    noJump piece b' pos' ∧ path m ≠ [].

(** [m] is a simple move of [turn] on [b]: one available step of a piece
    of [turn], and no capture. *)
Definition stepMove (b : Board) (turn : Color) (m : CheckersMove) : Prop :=
  ∃ piece d,
    ownPiece b turn (from m) piece ∧ canStep b (from m) piece d ∧
    m = mkMove (from m) [enemyOf (from m) d] [].

(** *** Blocked pieces *)

(** No piece of [turn] has a jump or a step available on [b]. *)
Definition blocked (b : Board) (turn : Color) : Prop :=
  ∀ pos piece, ownPiece b turn pos piece →
    noJump piece b pos ∧ noStep piece b pos.

(** The lengths of the rows of a board. *)
Definition shape (b : Board) : list nat := length <$> b.

(** *** Boards of any shape *)

(** A call on [b] that returns, or throws a [TypeError] on a board with
    fewer than 8 rows. *)
Definition safeOn {A} (b : Board) (r : Res A) : Prop :=
  match r with
  | Ok _ => True
  | Err e => e = TypeError ∧ (length b < 8)%nat
  end.

(** ** Arrays and cells *)

Section cells.
Implicit Types (b : Board) (r c : Z) (v : option Piece).

Lemma zget_Some {A} (l : list A) i x :
  zget l i = Some x ↔ 0 ≤ i ∧ l !! Z.to_nat i = Some x.
Proof. unfold zget. case_decide; intuition (done || lia). Qed.

Lemma zget_is_Some {A} (l : list A) i :
  is_Some (zget l i) ↔ 0 ≤ i < Z.of_nat (length l).
Proof.
  unfold zget. case_decide.
  - rewrite lookup_lt_is_Some. lia.
  - split; [by intros [? ?] | lia].
Qed.

Lemma cell_Some b r c x :
  cell b r c = Some x ↔
  ∃ cells, zget b r = Some cells ∧ zget cells c = Some x.
Proof.
  unfold cell. destruct (zget b r) as [cells|]; simpl.
  - split; [by exists cells|]. by intros (? & [= <-] & ?).
  - split; [done|]. by intros (? & ? & ?).
Qed.

Lemma wfBoard_cell b r c :
  wfBoard b → 0 ≤ r < 8 → 0 ≤ c < 8 → is_Some (cell b r c).
Proof.
  intros [Hl Hr] Hrr Hc.
  destruct (zget_is_Some b r) as [_ [cells Hcells]]; [lia|].
  assert (length cells = 8%nat) as Hlen.
  { apply zget_Some in Hcells as [_ Hcells].
    by eapply (Forall_lookup_1 _ _ _ _ Hr). }
  destruct (zget_is_Some cells c) as [_ [x Hx]]; [lia|].
  exists x. apply cell_Some. eauto.
Qed.

Lemma cell_inGrid b r c :
  wfBoard b → is_Some (cell b r c) → 0 ≤ r < 8 ∧ 0 ≤ c < 8.
Proof.
  intros [Hl Hr] [x (cells & Hcells & Hx)%cell_Some].
  assert (is_Some (zget b r)) as Hb%zget_is_Some by eauto.
  assert (is_Some (zget cells c)) as Hc%zget_is_Some by eauto.
  apply zget_Some in Hcells as [_ Hcells].
  pose proof (Forall_lookup_1 _ _ _ _ Hr Hcells) as Hlen. simpl in Hlen.
  lia.
Qed.

Lemma readCell_cell b r c x :
  cell b r c = Some x → readCell b r c = Ok (jsCell x).
Proof.
  intros (cells & Hcells & Hx)%cell_Some. unfold readCell.
  rewrite Hcells, Hx. by destruct x.
Qed.

Lemma readCell_Obj b r c p :
  readCell b r c = Ok (Obj p) ↔ cell b r c = Some (Some p).
Proof.
  unfold readCell, cell.
  destruct (zget b r) as [cells|]; simpl; [|naive_solver].
  destruct (zget cells c) as [[q|]|]; naive_solver.
Qed.

Lemma readCell_Null b r c :
  readCell b r c = Ok Null ↔ cell b r c = Some None.
Proof.
  unfold readCell, cell.
  destruct (zget b r) as [cells|]; simpl; [|naive_solver].
  destruct (zget cells c) as [[q|]|]; naive_solver.
Qed.

Lemma readCell_wf b r c :
  wfBoard b → 0 ≤ r < 8 → 0 ≤ c < 8 →
  ∃ x, cell b r c = Some x ∧ readCell b r c = Ok (jsCell x).
Proof.
  intros Hwf Hr Hc. destruct (wfBoard_cell b r c) as [x Hx]; [done..|].
  exists x. split; [done|]. by apply readCell_cell.
Qed.

(** A successful assignment changes the one cell and nothing else. *)
Lemma writeCell_Ok b r c v :
  is_Some (cell b r c) → ∃ b', writeCell b r c v = Ok b'.
Proof.
  intros [x (cells & Hcells & Hx)%cell_Some]. unfold writeCell.
  rewrite Hcells, Hx. eauto.
Qed.

Lemma writeCell_is_Some b r c v b' :
  writeCell b r c v = Ok b' → is_Some (cell b r c).
Proof.
  unfold writeCell, cell.
  destruct (zget b r) as [cells|]; simpl; [|done].
  destruct (zget cells c); naive_solver.
Qed.

Lemma zget_insert {A} (l : list A) i x j :
  is_Some (zget l i) →
  zget (<[Z.to_nat i := x]> l) j = if decide (j = i) then Some x else zget l j.
Proof.
  intros Hi%zget_is_Some. unfold zget.
  destruct (decide (0 ≤ j)) as [Hj|Hj].
  - destruct (decide (j = i)) as [->|Hne].
    + apply list_lookup_insert_eq. lia.
    + apply list_lookup_insert_ne. lia.
  - rewrite decide_False by lia. done.
Qed.

Lemma cell_writeCell b r c v b' r' c' :
  writeCell b r c v = Ok b' →
  cell b' r' c' = if decide (r' = r ∧ c' = c) then Some v else cell b r' c'.
Proof.
  unfold writeCell. destruct (zget b r) as [cells|] eqn:Hcells; [|done].
  destruct (zget cells c) as [old|] eqn:Hold; [|done].
  intros [= <-]. unfold cell.
  rewrite zget_insert by eauto.
  destruct (decide (r' = r)) as [->|Hne]; simpl.
  - rewrite zget_insert by eauto. rewrite Hcells. simpl.
    destruct (decide (c' = c)) as [->|Hnc].
    + by rewrite decide_True.
    + by rewrite decide_False by (by intros [_ ?]).
  - by rewrite decide_False by (by intros [? _]).
Qed.

Lemma writeCell_wf b r c v b' :
  writeCell b r c v = Ok b' → wfBoard b → wfBoard b'.
Proof.
  unfold writeCell. destruct (zget b r) as [cells|] eqn:Hcells; [|done].
  destruct (zget cells c) as [old|] eqn:Hold; [|done].
  intros [= <-] [Hl Hr].
  apply zget_Some in Hcells as [_ Hcells].
  split; [by rewrite length_insert|].
  apply Forall_insert; [done|]. rewrite length_insert.
  by eapply (Forall_lookup_1 _ _ _ _ Hr).
Qed.

(** Copying the fields of every piece yields the same board value. *)
Lemma cloneBoard_id b : cloneBoard b = b.
Proof.
  unfold cloneBoard.
  rewrite <-(list_fmap_id b) at 2. apply list_fmap_ext. intros _ cells _.
  rewrite <-(list_fmap_id cells) at 2. apply list_fmap_ext.
  intros _ [[]|] _; done.
Qed.
End cells.

(** ** The loop rule *)

Section loops.
Context {A St : Type}.
Implicit Types (body : St → A → Res St) (xs : list A) (s : St).

Lemma forOf_app body xs ys s :
  forOf body (xs ++ ys) s = (s' ← forOf body xs s; forOf body ys s').
Proof.
  revert s. induction xs as [|x xs IH]; intros s; simpl; [done|].
  destruct (body s x) as [s1|e]; simpl; [apply IH|done].
Qed.

Lemma forOf_ext body body' xs s :
  (∀ s x, body s x = body' s x) → forOf body xs s = forOf body' xs s.
Proof.
  intros Hext. revert s. induction xs as [|x xs IH]; intros s; simpl; [done|].
  rewrite Hext. destruct (body' s x); simpl; [apply IH|done].
Qed.

Lemma forOf_Ok_mono body body' xs s s' :
  forOf body xs s = Ok s' →
  (∀ s x s', body s x = Ok s' → body' s x = Ok s') →
  forOf body' xs s = Ok s'.
Proof.
  intros Hrun Hmono. revert s Hrun.
  induction xs as [|x xs IH]; intros s; simpl; [done|].
  destruct (body s x) as [s1|e] eqn:Hb; simpl; [|done].
  rewrite (Hmono _ _ _ Hb). simpl. apply IH.
Qed.

(** An invariant over the elements already visited, for a loop whose body
    cannot fault while the invariant holds. *)
Lemma forOf_total (I : list A → St → Prop) body xs s :
  I [] s →
  (∀ seen x s1, I seen s1 → x ∈ xs →
     ∃ s2, body s1 x = Ok s2 ∧ I (seen ++ [x]) s2) →
  ∃ s', forOf body xs s = Ok s' ∧ I xs s'.
Proof.
  intros H0 Hstep.
  cut (∀ seen rest s1, seen ++ rest = xs → I seen s1 →
         ∃ s', forOf body rest s1 = Ok s' ∧ I xs s').
  { intros Hcut. by apply (Hcut [] xs s). }
  intros seen rest. revert seen.
  induction rest as [|x rest IH]; intros seen s1 Heq HI; simpl.
  - rewrite app_nil_r in Heq. subst. eauto.
  - destruct (Hstep seen x s1 HI) as (s2 & -> & HI2).
    { subst xs. apply elem_of_app. right. by left. }
    simpl. apply (IH (seen ++ [x])); [|done].
    by rewrite <-app_assoc.
Qed.

(** The same for a loop that is known to have returned. *)
Lemma forOf_inv (I : list A → St → Prop) body xs s s' :
  forOf body xs s = Ok s' →
  I [] s →
  (∀ seen x s1 s2, I seen s1 → x ∈ xs → body s1 x = Ok s2 →
     I (seen ++ [x]) s2) →
  I xs s'.
Proof.
  intros Hrun H0 Hstep.
  cut (∀ seen rest s1, seen ++ rest = xs → I seen s1 →
         forOf body rest s1 = Ok s' → I xs s').
  { intros Hcut. by apply (Hcut [] xs s). }
  intros seen rest. revert seen.
  induction rest as [|x rest IH]; intros seen s1 Heq HI; simpl.
  - rewrite app_nil_r in Heq. subst. by intros [= <-].
  - destruct (body s1 x) as [s2|e] eqn:Hb; simpl; [|done].
    apply (IH (seen ++ [x])); [by rewrite <-app_assoc|].
    eapply Hstep; [done| |done].
    subst xs. apply elem_of_app. right. by left.
Qed.
End loops.

(** Two nested loops are one loop over the pairs of indices. *)
Lemma forOf_nested {A B St} (body : A → St → B → Res St) xs ys (s : St) :
  forOf (λ acc x, forOf (body x) ys acc) xs s =
  forOf (λ acc xy, body xy.1 acc xy.2) (x ← xs; (λ y, (x, y)) <$> ys) s.
Proof.
  revert s. induction xs as [|x xs IH]; intros s; simpl; [done|].
  rewrite forOf_app.
  assert (∀ s0, forOf (body x) ys s0 =
                forOf (λ acc xy, body xy.1 acc xy.2) ((λ y, (x, y)) <$> ys) s0)
    as ->.
  { clear IH. induction ys as [|y ys IHy]; intros s0; simpl; [done|].
    destruct (body x s0 y); simpl; [apply IHy|done]. }
  destruct (forOf _ _ s); simpl; [apply IH|done].
Qed.

(** ** Counting the opponent's pieces *)

Section counting.
Context {A : Type} (Q : A → Prop) `{!∀ x, Decision (Q x)}.

Lemma count_insert (l : list A) i x old :
  l !! i = Some old →
  (length (filter Q (<[i := x]> l)) + (if decide (Q old) then 1 else 0) =
   length (filter Q l) + (if decide (Q x) then 1 else 0))%nat.
Proof.
  intros Hi. pose proof (lookup_lt_Some _ _ _ Hi) as Hlt.
  rewrite insert_take_drop by done.
  rewrite <-(take_drop_middle l i old Hi) at 3.
  rewrite !filter_app, !filter_cons, !length_app.
  destruct (decide (Q x)), (decide (Q old)); simpl; lia.
Qed.
End counting.

Lemma concat_insert {A} (b : list (list A)) i cells cells' :
  b !! i = Some cells →
  concat b = concat (take i b) ++ cells ++ concat (drop (S i) b) ∧
  concat (<[i := cells']> b) =
    concat (take i b) ++ cells' ++ concat (drop (S i) b).
Proof.
  intros Hi. pose proof (lookup_lt_Some _ _ _ Hi) as Hlt. split.
  - rewrite <-(take_drop_middle b i cells Hi) at 1.
    by rewrite concat_app, concat_cons.
  - rewrite insert_take_drop by done. by rewrite concat_app, concat_cons.
Qed.

Lemma opponents_writeCell t b r c v b' old :
  writeCell b r c v = Ok b' →
  cell b r c = Some old →
  (opponents t b' + Nat.b2n (isOpponent t old) =
   opponents t b + Nat.b2n (isOpponent t v))%nat.
Proof.
  unfold writeCell, cell.
  destruct (zget b r) as [cells|] eqn:Hcells; [|done]. simpl.
  destruct (zget cells c) as [old'|] eqn:Hold; [|done].
  intros [= <-] [= ->].
  apply zget_Some in Hcells as [_ Hcells].
  apply zget_Some in Hold as [_ Hold].
  unfold opponents.
  destruct (concat_insert b _ cells (<[Z.to_nat c := v]> cells) Hcells)
    as [-> ->].
  rewrite !filter_app, !length_app.
  pose proof (count_insert (λ cell, isOpponent t cell = true)
                cells _ v old Hold) as Hc.
  cbv beta in Hc.
  destruct (isOpponent t old), (isOpponent t v); simpl in *;
    repeat case_decide; try done; lia.
Qed.

(** ** One jump *)

Lemma bind_Ok {A B} (m : Res A) (f : A → Res B) y :
  m ≫= f = Ok y ↔ ∃ x, m = Ok x ∧ f x = Ok y.
Proof.
  destruct m as [x|e]; simpl; [|split; [done|by intros (? & ? & ?)]].
  split; [by exists x|]. by intros (? & [= <-] & ?).
Qed.

Lemma offBoard_false p : offBoard p = false ↔ inGrid p.
Proof.
  unfold offBoard, inGrid. rewrite !Z.geb_leb.
  destruct (Z.ltb_spec (row p) 0), (Z.leb_spec 8 (row p)),
    (Z.ltb_spec (col p) 0), (Z.leb_spec 8 (col p)); simpl;
    split; (done || lia).
Qed.

Lemma onBoard_true p : onBoard p = true ↔ inGrid p.
Proof.
  unfold onBoard, inGrid. rewrite !Z.geb_leb.
  destruct (Z.leb_spec 0 (row p)), (Z.ltb_spec (row p) 8),
    (Z.leb_spec 0 (col p)), (Z.ltb_spec (col p) 8); simpl;
    split; (done || lia).
Qed.

Lemma wfBoard_cellAt b p : wfBoard b → inGrid p → is_Some (cellAt b p).
Proof. intros ? [??]. by apply wfBoard_cell. Qed.

Lemma cellAt_inGrid b p : wfBoard b → is_Some (cellAt b p) → inGrid p.
Proof. intros Hwf Hp. by apply cell_inGrid in Hp. Qed.

Lemma jumpAt_Some b pos piece d e l :
  jumpAt b pos piece d = Ok (Some (e, l)) →
  e = enemyOf pos d ∧ l = landingOf pos d ∧ inGrid l ∧
  (∃ ep, cellAt b e = Some (Some ep) ∧ color ep ≠ color piece) ∧
  cellAt b l = Some None.
Proof.
  unfold jumpAt.
  destruct (offBoard _) eqn:Hoff; [done|]. apply offBoard_false in Hoff.
  destruct (onBoard _) eqn:Hon; simpl; [|done].
  destruct (readCell b (row pos + d.1) _) as [[| |ep]|] eqn:He;
    simpl; try done.
  case_decide as Hcol; [done|].
  destruct (readCell b (row pos + 2 * d.1) _) as [[| |lp]|] eqn:Hl;
    simpl; try done.
  intros [= <- <-].
  apply readCell_Obj in He. apply readCell_Null in Hl.
  unfold enemyOf, landingOf. eauto 10.
Qed.

Lemma jumpAt_wf b pos piece d :
  wfBoard b → ∃ j, jumpAt b pos piece d = Ok j.
Proof.
  intros Hwf. unfold jumpAt.
  destruct (offBoard _) eqn:Hoff; [eauto|]. apply offBoard_false in Hoff.
  destruct (onBoard _) eqn:Hon; simpl; [|eauto].
  apply onBoard_true in Hon.
  destruct (readCell_wf b (row pos + d.1) (col pos + d.2) Hwf)
    as (x & _ & ->); [apply Hon..|].
  destruct x as [ep|]; simpl; [|eauto].
  case_decide; [eauto|].
  destruct (readCell_wf b (row pos + 2 * d.1) (col pos + 2 * d.2) Hwf)
    as (y & _ & ->); [apply Hoff..|].
  destruct y; simpl; eauto.
Qed.

Lemma pos_eq_dec_rc (p q : Position) :
  (row q = row p ∧ col q = col p) ↔ q = p.
Proof. destruct p, q; simpl; split; [by intros [-> ->]|by intros [= -> ->]]. Qed.

Lemma cellAt_writeCell b p v b' q :
  writeCell b (row p) (col p) v = Ok b' →
  cellAt b' q = if decide (q = p) then Some v else cellAt b q.
Proof.
  intros Hw. unfold cellAt. rewrite (cell_writeCell _ _ _ _ _ _ _ Hw).
  destruct (decide (q = p)) as [->|Hne].
  - by rewrite decide_True.
  - rewrite decide_False; [done|]. by rewrite pos_eq_dec_rc.
Qed.

(** The simulated board: what each square holds after one jump. *)
Lemma simulateJump_cellAt b pos piece e l b' q :
  simulateJump b pos piece e l = Ok b' →
  cellAt b' q =
    if decide (q = pos) then Some None
    else if decide (q = l) then Some (Some piece)
    else if decide (q = e) then Some None
    else cellAt b q.
Proof.
  unfold simulateJump. rewrite cloneBoard_id.
  intros (b1 & H1 & (b2 & H2 & H3)%bind_Ok)%bind_Ok.
  rewrite (cellAt_writeCell _ _ _ _ _ H3).
  rewrite (cellAt_writeCell _ _ _ _ _ H2).
  by rewrite (cellAt_writeCell _ _ _ _ _ H1).
Qed.

Lemma simulateJump_wf b pos piece e l b' :
  simulateJump b pos piece e l = Ok b' → wfBoard b → wfBoard b'.
Proof.
  unfold simulateJump. rewrite cloneBoard_id.
  intros (b1 & H1 & (b2 & H2 & H3)%bind_Ok)%bind_Ok Hwf.
  eauto using writeCell_wf.
Qed.

Lemma simulateJump_Ok b pos piece e l :
  is_Some (cellAt b pos) → is_Some (cellAt b e) → is_Some (cellAt b l) →
  ∃ b', simulateJump b pos piece e l = Ok b'.
Proof.
  intros Hp He Hl. unfold simulateJump. rewrite cloneBoard_id.
  destruct (writeCell_Ok b _ _ None He) as [b1 H1]. rewrite H1. simpl.
  destruct (writeCell_Ok b1 (row l) (col l) (Some piece)) as [b2 H2].
  { fold (cellAt b1 l). rewrite (cellAt_writeCell _ _ _ _ _ H1).
    case_decide; eauto. }
  rewrite H2. simpl. apply writeCell_Ok.
  fold (cellAt b2 pos). rewrite (cellAt_writeCell _ _ _ _ _ H2).
  case_decide; [eauto|].
  rewrite (cellAt_writeCell _ _ _ _ _ H1). case_decide; eauto.
Qed.

(** A jump takes one of the opponent's pieces off the board. *)
Lemma simulateJump_opponents b pos piece e l b' ep :
  simulateJump b pos piece e l = Ok b' →
  cellAt b e = Some (Some ep) → color ep ≠ color piece →
  cellAt b l = Some None →
  (opponents (color piece) b' < opponents (color piece) b)%nat.
Proof.
  unfold simulateJump. rewrite cloneBoard_id.
  intros (b1 & H1 & (b2 & H2 & H3)%bind_Ok)%bind_Ok He Hcol Hl.
  pose proof (opponents_writeCell (color piece) _ _ _ _ _ _ H1 He) as E1.
  assert (cellAt b1 l = Some None) as Hl1.
  { rewrite (cellAt_writeCell _ _ _ _ _ H1). by case_decide. }
  pose proof (opponents_writeCell (color piece) _ _ _ _ _ _ H2 Hl1) as E2.
  destruct (writeCell_is_Some _ _ _ _ _ H3) as [old Hold].
  pose proof (opponents_writeCell (color piece) _ _ _ _ _ _ H3 Hold) as E3.
  simpl in E1, E2, E3.
  rewrite bool_decide_true in E1 by done.
  rewrite bool_decide_false in E2 by naive_solver.
  simpl in *. lia.
Qed.

(** ** Capture chains *)

Lemma extend_nil m : extend m [] [] = m.
Proof. destruct m. unfold extend. simpl. by rewrite !app_nil_r. Qed.

Lemma extend_snoc pos cur l e ps cs :
  extend (startMove l (Some (extend (startMove pos cur) [l] [e]))) ps cs =
  extend (startMove pos cur) (l :: ps) (e :: cs).
Proof. unfold extend. simpl. by rewrite <-!app_assoc. Qed.

Lemma length_pos_nonempty {A} (l : list A) :
  (0 <? length l)%nat = true ↔ l ≠ [].
Proof. destruct l; simpl; naive_solver. Qed.

Lemma chain_length piece b pos ps cs b' pos' :
  chain piece b pos ps cs b' pos' → length ps = length cs.
Proof. induction 1; simpl; congruence. Qed.

Lemma chain_last piece b pos ps cs b' pos' :
  chain piece b pos ps cs b' pos' → last (pos :: ps) = Some pos'.
Proof.
  induction 1 as [|b pos d e l b1 ps cs b' pos' _ _ _ _ IH]; [done|].
  by rewrite last_cons_cons.
Qed.

Lemma chain_wf piece b pos ps cs b' pos' :
  chain piece b pos ps cs b' pos' →
  wfBoard b → inGrid pos → wfBoard b' ∧ inGrid pos'.
Proof.
  induction 1 as [|b pos d e l b1 ps cs b' pos' _ Hj Hs _ IH]; [done|].
  intros Hwf Hpos. apply IH.
  - by eapply simulateJump_wf.
  - by apply jumpAt_Some in Hj as (_ & _ & ? & _).
Qed.

(** A chain fixes the boards it passes through. *)
Lemma chain_det piece b pos ps cs b1 p1 b2 p2 :
  chain piece b pos ps cs b1 p1 → chain piece b pos ps cs b2 p2 →
  b1 = b2 ∧ p1 = p2.
Proof.
  intros H1. revert b2 p2.
  induction H1 as [|b pos d e l bm ps cs b' pos' _ _ Hs _ IH];
    intros b2 p2 H2; inversion H2; simplify_eq; [done|].
  apply IH. by replace bm with b1 by congruence.
Qed.

Lemma chain_app_inv piece b pos ps cs ps' cs' b' pos' :
  chain piece b pos (ps ++ ps') (cs ++ cs') b' pos' →
  length ps = length cs →
  ∃ bm pm, chain piece b pos ps cs bm pm ∧ chain piece bm pm ps' cs' b' pos'.
Proof.
  revert b pos cs. induction ps as [|l ps IH]; intros b pos [|e cs] H Hlen;
    simplify_eq/=.
  - eauto using chain_nil.
  - inversion H; simplify_eq.
    edestruct IH as (bm & pm & ? & ?); [done..|].
    eauto using chain_step.
Qed.

(** ** The rules, read on the board *)

Lemma moveDir_getDirections piece d :
  d ∈ getDirections piece ↔ moveDir piece d.
Proof.
  unfold getDirections, moveDir. destruct piece as [c t], d as [d1 d2].
  destruct t, c; simpl; rewrite !elem_of_cons, elem_of_nil;
    (split; [intros Hd; repeat destruct Hd as [Hd|Hd]; simplify_eq; lia|]);
    intros [[?|?] Hr]; try destruct Hr; subst; auto 10.
Qed.

Lemma moveDir_diagonals piece d : moveDir piece d → d ∈ diagonals.
Proof.
  unfold moveDir, diagonals. destruct d as [d1 d2]. simpl.
  rewrite !elem_of_cons, elem_of_nil.
  intros [[?|?] Hr]; destruct (type piece), (color piece);
    try destruct Hr; subst; auto 10.
Qed.

Global Instance moveDir_dec piece d : Decision (moveDir piece d).
Proof. unfold moveDir. destruct (type piece), (color piece); apply _. Defined.

Global Instance inGrid_dec p : Decision (inGrid p).
Proof. unfold inGrid. apply _. Defined.

Global Instance holdsEnemy_dec b turn q : Decision (holdsEnemy b turn q).
Proof.
  refine (match cellAt b q as x return cellAt b q = x → _ with
          | Some (Some ep) => λ E,
              cast_if (decide (color ep ≠ turn))
          | _ => λ E, right _
          end eq_refl); unfold holdsEnemy.
  - eauto.
  - intros (ep' & Hep & ?). by simplify_eq.
  - intros (ep' & Hep & ?). congruence.
  - intros (ep' & Hep & ?). congruence.
Defined.

Global Instance canJump_dec b pos piece d : Decision (canJump b pos piece d).
Proof. unfold canJump. apply _. Defined.

Global Instance canStep_dec b pos piece d : Decision (canStep b pos piece d).
Proof. unfold canStep. apply _. Defined.

Global Instance ownPiece_dec b turn pos piece :
  Decision (ownPiece b turn pos piece).
Proof. unfold ownPiece. apply _. Defined.

(** A decidable fact about a given board, by evaluation. *)
Ltac by_evaluation := apply (bool_decide_unpack _); vm_compute; exact I.

Lemma noJump_diagonals piece b pos :
  noJump piece b pos ↔ Forall (λ d, ¬ canJump b pos piece d) diagonals.
Proof.
  rewrite Forall_forall. split; [by intros H d _|].
  intros H d Hj. apply (H d); [|done]. eapply moveDir_diagonals, Hj.
Qed.

Lemma noStep_diagonals piece b pos :
  noStep piece b pos ↔ Forall (λ d, ¬ canStep b pos piece d) diagonals.
Proof.
  rewrite Forall_forall. split; [by intros H d _|].
  intros H d Hj. apply (H d); [|done]. eapply moveDir_diagonals, Hj.
Qed.

Global Instance noJump_dec piece b pos : Decision (noJump piece b pos).
Proof.
  refine (cast_if (decide (Forall (λ d, ¬ canJump b pos piece d) diagonals)));
    by rewrite noJump_diagonals.
Defined.

Global Instance noStep_dec piece b pos : Decision (noStep piece b pos).
Proof.
  refine (cast_if (decide (Forall (λ d, ¬ canStep b pos piece d) diagonals)));
    by rewrite noStep_diagonals.
Defined.

(** *** Cells of a board of any shape *)

Lemma cellAt_mapCells f b q :
  cellAt (mapCells f b) q = f q <$> cellAt b q.
Proof.
  unfold cellAt, cell, mapCells, zget. destruct q as [r c]. simpl.
  destruct (decide (0 ≤ r)) as [Hr|]; [|done].
  rewrite list_lookup_imap. destruct (b !! Z.to_nat r) as [cells|]; [|done].
  simpl. destruct (decide (0 ≤ c)) as [Hc|]; [|done].
  rewrite list_lookup_imap. by rewrite !Z2Nat.id by done.
Qed.

Lemma shape_mapCells f b : shape (mapCells f b) = shape b.
Proof.
  unfold shape, mapCells. apply list_eq. intros i.
  rewrite !list_lookup_fmap, list_lookup_imap.
  destruct (b !! i); [|done]. simpl. by rewrite length_imap.
Qed.

Lemma shape_writeCell b r c v b' :
  writeCell b r c v = Ok b' → shape b' = shape b.
Proof.
  unfold writeCell. destruct (zget b r) as [cells|] eqn:Hr; [|done].
  destruct (zget cells c) as [x|]; [|done]. intros [= <-].
  apply zget_Some in Hr as [_ Hr]. unfold shape.
  rewrite list_fmap_insert, length_insert.
  apply list_insert_id. by rewrite list_lookup_fmap, Hr.
Qed.

Lemma board_ext_shape b1 b2 :
  shape b1 = shape b2 → (∀ q, cellAt b1 q = cellAt b2 q) → b1 = b2.
Proof.
  intros Hshape Hq. apply list_eq. intros i.
  pose proof (f_equal (λ s, s !! i) Hshape) as Hi. simpl in Hi.
  unfold shape in Hi. rewrite !list_lookup_fmap in Hi.
  destruct (b1 !! i) as [r1|] eqn:E1, (b2 !! i) as [r2|] eqn:E2;
    simplify_eq/=; [|done]. f_equal.
  apply list_eq. intros j.
  specialize (Hq (mkPos (Z.of_nat i) (Z.of_nat j))).
  unfold cellAt, cell, zget in Hq. simpl in Hq.
  rewrite !decide_True, !Nat2Z.id in Hq by lia.
  rewrite E1, E2 in Hq. simpl in Hq.
  by rewrite !decide_True in Hq by lia.
Qed.

Lemma shape_simulateJump b pos piece e l b' :
  simulateJump b pos piece e l = Ok b' → shape b' = shape b.
Proof.
  unfold simulateJump. rewrite cloneBoard_id.
  intros (b1 & H1 & (b2 & H2 & H3)%bind_Ok)%bind_Ok.
  rewrite (shape_writeCell _ _ _ _ _ H3), (shape_writeCell _ _ _ _ _ H2).
  by apply shape_writeCell in H1.
Qed.

Lemma shape_length b b' : shape b' = shape b → length b' = length b.
Proof.
  unfold shape. intros H. apply (f_equal length) in H.
  by rewrite !length_fmap in H.
Qed.

Lemma simulateJump_rows b pos piece e l b' :
  simulateJump b pos piece e l = Ok b' → length b' = length b.
Proof. intros Hs. eapply shape_length, shape_simulateJump, Hs. Qed.

Lemma simulateJump_landing b pos piece e l b' :
  simulateJump b pos piece e l = Ok b' → is_Some (cellAt b' l).
Proof.
  intros Hs. rewrite (simulateJump_cellAt _ _ _ _ _ _ _ Hs).
  repeat case_decide; done || eauto.
Qed.

(** The simulation of a jump builds the board after the jump. *)
Lemma simulateJump_afterJump b pos piece d b' :
  simulateJump b pos piece (enemyOf pos d) (landingOf pos d) = Ok b' →
  b' = afterJump b pos piece d.
Proof.
  intros Hs. apply board_ext_shape.
  { unfold afterJump. by rewrite shape_mapCells, (shape_simulateJump _ _ _ _ _ _ Hs). }
  intros q. unfold afterJump. rewrite cellAt_mapCells.
  rewrite (simulateJump_cellAt _ _ _ _ _ _ _ Hs).
  assert (∀ q', q' = pos ∨ q' = landingOf pos d ∨ q' = enemyOf pos d →
                is_Some (cellAt b q')) as Hex.
  { revert Hs. unfold simulateJump. rewrite cloneBoard_id.
    intros (b1 & H1 & (b2 & H2 & H3)%bind_Ok)%bind_Ok q' Hq'.
    pose proof (writeCell_is_Some _ _ _ _ _ H1) as E1.
    pose proof (writeCell_is_Some _ _ _ _ _ H2) as E2.
    pose proof (writeCell_is_Some _ _ _ _ _ H3) as E3.
    change (is_Some (cellAt b (enemyOf pos d))) in E1.
    change (is_Some (cellAt b1 (landingOf pos d))) in E2.
    change (is_Some (cellAt b2 pos)) in E3.
    rewrite (cellAt_writeCell _ _ _ _ _ H2) in E3.
    rewrite (cellAt_writeCell _ _ _ _ _ H1) in E3.
    rewrite (cellAt_writeCell _ _ _ _ _ H1) in E2.
    destruct Hq' as [-> | [-> | ->]]; [| |done].
    - destruct (decide (pos = landingOf pos d)) as [Heq|_].
      + rewrite <-Heq in E2.
        destruct (decide (pos = enemyOf pos d)) as [Heq'|_]; [|done].
        by rewrite <-Heq' in E1.
      + destruct (decide (pos = enemyOf pos d)) as [Heq'|_]; [|done].
        by rewrite <-Heq' in E1.
    - destruct (decide (landingOf pos d = enemyOf pos d)) as [Heq'|_]; [|done].
      by rewrite Heq'. }
  destruct (decide (q = pos)) as [->|].
  { destruct (Hex pos) as [x ->]; [by left|done]. }
  destruct (decide (q = landingOf pos d)) as [->|].
  { destruct (Hex (landingOf pos d)) as [x ->]; [by right; left|done]. }
  destruct (decide (q = enemyOf pos d)) as [->|].
  { destruct (Hex (enemyOf pos d)) as [x ->]; [by right; right|done]. }
  by destruct (cellAt b q).
Qed.

(** A read inside the grid on a board with 8 rows or more. *)
Lemma readCell_rows b r c :
  (8 ≤ length b)%nat → 0 ≤ r < 8 →
  readCell b r c = Ok (match cell b r c with
                       | Some x => jsCell x
                       | None => Undefined
                       end).
Proof.
  intros Hlen Hr. unfold readCell, cell.
  destruct (zget_is_Some b r) as [_ [cells ->]]; [lia|]. simpl.
  by destruct (zget cells c) as [[?|]|].
Qed.

Lemma jumpAt_rows b pos piece d :
  (8 ≤ length b)%nat → ∃ j, jumpAt b pos piece d = Ok j.
Proof.
  intros Hlen. unfold jumpAt.
  destruct (offBoard _) eqn:Hoff; [eauto|]. apply offBoard_false in Hoff.
  destruct (onBoard _) eqn:Hon; simpl; [|eauto].
  apply onBoard_true in Hon.
  rewrite (readCell_rows b (row pos + d.1) (col pos + d.2) Hlen)
    by apply Hon.
  destruct (cell b (row pos + d.1) (col pos + d.2)) as [[ep|]|]; simpl;
    eauto.
  case_decide; [eauto|].
  rewrite (readCell_rows b (row pos + 2 * d.1) (col pos + 2 * d.2) Hlen)
    by apply Hoff.
  destruct (cell b (row pos + 2 * d.1) (col pos + 2 * d.2)) as [[?|]|];
    simpl; eauto.
Qed.

(** The guard of the capture search fires exactly when the jump is
    available on the board. *)
Lemma jumpAt_spec b pos piece d :
  (8 ≤ length b)%nat → d ∈ getDirections piece →
  jumpAt b pos piece d =
  Ok (if decide (canJump b pos piece d)
      then Some (enemyOf pos d, landingOf pos d) else None).
Proof.
  intros Hlen Hd%moveDir_getDirections. unfold jumpAt.
  fold (enemyOf pos d) (landingOf pos d).
  destruct (offBoard (landingOf pos d)) eqn:Hoff.
  { rewrite decide_False; [done|]. intros (_ & _ & Hl%offBoard_false & _).
    congruence. }
  apply offBoard_false in Hoff.
  destruct (onBoard (enemyOf pos d)) eqn:Hon.
  - apply onBoard_true in Hon.
    rewrite (readCell_rows b (row (enemyOf pos d)) (col (enemyOf pos d)) Hlen)
      by apply Hon.
    fold (cellAt b (enemyOf pos d)).
    destruct (cellAt b (enemyOf pos d)) as [[ep|]|] eqn:He; simpl;
      try (rewrite decide_False; [done|];
           intros (_ & _ & _ & (? & ? & _) & _); congruence).
    destruct (decide (color ep = color piece)) as [Hc|Hc].
    { rewrite decide_False; [done|].
      intros (_ & _ & _ & (? & ? & ?) & _). congruence. }
    rewrite (readCell_rows b (row pos + 2 * d.1) (col pos + 2 * d.2) Hlen)
      by apply Hoff.
    change (cell b _ _) with (cellAt b (landingOf pos d)).
    destruct (cellAt b (landingOf pos d)) as [[lp|]|] eqn:Hl; simpl;
      try (rewrite decide_False; [done|]; intros (_ & _ & _ & _ & ?); congruence).
    rewrite decide_True; [done|]. unfold canJump, holdsEnemy. eauto 10.
  - simpl. rewrite decide_False; [done|].
    intros (_ & He%onBoard_true & _). congruence.
Qed.

Lemma jumpAt_canJump b pos piece d e l :
  (8 ≤ length b)%nat → d ∈ getDirections piece →
  jumpAt b pos piece d = Ok (Some (e, l)) ↔
  canJump b pos piece d ∧ e = enemyOf pos d ∧ l = landingOf pos d.
Proof.
  intros Hlen Hd. rewrite (jumpAt_spec b pos piece d Hlen Hd).
  case_decide; split; try done; [by intros [= <- <-]|by intros (_ & -> & ->)|].
  by intros [? _].
Qed.

Lemma stuck_noJump piece b pos :
  (8 ≤ length b)%nat → stuck piece b pos ↔ noJump piece b pos.
Proof.
  intros Hlen. unfold stuck, noJump. split.
  - intros Hst d Hj. assert (d ∈ getDirections piece) as Hd.
    { apply moveDir_getDirections, Hj. }
    specialize (Hst d Hd). rewrite (jumpAt_spec b pos piece d Hlen Hd) in Hst.
    by rewrite decide_True in Hst.
  - intros Hno d Hd. rewrite (jumpAt_spec b pos piece d Hlen Hd).
    rewrite decide_False; [done|apply Hno].
Qed.

(** The chains of the capture search are the sequences of available
    jumps. *)
Lemma chain_jumps piece b pos ps cs b' pos' :
  (8 ≤ length b)%nat → is_Some (cellAt b pos) →
  chain piece b pos ps cs b' pos' ↔ jumps piece b pos ps cs b' pos'.
Proof.
  intros Hlen Hpos. split.
  - intros Hch. induction Hch as [|b pos d e l b1 ps cs b' pos' Hd Hj Hs _ IH];
      [constructor|].
    apply (jumpAt_canJump _ _ _ _ _ _ Hlen Hd) in Hj as (Hcan & -> & ->).
    pose proof (simulateJump_afterJump _ _ _ _ _ Hs) as ->.
    apply jumps_step; [done|]. apply IH.
    + by rewrite (shape_length _ _ (shape_simulateJump _ _ _ _ _ _ Hs)).
    + rewrite (simulateJump_cellAt _ _ _ _ _ _ _ Hs).
      repeat case_decide; done || eauto.
  - intros Hj. induction Hj as [|b pos d ps cs b' pos' Hcan _ IH];
      [constructor|].
    assert (d ∈ getDirections piece) as Hd by apply moveDir_getDirections, Hcan.
    destruct (simulateJump_Ok b pos piece (enemyOf pos d) (landingOf pos d))
      as [b1 Hs]; [done|..].
    { destruct Hcan as (_ & _ & _ & (ep & -> & _) & _). eauto. }
    { destruct Hcan as (_ & _ & _ & _ & ->). eauto. }
    pose proof (simulateJump_afterJump _ _ _ _ _ Hs) as Hb1.
    eapply chain_step; [done| |done|].
    + apply jumpAt_canJump; done.
    + rewrite Hb1. apply IH.
      * rewrite <-Hb1.
        by rewrite (shape_length _ _ (shape_simulateJump _ _ _ _ _ _ Hs)).
      * rewrite <-Hb1, (simulateJump_cellAt _ _ _ _ _ _ _ Hs).
        repeat case_decide; done || eauto.
Qed.

Lemma wfBoard_rows b : wfBoard b → (8 ≤ length b)%nat.
Proof. intros [-> _]. done. Qed.

Lemma jumps_wf piece b pos ps cs b' pos' :
  jumps piece b pos ps cs b' pos' → wfBoard b → inGrid pos →
  wfBoard b' ∧ inGrid pos'.
Proof.
  intros Hj Hwf Hpos. eapply chain_wf; [|done..].
  apply chain_jumps; [by apply wfBoard_rows|by apply wfBoard_cellAt|done].
Qed.

(** *** The recursive search *)

Section search.
Implicit Types (b : Board) (pos : Position) (piece : Piece)
  (cur : option CheckersMove) (ms : list CheckersMove).

Lemma getCapturesFuel_S fuel' b pos piece cur :
  getCapturesFuel (S fuel') b pos piece cur =
  (st ← forOf (captureStep fuel' b pos piece (startMove pos cur))
              (getDirections piece) ([], false);
   if negb st.2 && (0 <? length (captures (startMove pos cur)))%nat
   then Ok [startMove pos cur]
   else Ok st.1).
Proof.
  simpl.
  rewrite (forOf_ext _ (captureStep fuel' b pos piece (startMove pos cur)))
    by (by intros [??] ?).
  destruct (forOf _ _ _) as [[moves found]|]; done.
Qed.

Lemma captureStep_found fuel' b pos piece m0 moves found d moves' found' :
  captureStep fuel' b pos piece m0 (moves, found) d = Ok (moves', found') →
  (found = true → moves ≠ []) → (found' = true → moves' ≠ []).
Proof.
  unfold captureStep. intros (j & Hj & Hk)%bind_Ok Hinv.
  destruct j as [[e l]|]; [|by simplify_eq].
  apply bind_Ok in Hk as (nb & _ & (fc & _ & Hk)%bind_Ok).
  destruct (0 <? length fc)%nat eqn:Hfc; simplify_eq; intros _.
  - apply length_pos_nonempty in Hfc. by destruct moves, fc.
  - by destruct moves.
Qed.

(** A call that continues a chain never returns the empty list. *)
Lemma getCapturesFuel_nonempty fuel b pos piece cm ms :
  getCapturesFuel fuel b pos piece (Some cm) = Ok ms →
  captures cm ≠ [] → ms ≠ [].
Proof.
  destruct fuel as [|fuel']; [done|]. rewrite getCapturesFuel_S.
  intros ([moves found] & Hloop & Hret)%bind_Ok Hcm. simpl in Hret.
  assert (found = true → moves ≠ []) as Hinv.
  { apply (forOf_inv (λ _ st, st.2 = true → st.1 ≠ []) _ _ _ _ Hloop);
      [done|].
    intros _ d [m1 f1] [m2 f2] H1 _ Hb. simpl in *.
    by eapply captureStep_found. }
  apply length_pos_nonempty in Hcm.
  destruct found; simpl in *.
  - simplify_eq. by apply Hinv.
  - rewrite Hcm in Hret. by simplify_eq.
Qed.

(** Every returned move is a chain that cannot be extended. *)
Lemma getCapturesFuel_sound fuel : ∀ b pos piece cur ms m,
  getCapturesFuel fuel b pos piece cur = Ok ms → m ∈ ms →
  ∃ ps cs b' pos',
    chain piece b pos ps cs b' pos' ∧ stuck piece b' pos' ∧
    m = extend (startMove pos cur) ps cs ∧
    (ps = [] → captures (startMove pos cur) ≠ []).
Proof.
  induction fuel as [|fuel' IH]; intros b pos piece cur ms m; [done|].
  rewrite getCapturesFuel_S.
  intros ([moves found] & Hloop & Hret)%bind_Ok Hm. simpl in Hret.
  set (m0 := startMove pos cur) in *.
  pose (I := λ (seen : list (Z * Z)) (st : list CheckersMove * bool),
    (∀ m, m ∈ st.1 →
       ∃ ps cs b' pos',
         chain piece b pos ps cs b' pos' ∧ stuck piece b' pos' ∧
         m = extend m0 ps cs ∧ ps ≠ []) ∧
    (st.2 = false →
       st.1 = [] ∧ ∀ d, d ∈ seen → jumpAt b pos piece d = Ok None)).
  assert (I (getDirections piece) (moves, found)) as [Hmoves Hnone].
  { apply (forOf_inv I _ _ _ _ Hloop).
    - split; [by intros ? ?%elem_of_nil|].
      intros _. split; [done|]. by intros ? ?%elem_of_nil.
    - intros seen d [m1 f1] [m2 f2] [H1 H2] Hd Hb. simpl in H1, H2.
      unfold captureStep in Hb.
      apply bind_Ok in Hb as (j & Hj & Hk).
      destruct j as [[e l]|].
      + apply bind_Ok in Hk as (nb & Hnb & (fc & Hfc & Hk)%bind_Ok).
        assert (fc ≠ []) as Hne.
        { eapply getCapturesFuel_nonempty; [done|]. simpl. by destruct (captures m0). }
        apply length_pos_nonempty in Hne. rewrite Hne in Hk. simplify_eq.
        split; [|done]. simpl. intros m' [Hin|Hin]%elem_of_app; [by apply H1|].
        destruct (IH _ _ _ _ _ _ Hfc Hin) as (ps & cs & b' & pos' & Hch & Hst & -> & _).
        exists (l :: ps), (e :: cs), b', pos'.
        split; [by eapply chain_step|]. split; [done|].
        split; [|done]. apply (extend_snoc pos cur).
      + simplify_eq. split; [done|]. simpl. intros Hf.
        destruct (H2 Hf) as [-> Hseen]. split; [done|].
        intros d' [?| ->%list_elem_of_singleton]%elem_of_app; eauto. }
  destruct found; simpl in *.
  - simplify_eq. destruct (Hmoves _ Hm) as (ps & cs & b' & pos' & ? & ? & ? & ?).
    exists ps, cs, b', pos'. split; [done|]. split; [done|]. by split.
  - destruct (Hnone eq_refl) as [-> Hstuck].
    destruct (0 <? length (captures m0))%nat eqn:Hc; simplify_eq.
    + apply list_elem_of_singleton in Hm as ->.
      exists [], [], b, pos. split; [constructor|]. split; [done|].
      split; [by rewrite extend_nil|]. intros _. by apply length_pos_nonempty.
    + by apply elem_of_nil in Hm.
Qed.

(** What one iteration does on a board with 8 rows or more: it returns,
    and when the jump is available the recursive call runs on a board of
    the same shape with fewer opposing pieces. *)
Lemma captureStep_total fuel' b pos piece m0 moves found d :
  (8 ≤ length b)%nat → is_Some (cellAt b pos) →
  (opponents (color piece) b ≤ fuel')%nat →
  (∀ b1 l cm, (8 ≤ length b1)%nat → is_Some (cellAt b1 l) →
     (opponents (color piece) b1 < fuel')%nat →
     ∃ ms, getCapturesFuel fuel' b1 l piece cm = Ok ms) →
  ∃ moves' found',
    captureStep fuel' b pos piece m0 (moves, found) d = Ok (moves', found') ∧
    (jumpAt b pos piece d = Ok None → moves' = moves ∧ found' = found) ∧
    (∀ e l, jumpAt b pos piece d = Ok (Some (e, l)) →
       found' = true ∧
       ∃ b1 fc,
         simulateJump b pos piece e l = Ok b1 ∧
         getCapturesFuel fuel' b1 l piece
           (Some (extend m0 [l] [e])) = Ok fc ∧
         fc ≠ [] ∧ moves' = moves ++ fc).
Proof.
  intros Hlen Hpos Hfuel Hrec. unfold captureStep.
  destruct (jumpAt_rows b pos piece d Hlen) as [[[e l]|] Hj]; rewrite Hj;
    simpl.
  - destruct (jumpAt_Some _ _ _ _ _ _ Hj)
      as (He & Hl & Hlg & (ep & Hep & Hcol) & Hlc).
    destruct (simulateJump_Ok b pos piece e l) as [b1 Hb1];
      [done|by rewrite Hep|by rewrite Hlc|].
    rewrite Hb1. simpl.
    pose proof (simulateJump_opponents _ _ _ _ _ _ _ Hb1 Hep Hcol Hlc).
    destruct (Hrec b1 l (Some (extend m0 [l] [e]))) as [fc Hfc];
      [by rewrite (simulateJump_rows _ _ _ _ _ _ Hb1)
      |by eapply simulateJump_landing|lia|].
    unfold extend in Hfc. rewrite Hfc. simpl.
    assert (fc ≠ []) as Hne.
    { eapply getCapturesFuel_nonempty; [done|]. simpl.
      by destruct (captures m0). }
    pose proof Hne as Hne'. apply length_pos_nonempty in Hne'.
    rewrite Hne'. eexists _, _. split; [done|]. split; [done|].
    intros e' l' [= <- <-]. split; [done|]. eauto 10.
  - eexists _, _. split; [done|]. split; [done|]. done.
Qed.

(** The search returns on every board with 8 rows or more, from a square
    the board has, once the fuel exceeds the number of opposing pieces. *)
Lemma getCapturesFuel_total_rows fuel : ∀ b pos piece cur,
  (8 ≤ length b)%nat → is_Some (cellAt b pos) →
  (opponents (color piece) b < fuel)%nat →
  ∃ ms, getCapturesFuel fuel b pos piece cur = Ok ms.
Proof.
  induction fuel as [|fuel' IH]; intros b pos piece cur Hwf Hpos Hfuel;
    [lia|].
  rewrite getCapturesFuel_S.
  destruct (forOf_total (λ _ _, True)
              (captureStep fuel' b pos piece (startMove pos cur))
              (getDirections piece) ([], false)) as (st & -> & _); [done| |].
  - intros _ d [moves found] _ _.
    destruct (captureStep_total fuel' b pos piece (startMove pos cur)
                moves found d) as (m' & f' & -> & _); eauto with lia.
  - simpl. destruct (_ && _); eauto.
Qed.

Lemma getCapturesFuel_total fuel b pos piece cur :
  wfBoard b → inGrid pos →
  (opponents (color piece) b < fuel)%nat →
  ∃ ms, getCapturesFuel fuel b pos piece cur = Ok ms.
Proof.
  intros Hwf Hpos. apply getCapturesFuel_total_rows;
    [by apply wfBoard_rows|by apply wfBoard_cellAt].
Qed.

(** Every chain that cannot be extended is returned. *)
Lemma getCapturesFuel_complete_rows fuel : ∀ b pos piece cur ps cs b' pos',
  (8 ≤ length b)%nat → is_Some (cellAt b pos) →
  (opponents (color piece) b < fuel)%nat →
  chain piece b pos ps cs b' pos' → stuck piece b' pos' →
  (ps = [] → captures (startMove pos cur) ≠ []) →
  ∃ ms, getCapturesFuel fuel b pos piece cur = Ok ms ∧
        extend (startMove pos cur) ps cs ∈ ms.
Proof.
  induction fuel as [|fuel' IH];
    intros b pos piece cur ps cs b' pos' Hwf Hpos Hfuel Hch Hst Hne; [lia|].
  rewrite getCapturesFuel_S. set (m0 := startMove pos cur) in *.
  assert (∀ b1 l cm, (8 ≤ length b1)%nat → is_Some (cellAt b1 l) →
            (opponents (color piece) b1 < fuel')%nat →
            ∃ ms, getCapturesFuel fuel' b1 l piece cm = Ok ms) as Hrec.
  { intros. by apply getCapturesFuel_total_rows. }
  inversion Hch as [|? ? d e l b1 ps' cs' ? ? Hd Hj Hs Hch']; simplify_eq.
  - destruct (forOf_total (λ _ st, st = ([], false))
                (captureStep fuel' b' pos' piece m0)
                (getDirections piece) ([], false)) as (st & -> & ->);
      [done| |].
    + intros _ d ? -> Hd.
      destruct (captureStep_total fuel' b' pos' piece m0 [] false d)
        as (m' & f' & -> & Hnone & _); [done|done|lia|done|].
      destruct (Hnone (Hst d Hd)) as [-> ->]. eauto.
    + simpl. specialize (Hne eq_refl). apply length_pos_nonempty in Hne.
      rewrite Hne. eexists. split; [done|]. rewrite extend_nil.
      apply list_elem_of_singleton. done.
  - set (target := extend m0 (l :: ps') (e :: cs')).
    destruct (forOf_total
                (λ seen st, d ∈ seen → target ∈ st.1 ∧ st.2 = true)
                (captureStep fuel' b pos piece m0)
                (getDirections piece) ([], false))
      as ([moves found] & -> & Hfin); [by intros ?%elem_of_nil| |].
    + intros seen x [moves found] Hinv Hx.
      destruct (captureStep_total fuel' b pos piece m0 moves found x)
        as (m' & f' & Hstep & Hnone & Hsome); [done|done|lia|done|].
      exists (m', f'). split; [done|]. simpl.
      intros [Hseen| ->%list_elem_of_singleton]%elem_of_app.
      * destruct (Hinv Hseen) as [Hin Hf]. simpl in Hin, Hf.
        destruct (jumpAt_rows b pos piece x Hwf) as [[[e' l']|] Hjx].
        -- destruct (Hsome _ _ Hjx) as (-> & b2 & fc & _ & _ & _ & ->).
           split; [|done]. apply elem_of_app. by left.
        -- destruct (Hnone Hjx) as [-> ->]. done.
      * destruct (Hsome _ _ Hj) as (-> & b2 & fc & Hb2 & Hfc & _ & ->).
        split; [|done]. apply elem_of_app. right.
        assert (b2 = b1) as -> by congruence.
        destruct (jumpAt_Some _ _ _ _ _ _ Hj)
          as (_ & _ & Hlg & (ep & Hep & Hcol) & Hlc).
        pose proof (simulateJump_opponents _ _ _ _ _ _ _ Hs Hep Hcol Hlc).
        destruct (IH b1 l piece (Some (extend m0 [l] [e])) ps' cs' b' pos')
          as (fc' & Hfc' & Hin);
          [by rewrite (simulateJump_rows _ _ _ _ _ _ Hs)
          |by eapply simulateJump_landing|lia|done|done| |].
        { intros _. simpl. by destruct (captures m0). }
        assert (fc' = fc) as -> by congruence.
        unfold target, m0. by rewrite <-extend_snoc.
    + destruct (Hfin Hd) as [Hin Hf]. simpl in Hin, Hf. subst found.
      simpl. eauto.
Qed.

Lemma getCapturesFuel_complete fuel b pos piece cur ps cs b' pos' :
  wfBoard b → inGrid pos →
  (opponents (color piece) b < fuel)%nat →
  chain piece b pos ps cs b' pos' → stuck piece b' pos' →
  (ps = [] → captures (startMove pos cur) ≠ []) →
  ∃ ms, getCapturesFuel fuel b pos piece cur = Ok ms ∧
        extend (startMove pos cur) ps cs ∈ ms.
Proof.
  intros Hwf Hpos. apply getCapturesFuel_complete_rows;
    [by apply wfBoard_rows|by apply wfBoard_cellAt].
Qed.

(** More fuel changes nothing once the search has returned. *)
Lemma getCapturesFuel_mono fuel : ∀ fuel' b pos piece cur ms,
  (fuel ≤ fuel')%nat →
  getCapturesFuel fuel b pos piece cur = Ok ms →
  getCapturesFuel fuel' b pos piece cur = Ok ms.
Proof.
  induction fuel as [|fuel IH]; intros fuel' b pos piece cur ms Hle Hrun;
    [done|].
  destruct fuel' as [|fuel']; [lia|].
  rewrite getCapturesFuel_S in Hrun. rewrite getCapturesFuel_S.
  apply bind_Ok in Hrun as (st & Hloop & Hret).
  rewrite (forOf_Ok_mono _ _ _ _ _ Hloop); [done|].
  intros [moves found] d st'. unfold captureStep.
  intros (j & -> & Hk)%bind_Ok. simpl.
  destruct j as [[e l]|]; [|done].
  apply bind_Ok in Hk as (nb & -> & (fc & Hfc & Hk)%bind_Ok). simpl.
  by rewrite (IH fuel' _ _ _ _ _ ltac:(lia) Hfc).
Qed.

Lemma getCapturesForPiece_fuel b pos piece cur ms fuel :
  getCapturesForPiece b pos piece cur = Ok ms →
  (opponents (color piece) b < fuel)%nat →
  getCapturesFuel fuel b pos piece cur = Ok ms.
Proof.
  intros Hrun Hfuel. eapply getCapturesFuel_mono; [|done]. lia.
Qed.
End search.

(** *** The moves of one piece *)

(** The capture moves of a piece are exactly its non-empty chains that
    cannot be extended. *)
Lemma getCapturesForPiece_spec_rows b pos piece :
  (8 ≤ length b)%nat → is_Some (cellAt b pos) →
  ∃ ms, getCapturesForPiece b pos piece None = Ok ms ∧
    ∀ m, m ∈ ms ↔
      ∃ ps cs b' pos',
        chain piece b pos ps cs b' pos' ∧ stuck piece b' pos' ∧
        ps ≠ [] ∧ m = mkMove pos ps cs.
Proof.
  intros Hwf Hpos. unfold getCapturesForPiece.
  destruct (getCapturesFuel_total_rows (S (opponents (color piece) b))
              b pos piece None) as [ms Hms]; [done|done|lia|].
  exists ms. split; [done|]. intros m. split.
  - intros Hm.
    destruct (getCapturesFuel_sound _ _ _ _ _ _ _ Hms Hm)
      as (ps & cs & b' & pos' & Hch & Hst & -> & Hne).
    exists ps, cs, b', pos'. split; [done|]. split; [done|].
    split; [|done]. intros ->. by apply Hne.
  - intros (ps & cs & b' & pos' & Hch & Hst & Hne & ->).
    destruct (getCapturesFuel_complete_rows (S (opponents (color piece) b))
                b pos piece None ps cs b' pos') as (ms' & Hms' & Hin);
      [done|done|lia|done|done|done|].
    by replace ms with ms' by congruence.
Qed.

Lemma getCapturesForPiece_spec b pos piece :
  wfBoard b → inGrid pos →
  ∃ ms, getCapturesForPiece b pos piece None = Ok ms ∧
    ∀ m, m ∈ ms ↔
      ∃ ps cs b' pos',
        chain piece b pos ps cs b' pos' ∧ stuck piece b' pos' ∧
        ps ≠ [] ∧ m = mkMove pos ps cs.
Proof.
  intros Hwf Hpos. apply getCapturesForPiece_spec_rows;
    [by apply wfBoard_rows|by apply wfBoard_cellAt].
Qed.

(** The simple moves of a piece are its steps to an empty neighbour
    square of the board. *)
Lemma getSimpleMovesForPiece_spec_rows b pos piece :
  (8 ≤ length b)%nat →
  ∃ ms, getSimpleMovesForPiece b pos piece = Ok ms ∧
        ∀ m, m ∈ ms ↔ simpleStep b pos piece m.
Proof.
  intros Hwf. unfold getSimpleMovesForPiece.
  match goal with |- context [forOf ?f _ _] => set (body := f) end.
  destruct (forOf_total
    (λ seen ms, ∀ m, m ∈ ms ↔
       ∃ d, d ∈ seen ∧ inGrid (enemyOf pos d) ∧
            cellAt b (enemyOf pos d) = Some None ∧
            m = mkMove pos [enemyOf pos d] [])
    body (getDirections piece) []) as (ms & Hms & Hspec).
  - intros m. split; [by intros ?%elem_of_nil|].
    by intros (d & ?%elem_of_nil & _).
  - intros seen d ms Hinv Hd. unfold body.
    destruct (offBoard _) eqn:Hoff.
    + exists ms. split; [done|]. intros m. rewrite Hinv.
      split; [intros (d' & ? & ?); exists d'; rewrite elem_of_app; eauto|].
      intros (d' & [?| ->%list_elem_of_singleton]%elem_of_app & Hg & ?);
        [eauto|].
      apply offBoard_false in Hg. unfold enemyOf in Hg. congruence.
    + apply offBoard_false in Hoff. simpl.
      rewrite (readCell_rows b (row pos + d.1) (col pos + d.2) Hwf)
        by apply Hoff.
      destruct (cell b (row pos + d.1) (col pos + d.2)) as [[q|]|] eqn:Hx;
        simpl.
      * exists ms. split; [done|]. intros m. rewrite Hinv.
        split; [intros (d' & ? & ?); exists d'; rewrite elem_of_app; eauto|].
        intros (d' & [?| ->%list_elem_of_singleton]%elem_of_app & Hg & Hc & ?);
          [eauto|].
        unfold cellAt, enemyOf in Hc. simpl in Hc. congruence.
      * eexists. split; [done|]. intros m.
        rewrite elem_of_app, list_elem_of_singleton, Hinv. split.
        -- intros [(d' & ? & ?)| ->]; [exists d'; rewrite elem_of_app; eauto|].
           exists d. rewrite elem_of_app, list_elem_of_singleton. eauto.
        -- intros (d' & [?| ->%list_elem_of_singleton]%elem_of_app & ? & ? & ?);
             eauto 10.
      * exists ms. split; [done|]. intros m. rewrite Hinv.
        split; [intros (d' & ? & ?); exists d'; rewrite elem_of_app; eauto|].
        intros (d' & [?| ->%list_elem_of_singleton]%elem_of_app & Hg & Hc & ?);
          [eauto|].
        unfold cellAt, enemyOf in Hc. simpl in Hc. congruence.
  - exists ms. split; [done|]. intros m. rewrite Hspec. done.
Qed.

Lemma getSimpleMovesForPiece_spec b pos piece :
  wfBoard b →
  ∃ ms, getSimpleMovesForPiece b pos piece = Ok ms ∧
        ∀ m, m ∈ ms ↔ simpleStep b pos piece m.
Proof. intros Hwf. by apply getSimpleMovesForPiece_spec_rows, wfBoard_rows. Qed.

(** *** The scan of the board *)

Lemma squares_inGrid rc : rc ∈ squares → 0 ≤ rc.1 < 8 ∧ 0 ≤ rc.2 < 8.
Proof.
  unfold squares.
  intros (r & (c & -> & Hc%elem_of_seqZ)%list_elem_of_fmap & Hr%elem_of_seqZ)
    %list_elem_of_bind.
  simpl. lia.
Qed.

Lemma pieceAt_Some b turn rc pos p :
  pieceAt b turn rc = Some (pos, p) ↔
  pos = mkPos rc.1 rc.2 ∧ cellAt b pos = Some (Some p) ∧ color p = turn.
Proof.
  unfold pieceAt, cellAt. split.
  - destruct (cell b rc.1 rc.2) as [[q|]|] eqn:Hc; try done.
    case_decide; [|done]. intros [= <- <-]. done.
  - intros (-> & Hc & Hcol). simpl in Hc. rewrite Hc.
    by rewrite decide_True.
Qed.

Lemma piecesOf_elem b turn pos p :
  wfBoard b →
  (pos, p) ∈ piecesOf b turn ↔ cellAt b pos = Some (Some p) ∧ color p = turn.
Proof.
  intros Hwf. unfold piecesOf. rewrite list_elem_of_omap. split.
  - intros (rc & _ & (_ & ? & ?)%pieceAt_Some). done.
  - intros [Hc Hcol]. exists (row pos, col pos). split.
    + assert (inGrid pos) as [Hr Hcl] by (eapply cellAt_inGrid; eauto).
      unfold squares. apply list_elem_of_bind. exists (row pos).
      split; [|apply elem_of_seqZ; lia].
      apply list_elem_of_fmap. exists (col pos).
      split; [done|apply elem_of_seqZ; lia].
    + apply pieceAt_Some. by destruct pos.
Qed.

Lemma scanCell_spec b turn r c ac asim :
  (8 ≤ length b)%nat → 0 ≤ r < 8 → 0 ≤ c < 8 →
  match pieceAt b turn (r, c) with
  | Some (pos, p) =>
      ∃ cp sp,
        getCapturesForPiece b pos p None = Ok cp ∧
        getSimpleMovesForPiece b pos p = Ok sp ∧
        scanCell b turn r (ac, asim) c = Ok (ac ++ cp, asim ++ keptSimple cp sp)
  | None => scanCell b turn r (ac, asim) c = Ok (ac, asim)
  end.
Proof.
  intros Hwf Hr Hc.
  unfold pieceAt, scanCell. simpl. rewrite (readCell_rows b r c Hwf Hr).
  destruct (cell b r c) as [[p|]|] eqn:Hx; simpl; [|done..].
  case_decide as Hcol; [|done].
  destruct (getCapturesForPiece_spec_rows b (mkPos r c) p Hwf)
    as (cp & Hcp & _).
  { unfold cellAt. simpl. by rewrite Hx. }
  destruct (getSimpleMovesForPiece_spec_rows b (mkPos r c) p Hwf)
    as (sp & Hsp & _).
  exists cp, sp. rewrite Hcp. split; [done|]. split; [done|]. simpl.
  destruct cp as [|m cp]; simpl.
  - rewrite Hsp. simpl. by rewrite app_nil_r.
  - by rewrite app_nil_r.
Qed.

Lemma scan_spec b turn sq : ∀ acc,
  (8 ≤ length b)%nat → (∀ rc, rc ∈ sq → 0 ≤ rc.1 < 8 ∧ 0 ≤ rc.2 < 8) →
  ∃ caps simples,
    Forall2 (λ pp ms, getCapturesForPiece b pp.1 pp.2 None = Ok ms)
            (omap (pieceAt b turn) sq) caps ∧
    Forall2 (λ pp ms, getSimpleMovesForPiece b pp.1 pp.2 = Ok ms)
            (omap (pieceAt b turn) sq) simples ∧
    forOf (λ acc rc, scanCell b turn rc.1 acc rc.2) sq acc =
      Ok (acc.1 ++ concat caps,
          acc.2 ++ concat (zip_with keptSimple caps simples)).
Proof.
  induction sq as [|[r c] sq IH]; intros [ac asim] Hwf Hsq.
  - exists [], []. simpl. rewrite !app_nil_r. by repeat constructor.
  - assert (0 ≤ r < 8 ∧ 0 ≤ c < 8) as [Hr Hc].
    { apply (Hsq (r, c)). by left. }
    assert (∀ rc, rc ∈ sq → 0 ≤ rc.1 < 8 ∧ 0 ≤ rc.2 < 8) as Hsq'.
    { intros rc ?. apply Hsq. by right. }
    pose proof (scanCell_spec b turn r c ac asim Hwf Hr Hc) as Hcell.
    cbn [omap list_omap forOf fst snd].
    destruct (pieceAt b turn (r, c)) as [[pos p]|].
    + destruct Hcell as (cp & sp & Hcp & Hsp & ->). simpl.
      destruct (IH (ac ++ cp, asim ++ keptSimple cp sp) Hwf Hsq')
        as (caps & simples & H1 & H2 & ->).
      exists (cp :: caps), (sp :: simples). simpl.
      rewrite <-!app_assoc. by repeat constructor.
    + rewrite Hcell. simpl. apply (IH (ac, asim) Hwf Hsq').
Qed.

Lemma concat_nil_Forall {A} (ls : list (list A)) :
  concat ls = [] → Forall (λ l, l = []) ls.
Proof.
  induction ls as [|l ls IH]; simpl; [by constructor|].
  intros [-> ?]%app_eq_nil. constructor; eauto.
Qed.

Lemma keptSimple_all caps simples :
  length caps = length simples → concat caps = [] →
  concat (zip_with keptSimple caps simples) = concat simples.
Proof.
  revert simples. induction caps as [|c caps IH]; intros [|s simples];
    simpl; try done.
  intros [= Hlen] [-> Hnil]%app_eq_nil. simpl. f_equal. by apply IH.
Qed.

(** [getAllowedMovesForBoard] on a board with 8 rows or more: the capture
    lists and the simple-move lists of the pieces of [turn], in scan order,
    and the choice between their concatenations. *)
Lemma getAllowedMovesForBoard_spec_rows b turn :
  (8 ≤ length b)%nat →
  ∃ caps simples,
    Forall2 (λ pp ms, getCapturesForPiece b pp.1 pp.2 None = Ok ms)
            (piecesOf b turn) caps ∧
    Forall2 (λ pp ms, getSimpleMovesForPiece b pp.1 pp.2 = Ok ms)
            (piecesOf b turn) simples ∧
    getAllowedMovesForBoard b turn =
      Ok (if decide (concat caps = []) then concat simples else concat caps).
Proof.
  intros Hwf. unfold getAllowedMovesForBoard.
  rewrite (forOf_nested (scanCell b turn)). fold squares.
  destruct (scan_spec b turn squares ([], []) Hwf squares_inGrid)
    as (caps & simples & H1 & H2 & ->).
  exists caps, simples. split; [done|]. split; [done|]. simpl.
  destruct (concat caps) as [|m cs] eqn:Hcaps; simpl.
  - f_equal. apply keptSimple_all; [|done].
    apply Forall2_length in H1, H2. congruence.
  - done.
Qed.

Lemma getAllowedMovesForBoard_spec b turn :
  wfBoard b →
  ∃ caps simples,
    Forall2 (λ pp ms, getCapturesForPiece b pp.1 pp.2 None = Ok ms)
            (piecesOf b turn) caps ∧
    Forall2 (λ pp ms, getSimpleMovesForPiece b pp.1 pp.2 = Ok ms)
            (piecesOf b turn) simples ∧
    getAllowedMovesForBoard b turn =
      Ok (if decide (concat caps = []) then concat simples else concat caps).
Proof. intros Hwf. by apply getAllowedMovesForBoard_spec_rows, wfBoard_rows. Qed.

(** *** Membership in the generated list *)

Lemma concat_Forall2_elem {A B} (f : A → Res (list B)) xs yss y :
  Forall2 (λ x ys, f x = Ok ys) xs yss →
  y ∈ concat yss ↔ ∃ x ys, x ∈ xs ∧ f x = Ok ys ∧ y ∈ ys.
Proof.
  induction 1 as [|x ys xs yss Hx _ IH]; simpl.
  - split; [by intros ?%elem_of_nil|]. by intros (? & ? & ?%elem_of_nil & _).
  - rewrite elem_of_app, IH. split.
    + intros [?|(x' & ys' & ? & ? & ?)].
      * exists x, ys. split; [by left|done].
      * exists x', ys'. split; [by right|done].
    + intros (x' & ys' & [->|?]%elem_of_cons & Hf & ?).
      * left. congruence.
      * right. eauto.
Qed.

Lemma captures_elem b turn caps m :
  wfBoard b →
  Forall2 (λ pp ms, getCapturesForPiece b pp.1 pp.2 None = Ok ms)
          (piecesOf b turn) caps →
  m ∈ concat caps ↔ captureOf b turn m.
Proof.
  intros Hwf HF.
  rewrite (concat_Forall2_elem
             (λ pp, getCapturesForPiece b pp.1 pp.2 None) _ _ _ HF).
  split.
  - intros ([pos p] & ms & [Hc Hcol]%piecesOf_elem & Hms & Hm); [|done].
    simpl in Hms.
    destruct (getCapturesForPiece_spec b pos p Hwf) as (ms' & Hms' & Hspec).
    { eapply cellAt_inGrid; eauto. }
    replace ms' with ms in Hspec by congruence.
    apply Hspec in Hm as (ps & cs & b' & pos' & ? & ? & ? & ->).
    exists p, b', pos'. done.
  - intros (p & b' & pos' & Hc & Hcol & Hch & Hst & Hne).
    destruct (getCapturesForPiece_spec b (from m) p Hwf)
      as (ms & Hms & Hspec).
    { eapply cellAt_inGrid; eauto. }
    exists (from m, p), ms. split; [by apply piecesOf_elem|].
    split; [done|]. apply Hspec.
    exists (path m), (captures m), b', pos'. by destruct m.
Qed.

Lemma simples_elem b turn simples m :
  wfBoard b →
  Forall2 (λ pp ms, getSimpleMovesForPiece b pp.1 pp.2 = Ok ms)
          (piecesOf b turn) simples →
  m ∈ concat simples ↔ simpleOf b turn m.
Proof.
  intros Hwf HF.
  rewrite (concat_Forall2_elem
             (λ pp, getSimpleMovesForPiece b pp.1 pp.2) _ _ _ HF).
  split.
  - intros ([pos p] & ms & [Hc Hcol]%piecesOf_elem & Hms & Hm); [|done].
    simpl in Hms.
    destruct (getSimpleMovesForPiece_spec b pos p Hwf) as (ms' & Hms' & Hspec).
    replace ms' with ms in Hspec by congruence.
    apply Hspec in Hm. pose proof Hm as (d & _ & _ & _ & ->).
    exists p. done.
  - intros (p & Hc & Hcol & Hstep).
    destruct (getSimpleMovesForPiece_spec b (from m) p Hwf)
      as (ms & Hms & Hspec).
    exists (from m, p), ms. split; [by apply piecesOf_elem|].
    split; [done|]. by apply Hspec.
Qed.

Lemma captureOf_captures b turn m :
  captureOf b turn m →
  captures m ≠ [] ∧ length (path m) = length (captures m).
Proof.
  intros (p & b' & pos' & _ & _ & Hch%chain_length & _ & Hne).
  split; [|done]. destruct (path m), (captures m); done.
Qed.

Lemma simpleOf_captures b turn m :
  simpleOf b turn m → captures m = [] ∧ length (path m) = 1%nat.
Proof. intros (p & _ & _ & (d & _ & _ & _ & ->)). done. Qed.

(** The generator returns; the list holds the capture moves of [turn] when
    there is one, and its simple moves otherwise. *)
Lemma getAllowedMovesForBoard_elem b turn :
  wfBoard b →
  ∃ l, getAllowedMovesForBoard b turn = Ok l ∧
    (∀ m, m ∈ l ↔
       captureOf b turn m ∨
       ((∀ m', ¬ captureOf b turn m') ∧ simpleOf b turn m)).
Proof.
  intros Hwf.
  destruct (getAllowedMovesForBoard_spec b turn Hwf)
    as (caps & simples & Hc & Hs & ->).
  eexists. split; [done|]. intros m.
  pose proof (captures_elem b turn caps) as Hce.
  pose proof (simples_elem b turn simples m Hwf Hs) as Hse.
  case_decide as Hnil.
  - rewrite Hse. split.
    + intros Hm. right. split; [|done].
      intros m' Hm'%Hce; [|done..]. rewrite Hnil in Hm'.
      by apply elem_of_nil in Hm'.
    + intros [Hm%Hce|[_ ?]]; [|done..]. rewrite Hnil in Hm.
      by apply elem_of_nil in Hm.
  - rewrite Hce by done. split; [by left|].
    intros [?|[Hno _]]; [done|].
    destruct (concat caps) as [|m0 ?] eqn:E; [done|].
    destruct (Hno m0). apply (Hce m0); [done..|]. by left.
Qed.

(** ** Applying a move: what [updateBoard] builds *)

(** The piece [updateBoard] writes on the final square is the one
    [_promoteIfNeeded] computes. *)
Lemma updateBoard_newPiece piece r :
  (let newPiece := mkPiece (color piece) (type piece) in
   if decide (type newPiece = man) then
     if bool_decide (color newPiece = red) && (r =? 0)
     then mkPiece (color newPiece) king
     else if bool_decide (color newPiece = black) && (r =? 7)
     then mkPiece (color newPiece) king
     else newPiece
   else newPiece) = _promoteIfNeeded piece r.
Proof.
  unfold _promoteIfNeeded. destruct piece as [[] []]; simpl;
    destruct (r =? 0), (r =? 7); done.
Qed.

(** The loop over [move.captures]. *)
Lemma clearCaptures_spec caps : ∀ b,
  wfBoard b → Forall inGrid caps →
  ∃ b', forOf (λ nb cap, writeCell nb (row cap) (col cap) None) caps b = Ok b' ∧
        wfBoard b' ∧
        ∀ q, cellAt b' q = if decide (q ∈ caps) then Some None else cellAt b q.
Proof.
  induction caps as [|cap caps IH]; intros b Hwf Hcaps; simpl.
  - exists b. done.
  - apply Forall_cons in Hcaps as [Hcap Hcaps].
    destruct (writeCell_Ok b (row cap) (col cap) None) as [b1 H1].
    { by apply (wfBoard_cellAt b cap). }
    rewrite H1. simpl.
    destruct (IH b1) as (b' & -> & Hwf' & Hcells);
      [by eapply writeCell_wf|done|].
    exists b'. split; [done|]. split; [done|]. intros q.
    rewrite Hcells, (cellAt_writeCell _ _ _ _ _ H1).
    destruct (decide (q ∈ caps)) as [Hin|Hin].
    + rewrite decide_True; [done|]. by right.
    + destruct (decide (q = cap)) as [->|Hne].
      * rewrite decide_True; [done|]. by left.
      * rewrite decide_False; [done|]. by intros [?|?]%elem_of_cons.
Qed.

Lemma updateBoard_spec b m piece fin :
  wfBoard b →
  cellAt b (from m) = Some (Some piece) →
  Forall inGrid (captures m) →
  last (path m) = Some fin → inGrid fin →
  ∃ b', updateBoard b m = Ok b' ∧ wfBoard b' ∧
    ∀ q, cellAt b' q =
      if decide (q = fin) then Some (Some (_promoteIfNeeded piece (row fin)))
      else if decide (q ∈ captures m) then Some None
      else if decide (q = from m) then Some None
      else cellAt b q.
Proof.
  intros Hwf Hfrom Hcaps Hlast Hfin. unfold updateBoard.
  rewrite cloneBoard_id.
  rewrite (readCell_cell _ _ _ _ Hfrom). simpl.
  destruct (writeCell_Ok b (row (from m)) (col (from m)) None) as [b1 H1].
  { fold (cellAt b (from m)). by rewrite Hfrom. }
  rewrite H1. simpl.
  destruct (clearCaptures_spec (captures m) b1) as (b2 & -> & Hwf2 & Hc2);
    [by eapply writeCell_wf|done|].
  simpl. rewrite Hlast.
  pose proof (updateBoard_newPiece piece (row fin)) as Hnew. simpl in Hnew.
  rewrite Hnew.
  destruct (writeCell_Ok b2 (row fin) (col fin)
              (Some (_promoteIfNeeded piece (row fin)))) as [b3 H3].
  { by apply (wfBoard_cellAt b2 fin). }
  exists b3. split; [done|]. split; [by eapply writeCell_wf|].
  intros q. rewrite (cellAt_writeCell _ _ _ _ _ H3).
  destruct (decide (q = fin)); [done|]. rewrite Hc2.
  destruct (decide (q ∈ captures m)); [done|].
  by rewrite (cellAt_writeCell _ _ _ _ _ H1).
Qed.

Lemma getDirections_diagonal piece d :
  d ∈ getDirections piece → (d.1 = 1 ∨ d.1 = -1) ∧ (d.2 = 1 ∨ d.2 = -1).
Proof.
  unfold getDirections. repeat case_decide;
    rewrite !elem_of_cons, elem_of_nil; intros Hd;
    repeat (destruct Hd as [->|Hd]); simpl; (lia || done).
Qed.

Lemma landingOf_ne piece pos d :
  d ∈ getDirections piece → landingOf pos d ≠ pos.
Proof.
  intros [Hd _]%getDirections_diagonal. unfold landingOf.
  destruct pos as [r c]. intros [= ? ?]. lia.
Qed.

Lemma chain_inGrid piece b pos ps cs b' pos' :
  chain piece b pos ps cs b' pos' → wfBoard b →
  Forall inGrid ps ∧ Forall inGrid cs.
Proof.
  induction 1 as [|b pos d e l b1 ps cs b' pos' _ Hj Hs _ IH]; [done|].
  intros Hwf.
  destruct (jumpAt_Some _ _ _ _ _ _ Hj) as (_ & _ & Hl & (ep & Hep & _) & _).
  destruct IH as [??]; [by eapply simulateJump_wf|].
  split; constructor; try done.
  eapply cellAt_inGrid; [done|]. by rewrite Hep.
Qed.

(** Every chain keeps the piece value it started with on the square it
    has reached. *)
Lemma chain_piece piece b pos ps cs b' pos' :
  chain piece b pos ps cs b' pos' → ps ≠ [] →
  cellAt b' pos' = Some (Some piece).
Proof.
  induction 1 as [|b pos d e l b1 ps cs b' pos' Hd Hj Hs Hch IH]; [done|].
  intros _. destruct ps as [|l' ps].
  - inversion Hch; simplify_eq.
    rewrite (simulateJump_cellAt _ _ _ _ _ _ _ Hs).
    destruct (jumpAt_Some _ _ _ _ _ _ Hj) as (-> & -> & _).
    rewrite decide_False, decide_True; [done..|].
    by apply (landingOf_ne piece).
  - by apply IH.
Qed.

(** ** The generated list and the rules *)

(** A piece is stuck or has a jump. *)
Lemma stuck_or_jump piece b pos :
  (8 ≤ length b)%nat →
  stuck piece b pos ∨
  ∃ d e l, d ∈ getDirections piece ∧ jumpAt b pos piece d = Ok (Some (e, l)).
Proof.
  intros Hwf. unfold stuck.
  induction (getDirections piece) as [|d ds IH].
  { left. by intros d ?%elem_of_nil. }
  destruct (jumpAt_rows b pos piece d Hwf) as [[[e l]|] Hj].
  { right. exists d, e, l. split; [by left|done]. }
  destruct IH as [IH|(d' & e & l & Hd' & Hj')].
  - left. intros d' [-> | Hd']%elem_of_cons; [done|by apply IH].
  - right. exists d', e, l. split; [by right|done].
Qed.

(** Every position of a piece is the start of a chain that cannot be
    continued. *)
Lemma chain_maximal_exists piece n : ∀ b pos,
  (8 ≤ length b)%nat → is_Some (cellAt b pos) →
  (opponents (color piece) b ≤ n)%nat →
  ∃ ps cs b' pos', chain piece b pos ps cs b' pos' ∧ stuck piece b' pos'.
Proof.
  induction n as [|n IH]; intros b pos Hwf Hpos Hn;
    (destruct (stuck_or_jump piece b pos Hwf)
       as [Hst|(d & e & l & Hd & Hj)];
     [exists [], [], b, pos; split; [constructor|done]|]);
    destruct (jumpAt_Some _ _ _ _ _ _ Hj)
      as (_ & _ & Hl & (ep & Hep & Hc) & Hle);
    (destruct (simulateJump_Ok b pos piece e l) as [b1 Hs];
     [done|by rewrite Hep|by rewrite Hle|]);
    pose proof (simulateJump_opponents _ _ _ _ _ _ _ Hs Hep Hc Hle) as Hlt.
  - lia.
  - destruct (IH b1 l) as (ps & cs & b' & pos' & Hch & Hst);
      [by rewrite (simulateJump_rows _ _ _ _ _ _ Hs)
      |by eapply simulateJump_landing|lia|].
    exists (l :: ps), (e :: cs), b', pos'. split; [|done].
    by eapply chain_step.
Qed.

Lemma jumps_shape piece b pos ps cs b' pos' :
  jumps piece b pos ps cs b' pos' → shape b' = shape b.
Proof.
  induction 1 as [|b pos d ps cs b' pos' _ _ IH]; [done|].
  rewrite IH. unfold afterJump. apply shape_mapCells.
Qed.

Lemma jumps_is_Some piece b pos ps cs b' pos' :
  jumps piece b pos ps cs b' pos' →
  is_Some (cellAt b pos) → is_Some (cellAt b' pos').
Proof.
  induction 1 as [|b pos d ps cs b' pos' Hcan _ IH]; [done|].
  intros _. apply IH. unfold afterJump. rewrite cellAt_mapCells.
  destruct Hcan as (_ & _ & _ & _ & ->). simpl.
  repeat case_decide; done || eauto.
Qed.

(** The chains that cannot be extended are the sequences of available
    jumps after which none is available. *)
Lemma chain_stuck_jumps piece b pos ps cs :
  (8 ≤ length b)%nat → is_Some (cellAt b pos) →
  (∃ b' pos', chain piece b pos ps cs b' pos' ∧ stuck piece b' pos') ↔
  (∃ b' pos', jumps piece b pos ps cs b' pos' ∧ noJump piece b' pos').
Proof.
  intros Hlen Hpos.
  split; intros (b' & pos' & Hch & Hst); exists b', pos'.
  - apply chain_jumps in Hch; [|done..]. split; [done|].
    apply stuck_noJump; [|done].
    by rewrite (shape_length _ _ (jumps_shape _ _ _ _ _ _ _ Hch)).
  - split; [by apply chain_jumps|]. apply stuck_noJump; [|done].
    by rewrite (shape_length _ _ (jumps_shape _ _ _ _ _ _ _ Hch)).
Qed.

Lemma simpleStep_canStep b pos piece m :
  simpleStep b pos piece m ↔
  ∃ d, canStep b pos piece d ∧ m = mkMove pos [enemyOf pos d] [].
Proof.
  unfold simpleStep, canStep.
  split; intros (d & H); exists d; revert H; rewrite moveDir_getDirections;
    tauto.
Qed.

(** The pieces the scan meets are the pieces of [turn] on the squares of
    the grid. *)
Lemma piecesOf_own b turn pos p :
  (pos, p) ∈ piecesOf b turn ↔ ownPiece b turn pos p.
Proof.
  unfold piecesOf, ownPiece. rewrite list_elem_of_omap. split.
  - intros (rc & Hrc%squares_inGrid & (-> & ? & ?)%pieceAt_Some). done.
  - intros ([Hr Hcl] & Hc & Hcol). exists (row pos, col pos). split.
    + unfold squares. apply list_elem_of_bind. exists (row pos).
      split; [|apply elem_of_seqZ; lia].
      apply list_elem_of_fmap. exists (col pos).
      split; [done|apply elem_of_seqZ; lia].
    + apply pieceAt_Some. by destruct pos.
Qed.

Lemma ownPiece_is_Some b turn pos p :
  ownPiece b turn pos p → is_Some (cellAt b pos).
Proof. intros (_ & -> & _). eauto. Qed.

(** The capture list of a piece, read on the board. *)
Lemma getCapturesForPiece_rules b pos piece :
  (8 ≤ length b)%nat → is_Some (cellAt b pos) →
  ∃ ms, getCapturesForPiece b pos piece None = Ok ms ∧
    ∀ m, m ∈ ms ↔
      ∃ ps cs b' pos',
        jumps piece b pos ps cs b' pos' ∧ noJump piece b' pos' ∧
        ps ≠ [] ∧ m = mkMove pos ps cs.
Proof.
  intros Hlen Hpos.
  destruct (getCapturesForPiece_spec_rows b pos piece Hlen Hpos)
    as (ms & Hms & Hspec).
  exists ms. split; [done|]. intros m. rewrite Hspec.
  split; intros (ps & cs & b' & pos' & Hch & Hst & Hne & ->).
  - destruct (proj1 (chain_stuck_jumps piece b pos ps cs Hlen Hpos))
      as (b2 & p2 & ? & ?); [eauto|]. eauto 10.
  - destruct (proj2 (chain_stuck_jumps piece b pos ps cs Hlen Hpos))
      as (b2 & p2 & ? & ?); [eauto|]. eauto 10.
Qed.

(** The simple-move list of a piece, read on the board. *)
Lemma getSimpleMovesForPiece_rules b pos piece :
  (8 ≤ length b)%nat →
  ∃ ms, getSimpleMovesForPiece b pos piece = Ok ms ∧
    ∀ m, m ∈ ms ↔
      ∃ d, canStep b pos piece d ∧ m = mkMove pos [enemyOf pos d] [].
Proof.
  intros Hlen.
  destruct (getSimpleMovesForPiece_spec_rows b pos piece Hlen)
    as (ms & Hms & Hspec).
  exists ms. split; [done|]. intros m.
  by rewrite Hspec, simpleStep_canStep.
Qed.

Lemma captures_rules b turn caps m :
  (8 ≤ length b)%nat →
  Forall2 (λ pp ms, getCapturesForPiece b pp.1 pp.2 None = Ok ms)
          (piecesOf b turn) caps →
  m ∈ concat caps ↔ captureMove b turn m.
Proof.
  intros Hlen HF.
  rewrite (concat_Forall2_elem
             (λ pp, getCapturesForPiece b pp.1 pp.2 None) _ _ _ HF).
  split.
  - intros ([pos p] & ms & Hown%piecesOf_own & Hms & Hm). simpl in Hms.
    destruct (getCapturesForPiece_rules b pos p Hlen) as (ms' & Hms' & Hspec).
    { by eapply ownPiece_is_Some. }
    replace ms' with ms in Hspec by congruence.
    apply Hspec in Hm as (ps & cs & b' & pos' & ? & ? & ? & ->).
    exists p, b', pos'. done.
  - intros (p & b' & pos' & Hown & Hj & Hno & Hne).
    destruct (getCapturesForPiece_rules b (from m) p Hlen)
      as (ms & Hms & Hspec).
    { by eapply ownPiece_is_Some. }
    exists (from m, p), ms. split; [by apply piecesOf_own|].
    split; [done|]. apply Hspec.
    exists (path m), (captures m), b', pos'. by destruct m.
Qed.

Lemma simples_rules b turn simples m :
  (8 ≤ length b)%nat →
  Forall2 (λ pp ms, getSimpleMovesForPiece b pp.1 pp.2 = Ok ms)
          (piecesOf b turn) simples →
  m ∈ concat simples ↔ stepMove b turn m.
Proof.
  intros Hlen HF.
  rewrite (concat_Forall2_elem
             (λ pp, getSimpleMovesForPiece b pp.1 pp.2) _ _ _ HF).
  split.
  - intros ([pos p] & ms & Hown%piecesOf_own & Hms & Hm). simpl in Hms.
    destruct (getSimpleMovesForPiece_rules b pos p Hlen)
      as (ms' & Hms' & Hspec).
    replace ms' with ms in Hspec by congruence.
    apply Hspec in Hm as (d & Hd & ->). by exists p, d.
  - intros (p & d & Hown & Hd & Hm).
    destruct (getSimpleMovesForPiece_rules b (from m) p Hlen)
      as (ms & Hms & Hspec).
    exists (from m, p), ms. split; [by apply piecesOf_own|].
    split; [done|]. apply Hspec. eauto.
Qed.

(** A piece with no jump available, or one available in some
    direction. *)
Lemma noJump_or_canJump piece b pos :
  noJump piece b pos ∨ ∃ d, canJump b pos piece d.
Proof.
  destruct (decide (noJump piece b pos)) as [?|Hn]; [by left|right].
  rewrite noJump_diagonals in Hn.
  apply not_Forall_Exists in Hn; [|apply _].
  apply Exists_exists in Hn as (d & _ & Hd). exists d.
  by destruct (decide (canJump b pos piece d)).
Qed.

(** Every sequence of available jumps is the beginning of one after which
    no jump is available. *)
Lemma jumps_maximal piece b pos :
  (8 ≤ length b)%nat → is_Some (cellAt b pos) →
  ∃ ps cs b' pos', jumps piece b pos ps cs b' pos' ∧ noJump piece b' pos'.
Proof.
  intros Hlen Hpos.
  destruct (chain_maximal_exists piece (opponents (color piece) b) b pos)
    as (ps & cs & b' & pos' & Hch & Hst); [done..|].
  destruct (proj1 (chain_stuck_jumps piece b pos ps cs Hlen Hpos))
    as (b2 & p2 & ? & ?); eauto 10.
Qed.

Lemma afterJump_rows b pos piece d :
  length (afterJump b pos piece d) = length b.
Proof. apply shape_length. unfold afterJump. apply shape_mapCells. Qed.

Lemma afterJump_landing b pos piece d :
  canJump b pos piece d →
  cellAt (afterJump b pos piece d) (landingOf pos d) =
    if decide (landingOf pos d = pos) then Some None else Some (Some piece).
Proof.
  intros (_ & _ & _ & _ & Hl). unfold afterJump.
  rewrite cellAt_mapCells, Hl. simpl. repeat case_decide; done.
Qed.

(** An available jump begins a capture move. *)
Lemma canJump_begins piece b pos d :
  (8 ≤ length b)%nat → canJump b pos piece d →
  ∃ ps cs b' pos',
    jumps piece b pos (landingOf pos d :: ps) (enemyOf pos d :: cs) b' pos' ∧
    noJump piece b' pos'.
Proof.
  intros Hlen Hcan.
  destruct (jumps_maximal piece (afterJump b pos piece d) (landingOf pos d))
    as (ps & cs & b' & pos' & Hj & Hno).
  { by rewrite afterJump_rows. }
  { rewrite (afterJump_landing _ _ _ _ Hcan). case_decide; eauto. }
  exists ps, cs, b', pos'. split; [|done]. by apply jumps_step.
Qed.

(** Some piece of [turn] has a jump available exactly when [turn] has a
    capture move. *)
Lemma captureAvailable_captureMove b turn :
  (8 ≤ length b)%nat →
  captureAvailable b turn ↔ ∃ m, captureMove b turn m.
Proof.
  intros Hlen. split.
  - intros (pos & piece & d & Hown & Hcan).
    destruct (canJump_begins piece b pos d Hlen Hcan)
      as (ps & cs & b' & pos' & Hj & Hno).
    exists (mkMove pos (landingOf pos d :: ps) (enemyOf pos d :: cs)).
    exists piece, b', pos'. done.
  - intros (m & piece & b' & pos' & Hown & Hj & _ & Hne).
    inversion Hj as [|? ? d ps cs ? ? Hcan _]; simplify_eq; try congruence.
    by exists (from m), piece, d.
Qed.

(** The generator returns on every board with 8 rows or more; the list
    holds the capture moves of [turn] when a jump is available to one of
    its pieces, and its simple moves otherwise. *)
Lemma allowed_rules b turn :
  (8 ≤ length b)%nat →
  ∃ l, getAllowedMovesForBoard b turn = Ok l ∧
    (∀ m, m ∈ l ↔
       captureMove b turn m ∨
       (¬ captureAvailable b turn ∧ stepMove b turn m)).
Proof.
  intros Hlen.
  destruct (getAllowedMovesForBoard_spec_rows b turn Hlen)
    as (caps & simples & Hc & Hs & ->).
  eexists. split; [done|]. intros m.
  pose proof (captures_rules b turn caps) as Hce.
  pose proof (simples_rules b turn simples m Hlen Hs) as Hse.
  rewrite (captureAvailable_captureMove b turn Hlen).
  case_decide as Hnil.
  - rewrite Hse. split.
    + intros Hm. right. split; [|done].
      intros (m' & Hm'%Hce); [|done..]. rewrite Hnil in Hm'.
      by apply elem_of_nil in Hm'.
    + intros [Hm%Hce|[_ ?]]; [|done..]. rewrite Hnil in Hm.
      by apply elem_of_nil in Hm.
  - rewrite Hce by done. split; [by left|].
    intros [?|[Hno _]]; [done|].
    destruct (concat caps) as [|m0 ?] eqn:E; [done|].
    destruct Hno. exists m0. apply (Hce m0); [done..|]. by left.
Qed.

(** On a well-formed board the capture and simple moves of the generator
    are the capture and simple moves of the rules. *)
Lemma captureOf_captureMove b turn m :
  wfBoard b → captureOf b turn m ↔ captureMove b turn m.
Proof.
  intros Hwf.
  destruct (getAllowedMovesForBoard_spec b turn Hwf)
    as (caps & simples & Hc & _ & _).
  rewrite <-(captures_elem b turn caps m Hwf Hc).
  apply captures_rules; [by apply wfBoard_rows|done].
Qed.

Lemma simpleOf_stepMove b turn m :
  wfBoard b → simpleOf b turn m ↔ stepMove b turn m.
Proof.
  intros Hwf.
  destruct (getAllowedMovesForBoard_spec b turn Hwf)
    as (caps & simples & _ & Hs & _).
  rewrite <-(simples_elem b turn simples m Hwf Hs).
  apply simples_rules; [by apply wfBoard_rows|done].
Qed.

Lemma captureMove_shape b turn m :
  captureMove b turn m → captures m ≠ [].
Proof.
  intros (p & b' & pos' & _ & Hj & _ & Hne).
  inversion Hj; simplify_eq; congruence.
Qed.

Lemma stepMove_shape b turn m : stepMove b turn m → captures m = [].
Proof. intros (p & d & _ & _ & ->). done. Qed.

(** ** The example boards *)

Lemma wfBoard_initialBoard : wfBoard initialBoard.
Proof. split; [reflexivity|repeat constructor]. Qed.

Lemma wfBoard_doubleJumpBoard : wfBoard doubleJumpBoard.
Proof. split; [reflexivity|repeat constructor]. Qed.

Lemma wfBoard_backRankBoard : wfBoard backRankBoard.
Proof. split; [reflexivity|repeat constructor]. Qed.

Lemma wfBoard_mixedBoard : wfBoard mixedBoard.
Proof. split; [reflexivity|repeat constructor]. Qed.

Example allowed_initialBoard_red :
  getAllowedMovesForBoard initialBoard red =
  Ok [ mkMove (mkPos 5 0) [mkPos 4 1] [];
       mkMove (mkPos 5 2) [mkPos 4 1] [];
       mkMove (mkPos 5 2) [mkPos 4 3] [];
       mkMove (mkPos 5 4) [mkPos 4 3] [];
       mkMove (mkPos 5 4) [mkPos 4 5] [];
       mkMove (mkPos 5 6) [mkPos 4 5] [];
       mkMove (mkPos 5 6) [mkPos 4 7] [] ].
Proof. vm_compute. reflexivity. Qed.

Example allowed_doubleJumpBoard_red :
  getAllowedMovesForBoard doubleJumpBoard red =
  Ok [ mkMove (mkPos 5 2) [mkPos 3 4; mkPos 1 2] [mkPos 4 3; mkPos 2 3] ].
Proof. vm_compute. reflexivity. Qed.

Example allowed_mixedBoard_red :
  getAllowedMovesForBoard mixedBoard red =
  Ok [ mkMove (mkPos 3 2) [mkPos 1 4] [mkPos 2 3] ].
Proof. vm_compute. reflexivity. Qed.

(** A jump that lands in the last column is found, and the step of the
    same piece is left out. *)
Example allowed_edgeBoard_red :
  getAllowedMovesForBoard edgeBoard red =
  Ok [ mkMove (mkPos 3 5) [mkPos 1 7] [mkPos 2 6] ].
Proof. vm_compute. reflexivity. Qed.

Example allowed_circuitBoard_red :
  getAllowedMovesForBoard circuitBoard red =
  Ok [ mkMove (mkPos 4 1)
         [mkPos 2 3; mkPos 4 5; mkPos 6 3; mkPos 4 1]
         [mkPos 3 2; mkPos 3 4; mkPos 5 4; mkPos 5 2];
       mkMove (mkPos 4 1)
         [mkPos 6 3; mkPos 4 5; mkPos 2 3; mkPos 4 1]
         [mkPos 5 2; mkPos 5 4; mkPos 3 4; mkPos 3 2] ].
Proof. vm_compute. reflexivity. Qed.

(** The man that reaches the back rank stops there; a king on the same
    square of the same board would go on. *)
Example allowed_backRankBoard_red :
  getAllowedMovesForBoard backRankBoard red =
  Ok [ mkMove (mkPos 2 1) [mkPos 0 3] [mkPos 1 2] ].
Proof. vm_compute. reflexivity. Qed.

Example captures_backRankBoard_as_king :
  getCapturesForPiece backRankBoard (mkPos 2 1) (mkPiece red king) None =
  Ok [ mkMove (mkPos 2 1) [mkPos 0 3; mkPos 2 5] [mkPos 1 2; mkPos 1 4] ].
Proof. vm_compute. reflexivity. Qed.

Example updateBoard_backRankBoard :
  (b' ← updateBoard backRankBoard
          (mkMove (mkPos 2 1) [mkPos 0 3] [mkPos 1 2]);
   readCell b' 0 3) = Ok (Obj (mkPiece red king)).
Proof. vm_compute. reflexivity. Qed.

(** ** The properties of the specification *)

(** C1 (mandatory capture).  On every 8 by 8 board the generator returns
    a list that holds only capture moves or only simple moves.  With
    [caps] the capture lists and [simples] the simple-move lists of the
    pieces of [turn], in scan order: when some piece of [turn] has a jump
    available on the board (an opposing piece on a neighbour square in one
    of its directions, and the square behind it on the board and empty),
    the list is the concatenation of the capture lists, it holds exactly
    the capture moves of [turn] on this board and no simple move; when no
    piece of [turn] has a jump available, it is the concatenation of the
    simple-move lists and holds exactly the simple moves of [turn]. *)
Theorem mandatory_capture b turn :
  wfBoard b →
  ∃ caps simples l,
    Forall2 (λ pp ms, getCapturesForPiece b pp.1 pp.2 None = Ok ms)
            (piecesOf b turn) caps ∧
    Forall2 (λ pp ms, getSimpleMovesForPiece b pp.1 pp.2 = Ok ms)
            (piecesOf b turn) simples ∧
    getAllowedMovesForBoard b turn = Ok l ∧
    (Forall isCapture l ∨ Forall isSimple l) ∧
    (captureAvailable b turn →
       l = concat caps ∧ (∀ m, m ∈ l ↔ captureMove b turn m) ∧
       Forall isCapture l) ∧
    (¬ captureAvailable b turn →
       l = concat simples ∧ (∀ m, m ∈ l ↔ stepMove b turn m) ∧
       Forall isSimple l).
Proof.
  intros Hwf. pose proof (wfBoard_rows b Hwf) as Hlen.
  destruct (getAllowedMovesForBoard_spec b turn Hwf)
    as (caps & simples & Hc & Hs & Hl).
  pose proof (λ m, captures_rules b turn caps m Hlen Hc) as Hce.
  pose proof (λ m, simples_rules b turn simples m Hlen Hs) as Hse.
  assert (Forall isCapture (concat caps)) as Hcap.
  { apply Forall_forall. intros m Hm%Hce. by eapply captureMove_shape. }
  assert (Forall isSimple (concat simples)) as Hsim.
  { apply Forall_forall. intros m Hm%Hse. by eapply stepMove_shape. }
  exists caps, simples. eexists. split; [done|]. split; [done|].
  split; [done|]. case_decide as Hnil.
  - assert (¬ captureAvailable b turn) as Hno.
    { intros (m & Hm%Hce)%captureAvailable_captureMove; [|done].
      rewrite Hnil in Hm. by apply elem_of_nil in Hm. }
    split; [by right|]. split; done.
  - assert (captureAvailable b turn) as Hav.
    { apply captureAvailable_captureMove; [done|].
      destruct (concat caps) as [|m0 ?] eqn:E; [done|].
      exists m0. apply Hce. by left. }
    split; [by left|]. split; done.
Qed.

Lemma mandatory_capture_witness :
  captureAvailable mixedBoard red ∧
  stepMove mixedBoard red (mkMove (mkPos 5 6) [mkPos 4 5] []) ∧
  ∃ l, getAllowedMovesForBoard mixedBoard red = Ok l ∧
       l = [mkMove (mkPos 3 2) [mkPos 1 4] [mkPos 2 3]] ∧
       (∀ m, m ∈ l ↔ captureMove mixedBoard red m) ∧
       Forall isCapture l.
Proof.
  assert (wfBoard mixedBoard) as Hwf by (split; [reflexivity|repeat constructor]).
  assert (captureAvailable mixedBoard red) as Hav.
  { exists (mkPos 3 2), (mkPiece red man), (-1, 1). split.
    - by_evaluation.
    - by_evaluation. }
  split; [done|]. split.
  { exists (mkPiece red man), (-1, -1). split.
    - by_evaluation.
    - split; [by_evaluation|reflexivity]. }
  destruct (mandatory_capture mixedBoard red Hwf)
    as (caps & simples & l & _ & _ & Hl & _ & Hcap & _).
  destruct (Hcap Hav) as (_ & Hiff & Hall).
  exists l. split; [done|]. split; [|done].
  vm_compute in Hl. congruence.
Defined.

(** C8 (move shape).  Every move the generator returns is a jump, with as
    many landing squares as captured squares and at least one, or a simple
    step, with one landing square and no capture; no returned move has an
    empty path. *)
Theorem move_shape b turn :
  wfBoard b →
  ∃ l, getAllowedMovesForBoard b turn = Ok l ∧
       ∀ m, m ∈ l → moveShape m ∧ path m ≠ [].
Proof.
  intros Hwf.
  destruct (getAllowedMovesForBoard_elem b turn Hwf) as (l & Hl & Hspec).
  exists l. split; [done|]. intros m [Hm|[_ Hm]]%Hspec.
  - destruct (captureOf_captures _ _ _ Hm) as [Hne Hlen].
    split; [by left|]. destruct (path m), (captures m); done.
  - destruct (simpleOf_captures _ _ _ Hm) as [Hnil Hlen].
    split; [by right|]. by destruct (path m).
Qed.

Lemma move_shape_witness :
  ∃ l, getAllowedMovesForBoard doubleJumpBoard red = Ok l ∧
       ∀ m, m ∈ l → moveShape m ∧ path m ≠ [].
Proof.
  apply (move_shape doubleJumpBoard red).
  split; [reflexivity|repeat constructor].
Defined.

(** C9 (bounds-checked lookup).  For a position outside the 8x8 grid,
    [getPiece] returns [null] without reading the board, whatever the board
    holds. *)
Theorem getPiece_out_of_bounds (g : Checkers) (pos : Position) :
  row pos < 0 ∨ 8 ≤ row pos ∨ col pos < 0 ∨ 8 ≤ col pos →
  getPiece g pos = Ok Null.
Proof.
  intros Hout. unfold getPiece. rewrite !Z.geb_leb.
  destruct (Z.ltb_spec (row pos) 0), (Z.leb_spec 8 (row pos)),
    (Z.ltb_spec (col pos) 0), (Z.leb_spec 8 (col pos)); simpl;
    (done || lia).
Qed.

Lemma getPiece_out_of_bounds_witness :
  getPiece (mkCheckers [] black) (mkPos (-1) 3) = Ok Null.
Proof.
  apply (getPiece_out_of_bounds (mkCheckers [] black) (mkPos (-1) 3)).
  simpl. lia.
Defined.

Lemma chain_not_stuck piece b pos l ps e cs b' pos' :
  chain piece b pos (l :: ps) (e :: cs) b' pos' → ¬ stuck piece b pos.
Proof.
  intros Hch Hst. inversion Hch as [|? ? d ? ? ? ? ? ? ? Hd Hj]; simplify_eq.
  specialize (Hst d Hd). congruence.
Qed.

Lemma chain_last_path piece b pos ps cs b' pos' :
  chain piece b pos ps cs b' pos' → ps ≠ [] → last ps = Some pos'.
Proof.
  intros Hch%chain_last Hne. destruct ps; [done|].
  by rewrite last_cons_cons in Hch.
Qed.

(** The chains of the capture search in the list the generator returns:
    no move is a strict prefix of another, and a chain of a piece of
    [turn] is returned exactly when the search finds no jump after it. *)
Lemma chains_maximal b turn :
  wfBoard b →
  ∃ l, getAllowedMovesForBoard b turn = Ok l ∧
    (∀ m1 m2, m1 ∈ l → m2 ∈ l → ¬ strictPrefix m1 m2) ∧
    (∀ m, m ∈ l → captures m ≠ [] →
       ∃ piece b' pos',
         cellAt b (from m) = Some (Some piece) ∧
         chain piece b (from m) (path m) (captures m) b' pos' ∧
         last (path m) = Some pos' ∧ stuck piece b' pos') ∧
    (∀ pos piece ps cs b' pos',
       cellAt b pos = Some (Some piece) → color piece = turn →
       chain piece b pos ps cs b' pos' → ps ≠ [] →
       (mkMove pos ps cs ∈ l ↔ stuck piece b' pos')) ∧
    (∀ pos piece l1 l2 e1 e2 b' pos',
       cellAt b pos = Some (Some piece) → color piece = turn →
       chain piece b pos [l1; l2] [e1; e2] b' pos' → stuck piece b' pos' →
       mkMove pos [l1; l2] [e1; e2] ∈ l ∧ mkMove pos [l1] [e1] ∉ l).
Proof.
  intros Hwf.
  destruct (getAllowedMovesForBoard_elem b turn Hwf) as (l & Hl & Hspec).
  exists l. split; [done|].
  assert (∀ pos piece ps cs b' pos',
            cellAt b pos = Some (Some piece) → color piece = turn →
            chain piece b pos ps cs b' pos' → ps ≠ [] →
            (mkMove pos ps cs ∈ l ↔ stuck piece b' pos')) as Hiff.
  { intros pos piece ps cs b' pos' Hc Hcol Hch Hne. rewrite Hspec. split.
    - intros [(p & b2 & p2 & Hc2 & _ & Hch2 & Hst & _)|[_ Hs]].
      + simpl in *. assert (p = piece) as -> by congruence.
        by destruct (chain_det _ _ _ _ _ _ _ _ _ Hch Hch2) as [-> ->].
      + apply simpleOf_captures in Hs as [Hnil _]. simpl in Hnil. subst cs.
        apply chain_length in Hch. by destruct ps.
    - intros Hst. left. exists piece, b', pos'. done. }
  split; [|split; [|split; [done|]]].
  - intros m1 m2 Hm1 Hm2 (Hfrom & (ps & Hps & Hpath) & (cs & Hcs & Hcap)).
    apply Hspec in Hm2
      as [(p2 & b2 & q2 & Hc2 & Hcol2 & Hch2 & Hst2 & Hne2)|[Hno Hs]].
    + apply Hspec in Hm1 as [(p1 & b1 & q1 & Hc1 & _ & Hch1 & Hst1 & _)|[Hno _]].
      * rewrite Hfrom in Hc1, Hch1. assert (p1 = p2) as -> by congruence.
        rewrite Hpath, Hcap in Hch2.
        apply chain_app_inv in Hch2 as (bm & pm & Hpre & Hrest);
          [|by eapply chain_length].
        destruct (chain_det _ _ _ _ _ _ _ _ _ Hch1 Hpre) as [<- <-].
        destruct ps as [|l0 ps]; [done|]. destruct cs as [|e0 cs]; [done|].
        by eapply chain_not_stuck.
      * eapply Hno. by exists p2, b2, q2.
    + apply simpleOf_captures in Hs as [Hnil _]. rewrite Hnil in Hcap.
      by destruct (captures m1), cs.
  - intros m [(p & b' & pos' & Hc & _ & Hch & Hst & Hne)|[_ Hs]]%Hspec Hcap.
    + exists p, b', pos'. split; [done|]. split; [done|].
      split; [by eapply chain_last_path|done].
    + by apply simpleOf_captures in Hs as [? _].
  - intros pos piece l1 l2 e1 e2 b' pos' Hc Hcol Hch Hst. split.
    + by apply (Hiff pos piece [l1; l2] [e1; e2] b' pos').
    + apply (chain_app_inv piece b pos [l1] [e1] [l2] [e2]) in Hch
        as (bm & pm & Hpre & Hrest); [|done].
      rewrite (Hiff pos piece [l1] [e1] bm pm) by done.
      by eapply chain_not_stuck.
Qed.

Lemma jumps_last piece b pos ps cs b' pos' :
  jumps piece b pos ps cs b' pos' → ps ≠ [] → last ps = Some pos'.
Proof.
  intros Hj Hne. assert (last (pos :: ps) = Some pos') as Hlast.
  { clear Hne. induction Hj as [|b pos d ps cs b' pos' _ _ IH]; [done|].
    by rewrite last_cons_cons. }
  destruct ps; [done|]. by rewrite last_cons_cons in Hlast.
Qed.

(** C2 (maximal chains).  In the list the generator returns on an 8 by 8
    board: no move is a strict prefix of another; every capture move is a
    sequence of jumps of a piece of [turn], each available on the board
    the jumps before it leave, and after the last of them no jump is
    available from the square reached; a sequence of jumps after which a
    further jump is available is not in the list; a non-empty sequence
    of jumps is in the list exactly when no jump is available after it; so
    when a piece can jump twice in sequence and not a third time, the
    two-jump move is returned and its one-jump prefix is not. *)
Theorem maximal_chains b turn :
  wfBoard b →
  ∃ l, getAllowedMovesForBoard b turn = Ok l ∧
    (∀ m1 m2, m1 ∈ l → m2 ∈ l → ¬ strictPrefix m1 m2) ∧
    (∀ m, m ∈ l → captures m ≠ [] →
       ∃ piece b' pos',
         ownPiece b turn (from m) piece ∧
         jumps piece b (from m) (path m) (captures m) b' pos' ∧
         last (path m) = Some pos' ∧ noJump piece b' pos') ∧
    (∀ pos piece ps cs b' pos' d,
       ownPiece b turn pos piece →
       jumps piece b pos ps cs b' pos' → canJump b' pos' piece d →
       mkMove pos ps cs ∉ l) ∧
    (∀ pos piece ps cs b' pos',
       ownPiece b turn pos piece →
       jumps piece b pos ps cs b' pos' → ps ≠ [] →
       (mkMove pos ps cs ∈ l ↔ noJump piece b' pos')) ∧
    (∀ pos piece d1 d2,
       ownPiece b turn pos piece →
       canJump b pos piece d1 →
       canJump (afterJump b pos piece d1) (landingOf pos d1) piece d2 →
       noJump piece
         (afterJump (afterJump b pos piece d1) (landingOf pos d1) piece d2)
         (landingOf (landingOf pos d1) d2) →
       mkMove pos [landingOf pos d1; landingOf (landingOf pos d1) d2]
                  [enemyOf pos d1; enemyOf (landingOf pos d1) d2] ∈ l ∧
       mkMove pos [landingOf pos d1] [enemyOf pos d1] ∉ l).
Proof.
  intros Hwf. pose proof (wfBoard_rows b Hwf) as Hlen.
  destruct (chains_maximal b turn Hwf) as (l & Hl & Hpre & _ & Hch & _).
  destruct (allowed_rules b turn Hlen) as (l' & Hl' & Hspec).
  assert (l' = l) as -> by congruence.
  exists l. split; [done|]. split; [done|].
  assert (∀ pos piece ps cs b' pos',
            ownPiece b turn pos piece →
            jumps piece b pos ps cs b' pos' → ps ≠ [] →
            (mkMove pos ps cs ∈ l ↔ noJump piece b' pos')) as Hiff.
  { intros pos piece ps cs b' pos' (Hpos & Hc & Hcol) Hj Hne.
    rewrite (Hch pos piece ps cs b' pos' Hc Hcol); [|by apply chain_jumps; [|rewrite Hc|];
      eauto|done].
    apply stuck_noJump.
    by rewrite (shape_length _ _ (jumps_shape _ _ _ _ _ _ _ Hj)). }
  split; [|split; [|split; [done|]]].
  - intros m [(p & b' & pos' & Hown & Hj & Hno & Hne)|[_ Hs]]%Hspec Hcap.
    + exists p, b', pos'. split; [done|]. split; [done|].
      split; [by eapply jumps_last|done].
    + by apply stepMove_shape in Hs.
  - intros pos piece ps cs b' pos' d Hown Hj Hcan Hin.
    destruct ps as [|p ps].
    + apply Hspec in Hin as [(? & ? & ? & _ & _ & _ & Hne)|[_ (? & ? & _ & _ & Hm)]];
        [done|]. simpl in Hm. discriminate.
    + apply (Hiff pos piece (p :: ps) cs b' pos') in Hin; [|done..].
      by apply (Hin d).
  - intros pos piece d1 d2 Hown Hc1 Hc2 Hno. split.
    + assert (jumps piece b pos
                [landingOf pos d1; landingOf (landingOf pos d1) d2]
                [enemyOf pos d1; enemyOf (landingOf pos d1) d2]
                (afterJump (afterJump b pos piece d1) (landingOf pos d1)
                           piece d2)
                (landingOf (landingOf pos d1) d2)) as Hj.
      { apply jumps_step; [done|]. apply jumps_step; [done|]. constructor. }
      by apply (Hiff _ _ _ _ _ _ Hown Hj).
    + intros Hin.
      apply (Hiff pos piece [landingOf pos d1] [enemyOf pos d1]
               (afterJump b pos piece d1) (landingOf pos d1)) in Hin;
        [|done| |done].
      * by apply (Hin d2).
      * apply jumps_step; [done|]. constructor.
Qed.

Lemma maximal_chains_witness :
  ∃ l, getAllowedMovesForBoard doubleJumpBoard red = Ok l ∧
    canJump doubleJumpBoard (mkPos 5 2) (mkPiece red man) (-1, 1) ∧
    canJump (afterJump doubleJumpBoard (mkPos 5 2) (mkPiece red man) (-1, 1))
            (mkPos 3 4) (mkPiece red man) (-1, -1) ∧
    noJump (mkPiece red man)
      (afterJump
         (afterJump doubleJumpBoard (mkPos 5 2) (mkPiece red man) (-1, 1))
         (mkPos 3 4) (mkPiece red man) (-1, -1))
      (mkPos 1 2) ∧
    mkMove (mkPos 5 2) [mkPos 3 4; mkPos 1 2] [mkPos 4 3; mkPos 2 3] ∈ l ∧
    mkMove (mkPos 5 2) [mkPos 3 4] [mkPos 4 3] ∉ l.
Proof.
  assert (wfBoard doubleJumpBoard) as Hwf
    by (split; [reflexivity|repeat constructor]).
  destruct (maximal_chains doubleJumpBoard red Hwf)
    as (l & Hl & _ & _ & _ & _ & Htwo).
  exists l. split; [done|].
  assert (canJump doubleJumpBoard (mkPos 5 2) (mkPiece red man) (-1, 1))
    as Hc1 by by_evaluation.
  assert (canJump
            (afterJump doubleJumpBoard (mkPos 5 2) (mkPiece red man) (-1, 1))
            (mkPos 3 4) (mkPiece red man) (-1, -1))
    as Hc2 by by_evaluation.
  assert (noJump (mkPiece red man)
            (afterJump
               (afterJump doubleJumpBoard (mkPos 5 2) (mkPiece red man)
                  (-1, 1))
               (mkPos 3 4) (mkPiece red man) (-1, -1))
            (mkPos 1 2)) as Hno by by_evaluation.
  split; [done|]. split; [done|]. split; [done|].
  apply (Htwo (mkPos 5 2) (mkPiece red man) (-1, 1) (-1, -1));
    [by_evaluation|done|done|done].
Defined.

Lemma chain_hops piece b pos ps cs b' pos' :
  chain piece b pos ps cs b' pos' → hops (getDirections piece) pos ps cs.
Proof.
  induction 1 as [|b pos d e l b1 ps cs b' pos' Hd Hj Hs Hch IH]; [done|].
  simpl. split; [|done].
  destruct (jumpAt_Some _ _ _ _ _ _ Hj) as (-> & -> & _). eauto.
Qed.

(** C7 (no promotion inside a chain).  For every capture move the
    generator returns, with [piece] the value on its origin square: every
    hop goes in a direction of [getDirections piece]; each board simulated
    along the chain holds this same value on the square reached, the last
    one included; and [updateBoard] applied to the move puts
    [_promoteIfNeeded piece] of the final row on the final square. *)
Theorem chain_keeps_piece b turn :
  wfBoard b →
  ∃ l, getAllowedMovesForBoard b turn = Ok l ∧
    ∀ m, m ∈ l → captures m ≠ [] →
      ∃ piece b' pos',
        cellAt b (from m) = Some (Some piece) ∧ color piece = turn ∧
        chain piece b (from m) (path m) (captures m) b' pos' ∧
        hops (getDirections piece) (from m) (path m) (captures m) ∧
        (∀ ps1 cs1 ps2 cs2,
           path m = ps1 ++ ps2 → captures m = cs1 ++ cs2 →
           length ps1 = length cs1 → ps1 ≠ [] →
           ∃ bm pm, chain piece b (from m) ps1 cs1 bm pm ∧
                    cellAt bm pm = Some (Some piece)) ∧
        cellAt b' pos' = Some (Some piece) ∧
        ∃ b'', updateBoard b m = Ok b'' ∧
               cellAt b'' pos' =
                 Some (Some (_promoteIfNeeded piece (row pos'))).
Proof.
  intros Hwf.
  destruct (getAllowedMovesForBoard_elem b turn Hwf) as (l & Hl & Hspec).
  exists l. split; [done|].
  intros m [(p & b' & pos' & Hc & Hcol & Hch & Hst & Hne)|[_ Hs]]%Hspec Hcap;
    [|by apply simpleOf_captures in Hs as [? _]].
  exists p, b', pos'. split; [done|]. split; [done|]. split; [done|].
  split; [by eapply chain_hops|]. split; [|split].
  - intros ps1 cs1 ps2 cs2 Hp Hcs Hlen Hne1. rewrite Hp, Hcs in Hch.
    apply chain_app_inv in Hch as (bm & pm & Hpre & _); [|done].
    exists bm, pm. split; [done|]. by eapply chain_piece.
  - by eapply chain_piece.
  - assert (inGrid (from m)) as Hfrom.
    { eapply cellAt_inGrid; [done|]. by rewrite Hc. }
    destruct (chain_wf _ _ _ _ _ _ _ Hch Hwf Hfrom) as [_ Hpos'].
    destruct (chain_inGrid _ _ _ _ _ _ _ Hch Hwf) as [_ Hcs].
    destruct (updateBoard_spec b m p pos' Hwf Hc Hcs) as (b'' & Hu & _ & Hcell);
      [by eapply chain_last_path|done|].
    exists b''. split; [done|]. rewrite Hcell. by rewrite decide_True.
Qed.

Lemma chain_keeps_piece_witness :
  ∃ l, getAllowedMovesForBoard backRankBoard red = Ok l ∧
    ∀ m, m ∈ l → captures m ≠ [] →
      ∃ piece b' pos',
        cellAt backRankBoard (from m) = Some (Some piece) ∧
        color piece = red ∧
        chain piece backRankBoard (from m) (path m) (captures m) b' pos' ∧
        hops (getDirections piece) (from m) (path m) (captures m) ∧
        (∀ ps1 cs1 ps2 cs2,
           path m = ps1 ++ ps2 → captures m = cs1 ++ cs2 →
           length ps1 = length cs1 → ps1 ≠ [] →
           ∃ bm pm, chain piece backRankBoard (from m) ps1 cs1 bm pm ∧
                    cellAt bm pm = Some (Some piece)) ∧
        cellAt b' pos' = Some (Some piece) ∧
        ∃ b'', updateBoard backRankBoard m = Ok b'' ∧
               cellAt b'' pos' =
                 Some (Some (_promoteIfNeeded piece (row pos'))).
Proof.
  apply (chain_keeps_piece backRankBoard red).
  split; [reflexivity|repeat constructor].
Defined.

(** Whenever [updateBoard] returns, the final square holds the piece it
    built from the one on the origin square. *)
Lemma updateBoard_final b m piece fin b' :
  cellAt b (from m) = Some (Some piece) → last (path m) = Some fin →
  updateBoard b m = Ok b' →
  cellAt b' fin = Some (Some (_promoteIfNeeded piece (row fin))).
Proof.
  intros Hfrom Hlast. unfold updateBoard. rewrite cloneBoard_id.
  rewrite (readCell_cell _ _ _ _ Hfrom). simpl.
  intros (b1 & _ & (b2 & _ & Hfin)%bind_Ok)%bind_Ok.
  rewrite Hlast in Hfin.
  pose proof (updateBoard_newPiece piece (row fin)) as Hnew. simpl in Hnew.
  rewrite Hnew in Hfin.
  rewrite (cellAt_writeCell _ _ _ _ fin Hfin). by rewrite decide_True.
Qed.

(** C4 (promotion).  For a move whose origin square holds [piece] and whose
    path ends on [fin]: [updateBoard] returns when the board is 8x8 and the
    squares of the move are on it; and whenever it returns, the final
    square of the new board holds the piece [_promoteIfNeeded] gives for
    the final row, of the same color, which is a king when [piece] is a
    man that reaches the back rank, a man when [piece] is a man that does
    not, and a king when [piece] is a king. *)
Theorem promotion_at_back_rank b m piece fin :
  cellAt b (from m) = Some (Some piece) →
  last (path m) = Some fin →
  (wfBoard b → Forall inGrid (captures m) → inGrid fin →
   ∃ b', updateBoard b m = Ok b') ∧
  (∀ b', updateBoard b m = Ok b' →
     ∃ q, cellAt b' fin = Some (Some q) ∧
          q = _promoteIfNeeded piece (row fin) ∧
          color q = color piece ∧
          (type piece = man → reachesBackRank piece fin → type q = king) ∧
          (type piece = man → ¬ reachesBackRank piece fin → type q = man) ∧
          (type piece = king → type q = king)).
Proof.
  intros Hfrom Hlast. split.
  - intros Hwf Hcaps Hfin.
    destruct (updateBoard_spec b m piece fin Hwf Hfrom Hcaps Hlast Hfin)
      as (b' & Hu & _). eauto.
  - intros b' Hu. exists (_promoteIfNeeded piece (row fin)).
    split; [by eapply updateBoard_final|]. split; [done|].
    unfold _promoteIfNeeded, reachesBackRank.
    destruct piece as [[] []]; simpl;
      destruct (Z.eqb_spec (row fin) 0), (Z.eqb_spec (row fin) 7); simpl;
      repeat split; try done; intros; try done; intuition (congruence || lia).
Qed.

Lemma promotion_at_back_rank_witness :
  (∃ b', updateBoard backRankBoard
           (mkMove (mkPos 2 1) [mkPos 0 3] [mkPos 1 2]) = Ok b') ∧
  (∀ b', updateBoard backRankBoard
           (mkMove (mkPos 2 1) [mkPos 0 3] [mkPos 1 2]) = Ok b' →
     ∃ q, cellAt b' (mkPos 0 3) = Some (Some q) ∧
          q = _promoteIfNeeded (mkPiece red man) (row (mkPos 0 3)) ∧
          color q = color (mkPiece red man) ∧
          (type (mkPiece red man) = man →
           reachesBackRank (mkPiece red man) (mkPos 0 3) → type q = king) ∧
          (type (mkPiece red man) = man →
           ¬ reachesBackRank (mkPiece red man) (mkPos 0 3) → type q = man) ∧
          (type (mkPiece red man) = king → type q = king)).
Proof.
  destruct (promotion_at_back_rank backRankBoard
              (mkMove (mkPos 2 1) [mkPos 0 3] [mkPos 1 2])
              (mkPiece red man) (mkPos 0 3)) as [Hreturns Hfinal].
  - reflexivity.
  - reflexivity.
  - split; [|exact Hfinal]. apply Hreturns.
    + split; [reflexivity|repeat constructor].
    + repeat constructor; simpl; lia.
    + split; simpl; lia.
Defined.

(** ** Static evaluation: the material score *)

Lemma forOf_rel {A S1 S2} (R : S1 → S2 → Prop)
    (body1 : S1 → A → Res S1) (body2 : S2 → A → Res S2) xs : ∀ s1 s2,
  R s1 s2 →
  (∀ x s1 s2, R s1 s2 → resRel R (body1 s1 x) (body2 s2 x)) →
  resRel R (forOf body1 xs s1) (forOf body2 xs s2).
Proof.
  induction xs as [|x xs IH]; intros s1 s2 HR Hbody; simpl; [done|].
  specialize (Hbody x s1 s2 HR) as Hx.
  destruct (body1 s1 x) as [t1|e1], (body2 s2 x) as [t2|e2]; simpl in *;
    try done.
  by apply IH.
Qed.

Lemma evaluateBoard_unfold b perspective :
  evaluateBoard b perspective =
  forOf (λ value rc, evalCell b perspective rc.1 value rc.2) squares 0.
Proof. unfold evaluateBoard. by rewrite (forOf_nested (evalCell b perspective)). Qed.

Lemma evaluateBoard_opp b :
  evaluateBoard b red = Z.opp <$> evaluateBoard b black.
Proof.
  rewrite !evaluateBoard_unfold.
  pose proof (forOf_rel (λ v w : Z, v = - w)
    (λ value rc, evalCell b red rc.1 value rc.2)
    (λ value rc, evalCell b black rc.1 value rc.2) squares 0 0) as Hrel.
  destruct (forOf _ squares 0) as [v|e], (forOf _ squares 0) as [w|e'];
    simpl in *.
  - rewrite Hrel; [done|done|]. clear. intros [r c] v w ->.
    unfold evalCell; simpl.
    destruct (readCell b r c) as [[| |[[] []]]|]; simpl; try done; lia.
  - destruct Hrel; [done|]. clear. intros [r c] v w ->.
    unfold evalCell; simpl.
    destruct (readCell b r c) as [[| |[[] []]]|]; simpl; try done; lia.
  - destruct Hrel; [done|]. clear. intros [r c] v w ->.
    unfold evalCell; simpl.
    destruct (readCell b r c) as [[| |[[] []]]|]; simpl; try done; lia.
  - rewrite Hrel; [done|done|]. clear. intros [r c] v w ->.
    unfold evalCell; simpl.
    destruct (readCell b r c) as [[| |[[] []]]|]; simpl; try done; lia.
Qed.

Lemma list_length_8 {A} (l : list A) :
  length l = 8%nat → ∃ a0 a1 a2 a3 a4 a5 a6 a7, l = [a0; a1; a2; a3; a4; a5; a6; a7].
Proof.
  intros Hlen. do 9 (destruct l as [|? l]; simplify_eq/=). eauto 10.
Qed.

(** The cells the two loops read on a well-formed board are its cells, row
    after row. *)
Lemma squares_concat b :
  wfBoard b →
  Forall2 (λ rc x, cell b rc.1 rc.2 = Some x) squares (concat b).
Proof.
  intros [Hlen Hrows].
  destruct (list_length_8 b Hlen) as (r0 & r1 & r2 & r3 & r4 & r5 & r6 & r7 & ->).
  repeat match goal with
    | H : Forall _ (_ :: _) |- _ => apply Forall_cons in H as [? H]
    end.
  clear Hlen.
  repeat match goal with
    | H : length ?r = 8%nat |- _ =>
        apply list_length_8 in H as (? & ? & ? & ? & ? & ? & ? & ? & ->)
    end.
  let sq := eval vm_compute in squares in change squares with sq.
  simpl concat. repeat constructor.
Qed.

Lemma evalCell_cell b perspective r c x value :
  cell b r c = Some x →
  evalCell b perspective r value c = Ok (value + signedValue perspective x).
Proof.
  intros Hx. unfold evalCell. rewrite (readCell_cell _ _ _ _ Hx).
  destruct x as [[co ty]|]; simpl; [|f_equal; lia].
  unfold pieceValue. simpl.
  destruct (decide (co = perspective)), ty; simpl; f_equal; lia.
Qed.

Lemma evalCells_sum b perspective sq cells : ∀ value,
  Forall2 (λ rc x, cell b rc.1 rc.2 = Some x) sq cells →
  forOf (λ value rc, evalCell b perspective rc.1 value rc.2) sq value =
  Ok (value + foldr Z.add 0 (signedValue perspective <$> cells)).
Proof.
  intros value HF. revert value.
  induction HF as [|[r c] x sq cells Hx _ IH]; intros value.
  - simpl. f_equal. lia.
  - cbn [forOf fst snd]. rewrite (evalCell_cell _ _ _ _ _ _ Hx).
    cbn [mbind Res_bind]. rewrite IH. rewrite fmap_cons.
    cbn [foldr]. f_equal. lia.
Qed.

Lemma evaluateBoard_material b perspective :
  wfBoard b → evaluateBoard b perspective = Ok (material b perspective).
Proof.
  intros Hwf. rewrite evaluateBoard_unfold.
  by rewrite (evalCells_sum b perspective squares (concat b) 0
                (squares_concat b Hwf)).
Qed.

Lemma material_opp b : material b red = - material b black.
Proof.
  unfold material. induction (concat b) as [|c cells IH]; [done|].
  rewrite !fmap_cons. cbn [foldr]. rewrite IH.
  destruct c as [[[] ty]|]; simpl; lia.
Qed.

(** C5 (evaluation symmetry).  For every board, [evaluateBoard] from
    red's perspective is the negation of [evaluateBoard] from black's
    (on a board so malformed that one faults, the other faults alike);
    on a board of the data model both return, and the value is the sum
    over the cells of plus or minus the value of the piece, 10 for a man
    and 50 for a king. *)
Theorem evaluation_symmetry b :
  evaluateBoard b red = Z.opp <$> evaluateBoard b black ∧
  (wfBoard b →
   evaluateBoard b red = Ok (material b red) ∧
   evaluateBoard b black = Ok (material b black) ∧
   material b red = - material b black).
Proof.
  split; [apply evaluateBoard_opp|]. intros Hwf.
  split; [by apply evaluateBoard_material|].
  split; [by apply evaluateBoard_material|apply material_opp].
Qed.

Lemma evaluation_symmetry_witness :
  evaluateBoard mixedBoard red = Ok 10 ∧
  evaluateBoard mixedBoard black = Ok (-10).
Proof.
  destruct (evaluation_symmetry mixedBoard) as [_ Hwf].
  destruct Hwf as (-> & -> & _).
  - split; [reflexivity|repeat constructor].
  - split; reflexivity.
Defined.

(** ** Search *)

(** *** The shuffle keeps the elements *)

Lemma length_swap {A} (l : list A) i j : length (swap l i j) = length l.
Proof.
  unfold swap. destruct (l !! i), (l !! j); try done.
  by rewrite !length_insert.
Qed.

Lemma swap_elem_of {A} (l : list A) i j x : x ∈ swap l i j ↔ x ∈ l.
Proof.
  unfold swap. destruct (l !! i) as [a|] eqn:Hi; [|done].
  destruct (l !! j) as [c|] eqn:Hj; [|done].
  pose proof (lookup_lt_Some _ _ _ Hi) as Hli.
  pose proof (lookup_lt_Some _ _ _ Hj) as Hlj.
  rewrite !list_elem_of_lookup. split.
  - intros [k Hk].
    destruct (decide (k = j)) as [->|Hkj].
    + rewrite list_lookup_insert_eq in Hk by (by rewrite length_insert).
      simplify_eq. eauto.
    + rewrite list_lookup_insert_ne in Hk by done.
      destruct (decide (k = i)) as [->|Hki].
      * rewrite list_lookup_insert_eq in Hk by done. simplify_eq. eauto.
      * rewrite list_lookup_insert_ne in Hk by done. eauto.
  - intros [k Hk].
    destruct (decide (k = i)) as [->|Hki].
    + exists j. rewrite list_lookup_insert_eq by (by rewrite length_insert).
      congruence.
    + destruct (decide (k = j)) as [->|Hkj].
      * exists i. rewrite list_lookup_insert_ne by done.
        rewrite list_lookup_insert_eq by done. congruence.
      * exists k. by rewrite !list_lookup_insert_ne by done.
Qed.

Lemma shuffleFrom_spec {A} i : ∀ (l : list A) g,
  length (shuffleFrom i l g).1 = length l ∧
  ∀ x, x ∈ (shuffleFrom i l g).1 ↔ x ∈ l.
Proof.
  induction i as [|i IH]; intros l g; [done|].
  change (shuffleFrom (S i) l g) with
    (shuffleFrom i (swap l (S i) (g 0%nat `mod` (S i + 1))%nat)
       (λ n, g (S n))).
  destruct (IH (swap l (S i) (g 0%nat `mod` (S i + 1))%nat) (λ n, g (S n)))
    as [Hlen Hel].
  split.
  - by rewrite Hlen, length_swap.
  - intros x. by rewrite Hel, swap_elem_of.
Qed.

Lemma shuffle_spec {A} (l : list A) g :
  length (shuffle l g).1 = length l ∧ ∀ x, x ∈ (shuffle l g).1 ↔ x ∈ l.
Proof. apply shuffleFrom_spec. Qed.

(** *** One level of the search *)

Lemma minimax_S board depth' isMax turn perspective g :
  minimax board (S depth') isMax turn perspective g =
  (moves ← getAllowedMovesForBoard board turn;
   if (length moves =? 0)%nat
   then s ← evaluateBoard board perspective; Ok (mkResult (Finite s) None, g)
   else
     st ← forOf
       (searchStep
          (λ nb g', minimax nb depth' (negb isMax) (opposite turn) perspective g')
          (if isMax then score_gt else score_lt) board)
       (shuffle moves g).1
       (if isMax then NegInfinity else PosInfinity, None, (shuffle moves g).2);
     Ok (mkResult st.1.1 st.1.2, st.2)).
Proof.
  simpl. destruct (getAllowedMovesForBoard board turn) as [moves|]; [|done].
  simpl. destruct (length moves =? 0)%nat; [done|].
  destruct (shuffle moves g) as [sl g1]. simpl.
  destruct isMax; simpl.
  - rewrite (forOf_ext _
      (searchStep
         (λ nb g', minimax nb depth' false (opposite turn) perspective g')
         score_gt board)) by (by intros [[??]?] ?).
    by destruct (forOf _ _ _) as [[[??]?]|].
  - rewrite (forOf_ext _
      (searchStep
         (λ nb g', minimax nb depth' true (opposite turn) perspective g')
         score_lt board)) by (by intros [[??]?] ?).
    by destruct (forOf _ _ _) as [[[??]?]|].
Qed.

(** A generated move can be applied, and the board stays well-formed. *)
Lemma allowed_applicable b turn l m :
  wfBoard b → getAllowedMovesForBoard b turn = Ok l → m ∈ l →
  ∃ b', updateBoard b m = Ok b' ∧ wfBoard b'.
Proof.
  intros Hwf Hl Hm.
  destruct (getAllowedMovesForBoard_elem b turn Hwf) as (l' & Hl' & Hspec).
  assert (l' = l) as -> by congruence.
  apply Hspec in Hm as [(p & b' & pos' & Hc & _ & Hch & _ & Hne)|[_ Hs]].
  - assert (inGrid (from m)) as Hfrom.
    { eapply cellAt_inGrid; [done|]. by rewrite Hc. }
    destruct (chain_wf _ _ _ _ _ _ _ Hch Hwf Hfrom) as [_ Hpos'].
    destruct (chain_inGrid _ _ _ _ _ _ _ Hch Hwf) as [_ Hcs].
    destruct (updateBoard_spec b m p pos' Hwf Hc Hcs) as (b'' & Hu & ? & _);
      [by eapply chain_last_path|done|]. eauto.
  - destruct Hs as (p & Hc & _ & (d & _ & Hg & _ & Hm)).
    destruct (updateBoard_spec b m p (enemyOf (from m) d) Hwf Hc)
      as (b'' & Hu & ? & _); [by rewrite Hm|by rewrite Hm|done|]. eauto.
Qed.

(** The loop over the shuffled moves: it returns; after the first move the
    best score is finite and the best move is one of the moves seen. *)
Lemma search_loop recur better b sl init g :
  (∀ s, better (Finite s) init = true) →
  (∀ m, m ∈ sl → ∃ b', updateBoard b m = Ok b' ∧
     ∀ g1, ∃ s mv g2, recur b' g1 = Ok (mkResult (Finite s) mv, g2)) →
  ∃ bestVal bestMove g',
    forOf (searchStep recur better b) sl (init, None, g) =
      Ok (bestVal, bestMove, g') ∧
    (sl = [] → bestMove = None) ∧
    (sl ≠ [] → ∃ s m, bestVal = Finite s ∧ bestMove = Some m ∧ m ∈ sl).
Proof.
  intros Hinit Hstep.
  destruct (forOf_total
    (λ seen st,
       (seen = [] ∧ st.1 = (init, None)) ∨
       (∃ s m, st.1 = (Finite s, Some m) ∧ m ∈ seen))
    (searchStep recur better b) sl (init, None, g))
    as ([[bv bm] g'] & Hrun & Hinv).
  - by left.
  - intros seen x [[bv bm] g1] Hinv Hx.
    destruct (Hstep x Hx) as (b' & Hu & Hrec).
    destruct (Hrec g1) as (s & mv & g2 & Hr).
    unfold searchStep. rewrite Hu. simpl. rewrite Hr. simpl.
    destruct Hinv as [[-> Hst]|(s0 & m0 & Hst & Hm0)]; simpl in Hst;
      simplify_eq.
    + rewrite Hinit. eexists. split; [done|]. right.
      exists s, x. split; [done|]. simpl. by left.
    + destruct (better (Finite s) (Finite s0)); eexists; (split; [done|]);
        right.
      * exists s, x. split; [done|]. apply elem_of_app. right. by left.
      * exists s0, m0. split; [done|]. apply elem_of_app. by left.
  - exists bv, bm, g'. split; [done|].
    destruct Hinv as [[-> Hst]|(s0 & m0 & Hst & Hm0)]; simpl in Hst;
      simplify_eq.
    + done.
    + split; [by intros ->; apply elem_of_nil in Hm0|]. eauto.
Qed.

(** [minimax] returns on every well-formed board, with a finite score; the
    move is [null] exactly at depth 0 or without a legal move, and is
    otherwise one of the legal moves. *)
Lemma minimax_total depth : ∀ b isMax turn perspective g,
  wfBoard b →
  ∃ l s mv g',
    getAllowedMovesForBoard b turn = Ok l ∧
    minimax b depth isMax turn perspective g = Ok (mkResult (Finite s) mv, g') ∧
    (mv = None ↔ depth = 0%nat ∨ l = []) ∧
    (∀ m, mv = Some m → m ∈ l).
Proof.
  induction depth as [|depth' IH]; intros b isMax turn perspective g Hwf;
    destruct (getAllowedMovesForBoard_elem b turn Hwf) as (l & Hl & _).
  - exists l, (material b perspective), None, g. split; [done|].
    simpl. rewrite Hl. simpl. rewrite evaluateBoard_material by done.
    split; [done|]. split; [by split; [left|]|done].
  - rewrite minimax_S, Hl. simpl.
    destruct l as [|m0 l]; simpl.
    + rewrite evaluateBoard_material by done. simpl.
      exists [], (material b perspective), None, g.
      split; [done|]. split; [done|]. split; [by split; [right|]|done].
    + destruct (shuffle_spec (m0 :: l) g) as [Hlen Hel].
      destruct (search_loop
        (λ nb g', minimax nb depth' (negb isMax) (opposite turn) perspective g')
        (if isMax then score_gt else score_lt) b
        (shuffle (m0 :: l) g).1
        (if isMax then NegInfinity else PosInfinity)
        (shuffle (m0 :: l) g).2) as (bv & bm & g' & -> & _ & Hbest).
      * intros s. by destruct isMax.
      * intros m Hm%Hel.
        destruct (allowed_applicable b turn _ m Hwf Hl Hm) as (b' & Hu & Hwf').
        exists b'. split; [done|]. intros g1.
        destruct (IH b' (negb isMax) (opposite turn) perspective g1 Hwf')
          as (_ & s & mv & g2 & _ & Hr & _). eauto.
      * destruct Hbest as (s & m & -> & -> & Hm).
        { intros Hnil. rewrite Hnil in Hlen. done. }
        simpl. exists (m0 :: l), s, (Some m), g'.
        split; [done|]. split; [done|]. split.
        -- split; [done|]. by intros [?|?].
        -- intros ? [= <-]. by apply Hel.
Qed.

(** C3 (search terminal behaviour).  At every positive depth, on every
    board, the root search returns; its move is [null] exactly when the
    list of legal moves of the side to move is empty, and is otherwise a
    member of that list.  [bestMove] returns that move. *)
Theorem bestMove_none_iff_no_moves b turn depth g :
  wfBoard b → (0 < depth)%nat →
  ∃ l res g',
    getAllowedMovesForBoard b turn = Ok l ∧
    minimax b depth true turn turn g = Ok (res, g') ∧
    bestMove (mkCheckers b turn) depth g = Ok (move res, g') ∧
    (move res = None ↔ l = []) ∧
    (∀ m, move res = Some m → m ∈ l).
Proof.
  intros Hwf Hdepth.
  destruct (minimax_total depth b true turn turn g Hwf)
    as (l & s & mv & g' & Hl & Hr & Hnone & Hsome).
  exists l, (mkResult (Finite s) mv), g'. split; [done|]. split; [done|].
  split.
  - unfold bestMove. simpl. rewrite cloneBoard_id, Hr. done.
  - simpl. split; [|done]. rewrite Hnone. split; [|by right].
    intros [?|?]; [lia|done].
Qed.

Lemma bestMove_none_iff_no_moves_witness :
  ∃ l res g',
    getAllowedMovesForBoard doubleJumpBoard red = Ok l ∧
    minimax doubleJumpBoard 2 true red red (λ n, n) = Ok (res, g') ∧
    bestMove (mkCheckers doubleJumpBoard red) 2 (λ n, n) = Ok (move res, g') ∧
    (move res = None ↔ l = []) ∧
    (∀ m, move res = Some m → m ∈ l).
Proof.
  apply (bestMove_none_iff_no_moves doubleJumpBoard red 2 (λ n, n)).
  - split; [reflexivity|repeat constructor].
  - lia.
Defined.

(** C10 (depth 0).  At depth 0 the search is a leaf on every board: it
    returns the static evaluation and a [null] move, whatever the list of
    legal moves holds, and so does [bestMove(0)]. *)
Theorem depth_zero_returns_no_move b isMax turn perspective g :
  wfBoard b →
  ∃ l s,
    getAllowedMovesForBoard b turn = Ok l ∧
    evaluateBoard b perspective = Ok s ∧
    minimax b 0 isMax turn perspective g = Ok (mkResult (Finite s) None, g) ∧
    bestMove (mkCheckers b turn) 0 g = Ok (None, g).
Proof.
  intros Hwf.
  destruct (getAllowedMovesForBoard_elem b turn Hwf) as (l & Hl & _).
  exists l, (material b perspective). split; [done|].
  split; [by apply evaluateBoard_material|]. split.
  - simpl. rewrite Hl. simpl. by rewrite evaluateBoard_material.
  - unfold bestMove. simpl. rewrite cloneBoard_id, Hl. simpl.
    by rewrite evaluateBoard_material.
Qed.

Lemma depth_zero_returns_no_move_witness :
  ∃ l s,
    getAllowedMovesForBoard initialBoard red = Ok l ∧
    evaluateBoard initialBoard red = Ok s ∧
    minimax initialBoard 0 true red red (λ n, n)
      = Ok (mkResult (Finite s) None, (λ n, n)) ∧
    bestMove (mkCheckers initialBoard red) 0 (λ n, n) = Ok (None, (λ n, n)).
Proof.
  apply (depth_zero_returns_no_move initialBoard true red red (λ n, n)).
  split; [reflexivity|repeat constructor].
Defined.

(** The starting position has legal moves, and [bestMove(0)] still returns
    no move there. *)
Example depth_zero_initialBoard :
  (∃ m l, getAllowedMovesForBoard initialBoard red = Ok (m :: l)) ∧
  fst <$> bestMove reset 0 (λ n, n) = Ok None.
Proof.
  split; [|vm_compute; reflexivity].
  rewrite allowed_initialBoard_red. eauto.
Qed.

(** ** The store: lemmas *)

Module StoreFacts.
Import Store.

(** *** Stores that grow *)

Lemma preserved_refl h : preserved h h.
Proof. by intros l o. Qed.

Lemma preserved_trans h1 h2 h3 :
  preserved h1 h2 → preserved h2 h3 → preserved h1 h3.
Proof. intros H12 H23 l o Hl. eauto. Qed.

Lemma preserved_app h k : preserved h (h ++ k).
Proof. intros l o Hl. by apply lookup_app_l_Some. Qed.

Lemma preserved_insert_fresh h0 h l o :
  preserved h0 h → (length h0 ≤ l)%nat → preserved h0 (<[l := o]> h).
Proof.
  intros Hp Hl l' o' Hl'. pose proof (lookup_lt_Some _ _ _ Hl').
  rewrite list_lookup_insert_ne by lia. by apply Hp.
Qed.

Lemma pieceAtLoc_preserved h h' c x :
  preserved h h' → pieceAtLoc h c = Some x → pieceAtLoc h' c = Some x.
Proof.
  intros Hp. unfold pieceAtLoc. destruct c as [| |lp]; [done..|].
  destruct (h !! lp) as [[| |p]|] eqn:Hlp; try done.
  by rewrite (Hp _ _ Hlp).
Qed.

Lemma rowAt_preserved h h' lr row :
  preserved h h' → rowAt h lr = Some row → rowAt h' lr = Some row.
Proof.
  intros Hp. unfold rowAt.
  destruct (h !! lr) as [[|cells|]|] eqn:Hlr; try done.
  rewrite (Hp _ _ Hlr). rewrite !mapM_Some. intros HF.
  eapply Forall2_impl; [done|]. intros c x. by apply pieceAtLoc_preserved.
Qed.

Lemma boardAt_preserved h h' lb bv :
  preserved h h' → boardAt h lb = Some bv → boardAt h' lb = Some bv.
Proof.
  intros Hp. unfold boardAt.
  destruct (h !! lb) as [[rows| |]|] eqn:Hlb; try done.
  rewrite (Hp _ _ Hlb). rewrite !mapM_Some. intros HF.
  eapply Forall2_impl; [done|]. intros lr row. by apply rowAt_preserved.
Qed.

Lemma rowLocs_preserved h h' lr row :
  preserved h h' → rowAt h lr = Some row → rowLocs h' lr = rowLocs h lr.
Proof.
  intros Hp. unfold rowAt, rowLocs.
  destruct (h !! lr) as [[|cells|]|] eqn:Hlr; try done.
  by rewrite (Hp _ _ Hlr).
Qed.

Lemma boardLocs_preserved h h' lb bv :
  preserved h h' → boardAt h lb = Some bv → boardLocs h' lb = boardLocs h lb.
Proof.
  intros Hp. unfold boardAt, boardLocs.
  destruct (h !! lb) as [[rows| |]|] eqn:Hlb; try done.
  rewrite (Hp _ _ Hlb). rewrite mapM_Some. intros HF. f_equal. clear Hlb.
  induction HF as [|lr row rows bv Hrow _ IH]; [done|].
  rewrite !bind_cons. by rewrite IH, (rowLocs_preserved h h' lr row).
Qed.

(** The locations of a board that a store denotes lie in that store. *)
Lemma rowLocs_bound h lr row l :
  rowAt h lr = Some row → l ∈ rowLocs h lr → (l < length h)%nat.
Proof.
  unfold rowAt, rowLocs.
  destruct (h !! lr) as [[|cells|]|] eqn:Hlr; try done.
  rewrite mapM_Some. intros HF [->|Hl]%elem_of_cons.
  - by eapply lookup_lt_Some.
  - apply list_elem_of_bind in Hl as (c & Hl & Hc).
    destruct c as [| |lp]; [by apply elem_of_nil in Hl..|].
    apply list_elem_of_singleton in Hl as ->.
    apply list_elem_of_lookup in Hc as [i Hi].
    destruct (Forall2_lookup_l _ _ _ _ _ HF Hi) as (x & _ & Hx).
    unfold pieceAtLoc in Hx.
    destruct (h !! lp) eqn:Hlp; [|done]. by eapply lookup_lt_Some.
Qed.

Lemma boardLocs_bound h lb bv l :
  boardAt h lb = Some bv → l ∈ boardLocs h lb → (l < length h)%nat.
Proof.
  unfold boardAt, boardLocs.
  destruct (h !! lb) as [[rows| |]|] eqn:Hlb; try done.
  rewrite mapM_Some. intros HF [->|Hl]%elem_of_cons.
  - by eapply lookup_lt_Some.
  - apply list_elem_of_bind in Hl as (lr & Hl & Hlr).
    apply list_elem_of_lookup in Hlr as [i Hi].
    destruct (Forall2_lookup_l _ _ _ _ _ HF Hi) as (row & _ & Hrow).
    by eapply rowLocs_bound.
Qed.

(** *** The copy *)

Lemma arrayMap_spec {A B X} (f : A → M B)
    (valA : Heap → A → option X) (valB : Heap → B → option X)
    (locs : Heap → B → list Loc) :
  (∀ h k a x, valA h a = Some x → valA (h ++ k) a = Some x) →
  (∀ h k b x, valB h b = Some x →
     valB (h ++ k) b = Some x ∧ locs (h ++ k) b = locs h b) →
  (∀ h a x, valA h a = Some x →
     ∃ b k, f a h = Return b (h ++ k) ∧ valB (h ++ k) b = Some x ∧
            fresh h (h ++ k) (locs (h ++ k) b) ∧ NoDup (locs (h ++ k) b)) →
  ∀ xs vs h, Forall2 (λ a x, valA h a = Some x) xs vs →
    ∃ bs k, arrayMap f xs h = Return bs (h ++ k) ∧
            Forall2 (λ b x, valB (h ++ k) b = Some x) bs vs ∧
            fresh h (h ++ k) (bs ≫= locs (h ++ k)) ∧
            NoDup (bs ≫= locs (h ++ k)).
Proof.
  intros HstA HstB Hf xs.
  induction xs as [|a xs IH]; intros vs h HF.
  - apply Forall2_nil_inv_l in HF as ->. exists [], [].
    rewrite app_nil_r. split; [done|]. split; [constructor|].
    split; [by intros l ?%elem_of_nil|constructor].
  - apply Forall2_cons_inv_l in HF as (x & vs' & Hx & HF & ->).
    destruct (Hf h a x Hx) as (b & k1 & Hfa & Hb & Hfr1 & Hnd1).
    destruct (IH vs' (h ++ k1)) as (bs & k2 & Hrest & HF2 & Hfr2 & Hnd2).
    { eapply Forall2_impl; [done|]. intros ???. by apply HstA. }
    destruct (HstB (h ++ k1) k2 b x Hb) as [Hb' Hlocs].
    exists (b :: bs), (k1 ++ k2). rewrite app_assoc.
    split; [|split; [|split]].
    + simpl. unfold bind. rewrite Hfa. fold (arrayMap f xs). by rewrite Hrest.
    + by constructor.
    + intros l [Hl|Hl]%elem_of_app.
      * rewrite Hlocs in Hl. apply Hfr1 in Hl. rewrite !length_app in *. lia.
      * apply Hfr2 in Hl. rewrite !length_app in *. lia.
    + rewrite bind_cons. apply NoDup_app. rewrite Hlocs.
      split; [done|]. split; [|done].
      intros l Hl1%Hfr1 Hl2%Hfr2. lia.
Qed.

Lemma cloneCell_spec h c x :
  pieceAtLoc h c = Some x →
  ∃ c' k, cloneCell c h = Return c' (h ++ k) ∧
          pieceAtLoc (h ++ k) c' = Some x ∧
          fresh h (h ++ k) (cellLocs (h ++ k) c') ∧
          NoDup (cellLocs (h ++ k) c').
Proof.
  unfold pieceAtLoc, cloneCell. destruct c as [| |lp].
  - done.
  - intros [= <-]. exists SNull, []. rewrite app_nil_r.
    split; [done|]. split; [done|].
    split; [by intros l ?%elem_of_nil|constructor].
  - destruct (h !! lp) as [[| |p]|] eqn:Hlp; try done. intros [= <-].
    exists (SRef (length h)), [OPiece (mkPiece (color p) (type p))].
    split; [|split; [|split]].
    + unfold bind, load. rewrite Hlp. done.
    + rewrite lookup_app_r, Nat.sub_diag by done. simpl. by destruct p.
    + intros l ->%list_elem_of_singleton. rewrite length_app. simpl. lia.
    + apply NoDup_singleton.
Qed.

Lemma cloneRow_spec h lr row :
  rowAt h lr = Some row →
  ∃ lr' k, cloneRow lr h = Return lr' (h ++ k) ∧
           rowAt (h ++ k) lr' = Some row ∧
           fresh h (h ++ k) (rowLocs (h ++ k) lr') ∧
           NoDup (rowLocs (h ++ k) lr').
Proof.
  unfold rowAt at 1.
  destruct (h !! lr) as [[|cells|]|] eqn:Hlr; try done.
  rewrite mapM_Some. intros HF.
  destruct (arrayMap_spec cloneCell pieceAtLoc pieceAtLoc cellLocs)
    with (xs := cells) (vs := row) (h := h)
    as (cells' & k & Hmap & HF' & Hfr & Hnd).
  - intros ????. apply pieceAtLoc_preserved, preserved_app.
  - intros ?????. split; [|done].
    by eapply pieceAtLoc_preserved; [apply preserved_app|].
  - apply cloneCell_spec.
  - done.
  - exists (length (h ++ k)), (k ++ [OCells cells']). rewrite app_assoc.
    assert (((h ++ k) ++ [OCells cells']) !! length (h ++ k)
            = Some (OCells cells')) as Hnew.
    { by rewrite lookup_app_r, Nat.sub_diag. }
    split; [|split; [|split]].
    + unfold cloneRow, bind, load. rewrite Hlr, Hmap. done.
    + unfold rowAt. rewrite Hnew. apply mapM_Some.
      eapply Forall2_impl; [done|]. intros c x.
      apply pieceAtLoc_preserved, preserved_app.
    + unfold rowLocs. rewrite Hnew.
      intros l [->|Hl]%elem_of_cons.
      * rewrite !length_app. simpl. lia.
      * apply Hfr in Hl. rewrite !length_app in *. simpl. lia.
    + unfold rowLocs. rewrite Hnew. apply NoDup_cons. split; [|done].
      intros Hl%Hfr. lia.
Qed.

Lemma cloneBoard_spec h lb bv :
  boardAt h lb = Some bv →
  ∃ lb' k, cloneBoard lb h = Return lb' (h ++ k) ∧
           boardAt (h ++ k) lb' = Some bv ∧
           fresh h (h ++ k) (boardLocs (h ++ k) lb') ∧
           NoDup (boardLocs (h ++ k) lb').
Proof.
  unfold boardAt at 1.
  destruct (h !! lb) as [[rows| |]|] eqn:Hlb; try done.
  rewrite mapM_Some. intros HF.
  destruct (arrayMap_spec cloneRow rowAt rowAt rowLocs)
    with (xs := rows) (vs := bv) (h := h)
    as (rows' & k & Hmap & HF' & Hfr & Hnd).
  - intros ????. apply rowAt_preserved, preserved_app.
  - intros ????? . split.
    + by eapply rowAt_preserved; [apply preserved_app|].
    + by eapply rowLocs_preserved; [apply preserved_app|].
  - apply cloneRow_spec.
  - done.
  - exists (length (h ++ k)), (k ++ [ORows rows']). rewrite app_assoc.
    assert (((h ++ k) ++ [ORows rows']) !! length (h ++ k)
            = Some (ORows rows')) as Hnew.
    { by rewrite lookup_app_r, Nat.sub_diag. }
    assert (∀ h2, preserved (h ++ k) h2 →
              rows' ≫= rowLocs h2 = rows' ≫= rowLocs (h ++ k)) as Hsame'.
    { intros h2 Hp2. clear -HF' Hp2.
      induction HF' as [|lr' row rows' bv Hrow _ IH]; [done|].
      rewrite !bind_cons, IH. f_equal.
      by apply (rowLocs_preserved (h ++ k) h2 lr' row). }
    pose proof (Hsame' ((h ++ k) ++ [ORows rows']) (preserved_app _ _))
      as Hsame.
    split; [|split; [|split]].
    + unfold cloneBoard, bind, load. rewrite Hlb, Hmap. done.
    + unfold boardAt. rewrite Hnew. apply mapM_Some.
      eapply Forall2_impl; [done|]. intros c x.
      apply rowAt_preserved, preserved_app.
    + unfold boardLocs. rewrite Hnew, Hsame.
      intros l [->|Hl]%elem_of_cons.
      * rewrite !length_app. simpl. lia.
      * apply Hfr in Hl. rewrite !length_app in *. simpl. lia.
    + unfold boardLocs. rewrite Hnew, Hsame. apply NoDup_cons.
      split; [|done]. intros Hl%Hfr. lia.
Qed.

(** *** Assignments into a private copy *)

Lemma heapOf_bind {A B} (Q : Heap → Prop) (m : M A) (k : A → M B) h :
  (∀ e h', m h = Throw e h' → Q h') →
  (∀ a h', m h = Return a h' → Q (heapOf (k a h'))) →
  Q (heapOf (bind m k h)).
Proof.
  intros Hthrow Hret. unfold bind. destruct (m h) as [a h'|e h']; eauto.
Qed.

Lemma load_Return l h o h' : load l h = Return o h' → h' = h ∧ h !! l = Some o.
Proof. unfold load. destruct (h !! l); naive_solver. Qed.

Lemma load_Throw l h e h' : load l h = Throw e h' → h' = h.
Proof. unfold load. destruct (h !! l); naive_solver. Qed.

Lemma readCell_heapOf lb r c h : heapOf (readCell lb r c h) = h.
Proof.
  unfold readCell, bind, load, throw, ret.
  destruct (h !! lb) as [[rows| |]|]; try done.
  destruct (zget rows r) as [lr|]; try done.
  destruct (h !! lr) as [[|cells|]|]; done.
Qed.

Lemma writeCell_private h0 lb rows h r c v :
  private h0 lb rows h → private h0 lb rows (heapOf (writeCell lb r c v h)).
Proof.
  intros (Hp & Hlb & Hlen & Hrows).
  unfold writeCell, bind, load, throw, store. rewrite Hlb.
  destruct (zget rows r) as [lr|] eqn:Hr; [|done].
  destruct (h !! lr) as [[|cells|]|] eqn:Hlr; try done. simpl.
  apply zget_Some in Hr as [_ Hr].
  assert (lr ∈ rows) as Hin by (by eapply list_elem_of_lookup_2).
  split; [|split; [|split]].
  - apply preserved_insert_fresh; auto.
  - rewrite list_lookup_insert_ne; [done|]. congruence.
  - by rewrite length_insert.
  - done.
Qed.

Lemma forEach_private h0 lb rows (f : Position → M unit) caps : ∀ h,
  (∀ cap h, private h0 lb rows h → private h0 lb rows (heapOf (f cap h))) →
  private h0 lb rows h → private h0 lb rows (heapOf (forEach f caps h)).
Proof.
  induction caps as [|cap caps IH]; intros h Hf Hpr; [done|].
  simpl. apply heapOf_bind.
  - intros e h' He. specialize (Hf cap h Hpr). by rewrite He in Hf.
  - intros [] h' Hr. apply IH; [done|].
    specialize (Hf cap h Hpr). by rewrite Hr in Hf.
Qed.

Lemma private_alloc h0 lb rows h o :
  private h0 lb rows h → private h0 lb rows (h ++ [o]).
Proof.
  intros (Hp & Hlb & Hlen & Hrows). split; [|split; [|split]].
  - eapply preserved_trans; [done|apply preserved_app].
  - by apply lookup_app_l_Some.
  - rewrite length_app. lia.
  - done.
Qed.

Lemma private_store_new h0 lb rows h o o' :
  private h0 lb rows h →
  private h0 lb rows (<[length h := o']> (h ++ [o])).
Proof.
  intros (Hp & Hlb & Hlen & Hrows).
  pose proof (lookup_lt_Some _ _ _ Hlb) as Hlt.
  split; [|split; [|split]].
  - apply preserved_insert_fresh; [|done].
    eapply preserved_trans; [done|apply preserved_app].
  - rewrite list_lookup_insert_ne by lia. by apply lookup_app_l_Some.
  - rewrite length_insert, length_app. lia.
  - done.
Qed.

(** [updateBoard] keeps every object of the store it is called in,
    whether it returns or throws. *)
Lemma updateBoard_preserved h lb bv m :
  boardAt h lb = Some bv → preserved h (heapOf (updateBoard lb m h)).
Proof.
  intros Hb.
  destruct (cloneBoard_spec h lb bv Hb)
    as (nb & k & Hclone & Hnb & Hfresh & _).
  assert (∃ rows, private h nb rows (h ++ k)) as [rows Hpr].
  { unfold boardAt in Hnb.
    destruct ((h ++ k) !! nb) as [[rows| |]|] eqn:Hrows; try done.
    exists rows. split; [apply preserved_app|]. split; [done|].
    split; [rewrite length_app; lia|].
    intros lr Hlr. apply (Hfresh lr). unfold boardLocs. rewrite Hrows.
    right. apply list_elem_of_bind. exists lr. split; [by left|done]. }
  cut (private h nb rows (heapOf (updateBoard lb m h))); [by intros [? _]|].
  unfold updateBoard. apply heapOf_bind; [by rewrite Hclone|].
  intros ? ? [= <- <-]%(eq_trans (eq_sym Hclone)).
  apply heapOf_bind.
  { intros e h' He.
    pose proof (readCell_heapOf nb (row (from m)) (col (from m)) (h ++ k))
      as Hh. rewrite He in Hh. simpl in Hh. by subst. }
  intros piece h' Hread.
  pose proof (readCell_heapOf nb (row (from m)) (col (from m)) (h ++ k))
    as Hh. rewrite Hread in Hh. simpl in Hh. subst h'.
  destruct piece as [| |lp]; try done.
  apply heapOf_bind.
  { intros e h' He.
    pose proof (writeCell_private h nb rows (h ++ k)
                  (row (from m)) (col (from m)) SNull Hpr) as Hw.
    by rewrite He in Hw. }
  intros [] h1 Hw1.
  assert (private h nb rows h1) as Hpr1.
  { pose proof (writeCell_private h nb rows (h ++ k)
                  (row (from m)) (col (from m)) SNull Hpr) as Hw.
    by rewrite Hw1 in Hw. }
  assert (∀ h2, private h nb rows h2 →
            private h nb rows
              (heapOf (forEach (λ cap, writeCell nb (row cap) (col cap) SNull)
                               (captures m) h2))) as Hcaps.
  { intros h2 Hpr2. apply forEach_private; [|done].
    intros cap h3. apply writeCell_private. }
  apply heapOf_bind.
  { intros e h' He. specialize (Hcaps h1 Hpr1). by rewrite He in Hcaps. }
  intros [] h2 Hw2.
  assert (private h nb rows h2) as Hpr2.
  { specialize (Hcaps h1 Hpr1). by rewrite Hw2 in Hcaps. }
  apply heapOf_bind; [by intros e h' ->%load_Throw|].
  intros o h' [-> Hlp]%load_Return.
  destruct o as [| |p]; try done.
  apply heapOf_bind; [done|].
  intros np h3 [= <- <-].
  pose proof (private_alloc h nb rows h2
                (OPiece (mkPiece (color p) (type p))) Hpr2) as Hpr3.
  destruct (last (path m)) as [fin|]; [|done].
  assert (∀ o', private h nb rows
            (<[length h2 := o']>
               (h2 ++ [OPiece (mkPiece (color p) (type p))]))) as Hst.
  { intros o'. by apply private_store_new. }
  apply heapOf_bind.
  { intros e h' He. unfold store, ret in He. repeat case_match; done. }
  intros [] h4 Hprom.
  assert (private h nb rows h4) as Hpr4.
  { unfold store, ret in Hprom. repeat case_match; simplify_eq; done. }
  apply heapOf_bind.
  { intros e h' He.
    pose proof (writeCell_private h nb rows h4 (row fin) (col fin)
                  (SRef (length h2)) Hpr4) as Hw.
    by rewrite He in Hw. }
  intros [] h5 Hw5.
  pose proof (writeCell_private h nb rows h4 (row fin) (col fin)
                (SRef (length h2)) Hpr4) as Hw.
  by rewrite Hw5 in Hw.
Qed.

End StoreFacts.

(** *** The store model computes what the value model computes *)

Section refinement.

Lemma pieceAtLoc_keeps h h' c x :
  keepsPieces h h' → Store.pieceAtLoc h c = Some x → Store.pieceAtLoc h' c = Some x.
Proof.
  intros Hk. unfold Store.pieceAtLoc. destruct c as [| |lp]; [done..|].
  destruct (h !! lp) as [[| |p]|] eqn:Hlp; try done.
  by rewrite (Hk _ _ Hlp).
Qed.

Lemma rowAt_keeps h h' lr row :
  keepsPieces h h' → h' !! lr = h !! lr →
  Store.rowAt h lr = Some row → Store.rowAt h' lr = Some row.
Proof.
  intros Hk Hlr. unfold Store.rowAt. rewrite Hlr.
  destruct (h !! lr) as [[|cells|]|]; try done.
  rewrite !mapM_Some. intros HF. eapply Forall2_impl; [done|].
  intros c x. by apply pieceAtLoc_keeps.
Qed.

Lemma zget_Forall2 {A B} (R : A → B → Prop) (l : list A) (k : list B) i :
  Forall2 R l k →
  match zget l i, zget k i with
  | Some x, Some y => R x y
  | None, None => True
  | _, _ => False
  end.
Proof.
  intros HF. unfold zget. case_decide; [|done].
  destruct (l !! Z.to_nat i) as [x|] eqn:Hl.
  - destruct (Forall2_lookup_l _ _ _ _ _ HF Hl) as (y & -> & ?). done.
  - destruct (k !! Z.to_nat i) as [y|] eqn:Hk; [|done].
    destruct (Forall2_lookup_r _ _ _ _ _ HF Hk) as (x & ? & ?). congruence.
Qed.

Lemma Forall2_insert_r {A B} (R R' : A → B → Prop) (l : list A) (k : list B)
    i x y :
  Forall2 R l k → l !! i = Some x → R' x y →
  (∀ j x' y', j ≠ i → l !! j = Some x' → k !! j = Some y' →
     R x' y' → R' x' y') →
  Forall2 R' l (<[i := y]> k).
Proof.
  intros HF Hi Hxy Hother.
  apply Forall2_same_length_lookup. split.
  - rewrite length_insert. by eapply Forall2_length.
  - intros j x' y' Hx' Hy'. destruct (decide (j = i)) as [->|Hne].
    + pose proof (lookup_lt_Some _ _ _ Hy') as Hlt.
      rewrite length_insert in Hlt.
      rewrite list_lookup_insert_eq in Hy' by done. by simplify_eq.
    + rewrite list_lookup_insert_ne in Hy' by done.
      eapply Hother; [done..|].
      by eapply Forall2_lookup_lr.
Qed.

(** An assignment through a board whose rows are distinct arrays is the
    assignment of the value model, where the value model has one (it has
    none for a column outside the row, which the store model grows). *)
Lemma writeCell_refines h lb rows bv r c v vx :
  h !! lb = Some (Store.ORows rows) → NoDup rows →
  Store.boardAt h lb = Some bv → Store.pieceAtLoc h v = Some vx →
  match writeCell bv r c vx with
  | Ok bv' =>
      ∃ h', Store.writeCell lb r c v h = Store.Return () h' ∧
            Store.boardAt h' lb = Some bv' ∧ h' !! lb = Some (Store.ORows rows) ∧
            keepsPieces h h'
  | Err e => e = OffRow ∨ Store.writeCell lb r c v h = Store.Throw e h
  end.
Proof.
  intros Hlb Hnd Hb Hv. unfold Store.boardAt in Hb. rewrite Hlb in Hb.
  apply mapM_Some in Hb.
  unfold writeCell, Store.writeCell, Store.bind, Store.load, Store.throw, Store.store. rewrite Hlb.
  pose proof (zget_Forall2 _ rows bv r Hb) as Hr.
  destruct (zget rows r) as [lr|] eqn:Hlr, (zget bv r) as [cv|] eqn:Hcv;
    try done; [|by right].
  unfold Store.rowAt in Hr.
  destruct (h !! lr) as [[|cells|]|] eqn:Hhlr; try done.
  apply mapM_Some in Hr.
  pose proof (zget_Forall2 _ cells cv c Hr) as Hc.
  destruct (zget cells c) as [old|] eqn:Hold, (zget cv c) as [oldv|] eqn:Holdv;
    try done; [|by left].
  apply zget_Some in Hlr as [_ Hlr]. apply zget_Some in Hold as [Hc0 Hold].
  assert (Store.assign cells c v = <[Z.to_nat c := v]> cells) as ->.
  { unfold Store.assign. rewrite decide_False by lia.
    rewrite decide_True; [done|]. by eapply lookup_lt_Some. }
  set (h' := <[lr := Store.OCells (<[Z.to_nat c := v]> cells)]> h).
  assert (keepsPieces h h') as Hk.
  { intros l p Hl. unfold h'. rewrite list_lookup_insert_ne; [done|].
    congruence. }
  assert (h' !! lr = Some (Store.OCells (<[Z.to_nat c := v]> cells))) as Hnew.
  { unfold h'. apply list_lookup_insert_eq. by eapply lookup_lt_Some. }
  exists h'. split; [done|]. split; [|split; [|done]].
  - unfold Store.boardAt.
    assert (h' !! lb = Some (Store.ORows rows)) as ->.
    { unfold h'. rewrite list_lookup_insert_ne; [done|]. congruence. }
    apply mapM_Some.
    eapply (Forall2_insert_r _ _ rows bv); [done|done| |].
    + unfold Store.rowAt. rewrite Hnew. apply mapM_Some.
      pose proof (Forall2_length _ _ _ Hr) as Hlen.
      assert (<[Z.to_nat c := v]> cells !! Z.to_nat c = Some v) as Hvc.
      { apply list_lookup_insert_eq. by eapply lookup_lt_Some. }
      assert (Forall2 (λ c x, Store.pieceAtLoc h' c = Some x) cells cv) as Hr'.
      { eapply Forall2_impl; [done|]. intros ??. by apply pieceAtLoc_keeps. }
      apply Forall2_same_length_lookup. split.
      * by rewrite !length_insert.
      * intros j x' y' Hx' Hy'.
        destruct (decide (j = Z.to_nat c)) as [->|Hne].
        -- rewrite Hvc in Hx'.
           rewrite list_lookup_insert_eq in Hy'
             by (rewrite <-Hlen; by eapply lookup_lt_Some).
           simplify_eq. by apply (pieceAtLoc_keeps h).
        -- rewrite list_lookup_insert_ne in Hx' by done.
           rewrite list_lookup_insert_ne in Hy' by done.
           by eapply (Forall2_lookup_lr _ _ _ _ _ _ Hr').
    + intros j lr' row' Hne Hj Hrow' Hrow.
      apply (rowAt_keeps h); [done| |done].
      unfold h'. rewrite list_lookup_insert_ne; [done|].
      intros <-. apply Hne. by eapply NoDup_lookup.
  - unfold h'. rewrite list_lookup_insert_ne; [done|]. congruence.
Qed.

Lemma clearCaptures_refines lb rows caps : ∀ h bv,
  h !! lb = Some (Store.ORows rows) → NoDup rows → Store.boardAt h lb = Some bv →
  match forOf (λ nb cap, writeCell nb (row cap) (col cap) None) caps bv with
  | Ok bv' =>
      ∃ h', Store.forEach
              (λ cap, Store.writeCell lb (row cap) (col cap) Store.SNull) caps h
              = Store.Return () h' ∧
            Store.boardAt h' lb = Some bv' ∧ h' !! lb = Some (Store.ORows rows) ∧
            keepsPieces h h'
  | Err e =>
      e = OffRow ∨
      ∃ h', Store.forEach
              (λ cap, Store.writeCell lb (row cap) (col cap) Store.SNull) caps h
              = Store.Throw e h'
  end.
Proof.
  induction caps as [|cap caps IH]; intros h bv Hlb Hnd Hb; simpl.
  - exists h. split; [done|]. split; [done|]. split; [done|]. by intros ??.
  - pose proof (writeCell_refines h lb rows bv (row cap) (col cap)
                  Store.SNull None Hlb Hnd Hb eq_refl) as Hw.
    unfold Store.bind. destruct (writeCell bv _ _ None) as [bv1|e]; simpl.
    + destruct Hw as (h1 & -> & Hb1 & Hlb1 & Hk1).
      specialize (IH h1 bv1 Hlb1 Hnd Hb1).
      destruct (forOf _ caps bv1) as [bv2|e].
      * destruct IH as (h2 & -> & ? & ? & Hk2).
        exists h2. split; [done|]. split; [done|]. split; [done|].
        intros l p Hl. eauto.
      * destruct IH as [-> | [h2 ->]]; eauto.
    + destruct Hw as [-> | ->]; eauto.
Qed.

(** [Store.updateBoard] on a board of value [bv] returns a board whose
    value is the one [updateBoard bv] computes, and throws a [TypeError]
    when [updateBoard bv] does. *)
Lemma updateBoard_refines h lb bv m :
  Store.boardAt h lb = Some bv →
  match updateBoard bv m with
  | Ok bv' =>
      ∃ lb' h', Store.updateBoard lb m h = Store.Return lb' h' ∧
                Store.boardAt h' lb' = Some bv'
  | Err e =>
      e = OffRow ∨ ∃ h', Store.updateBoard lb m h = Store.Throw e h'
  end.
Proof.
  intros Hb.
  destruct (StoreFacts.cloneBoard_spec h lb bv Hb)
    as (nb & k & Hclone & Hnb & _ & Hnd).
  unfold updateBoard, Store.updateBoard, Store.bind. rewrite Hclone, cloneBoard_id.
  set (h1 := h ++ k) in *.
  assert (∃ rows, h1 !! nb = Some (Store.ORows rows) ∧ NoDup rows)
    as (rows & Hrows & Hndr).
  { unfold Store.boardAt in Hnb. unfold Store.boardLocs in Hnd.
    destruct (h1 !! nb) as [[rows| |]|] eqn:Hrows; try done.
    exists rows. split; [done|]. apply NoDup_cons in Hnd as [_ Hnd].
    clear -Hnd. induction rows as [|lr rows IH]; [constructor|].
    rewrite bind_cons in Hnd. apply NoDup_app in Hnd as (_ & Hdis & Hrest).
    apply NoDup_cons. split; [|by apply IH].
    intros Hin. apply (Hdis lr); [by left|].
    apply list_elem_of_bind. exists lr. split; [by left|done]. }
  (* the read of the origin square *)
  pose proof Hnb as Hnb'. unfold Store.boardAt in Hnb'. rewrite Hrows in Hnb'.
  apply mapM_Some in Hnb'.
  unfold readCell, Store.readCell, Store.bind, Store.load, Store.throw, Store.ret. rewrite Hrows.
  pose proof (zget_Forall2 _ rows bv (row (from m)) Hnb') as Hr.
  destruct (zget rows (row (from m))) as [lr|] eqn:Hlr,
    (zget bv (row (from m))) as [cv|] eqn:Hcv; try done; [|simpl; eauto].
  unfold Store.rowAt in Hr.
  destruct (h1 !! lr) as [[|cells|]|] eqn:Hhlr; try done.
  apply mapM_Some in Hr.
  pose proof (zget_Forall2 _ cells cv (col (from m)) Hr) as Hc.
  destruct (zget cells (col (from m))) as [[| |lp]|] eqn:Hold,
    (zget cv (col (from m))) as [oldv|] eqn:Holdv; try done; simpl;
    try (simplify_eq/=; by eauto).
  unfold Store.pieceAtLoc in Hc.
  destruct (h1 !! lp) as [[| |p]|] eqn:Hlp; try done. simplify_eq. simpl.
  (* clearing the origin and the captured squares *)
  pose proof (writeCell_refines h1 nb rows bv (row (from m)) (col (from m))
                Store.SNull None Hrows Hndr Hnb eq_refl) as Hw.
  destruct (writeCell bv _ _ None) as [bv1|e]; simpl;
    [|destruct Hw as [-> | ->]; eauto].
  destruct Hw as (h2 & -> & Hb2 & Hlb2 & Hk2).
  pose proof (clearCaptures_refines nb rows (captures m) h2 bv1
                Hlb2 Hndr Hb2) as Hcaps.
  destruct (forOf _ (captures m) bv1) as [bv2|e]; simpl;
    [|destruct Hcaps as [-> | [h' ->]]; eauto].
  destruct Hcaps as (h3 & -> & Hb3 & Hlb3 & Hk3).
  rewrite (Hk3 _ _ (Hk2 _ _ Hlp)). unfold Store.alloc.
  destruct (last (path m)) as [fin|]; [|eauto].
  (* the new piece object and its promotion *)
  set (h4 := h3 ++ [Store.OPiece (mkPiece (color p) (type p))]).
  set (q := _promoteIfNeeded p (row fin)).
  assert (∃ h5,
    (if decide (type p = man) then
       if bool_decide (color p = red) && (row fin =? 0)
       then Store.store (length h3) (Store.OPiece (mkPiece (color p) king))
       else if bool_decide (color p = black) && (row fin =? 7)
       then Store.store (length h3) (Store.OPiece (mkPiece (color p) king))
       else Store.ret ()
     else Store.ret ()) h4 = Store.Return () h5 ∧
    h5 = h3 ++ [Store.OPiece q]) as (h5 & Hprom & ->).
  { assert (∀ o, <[length h3 := o]> h4 = h3 ++ [o]) as Hins.
    { intros o. unfold h4. rewrite insert_app_r_alt, Nat.sub_diag by done.
      done. }
    unfold q, _promoteIfNeeded, Store.store, Store.ret.
    destruct p as [[] []]; simpl;
      destruct (row fin =? 0), (row fin =? 7); simpl;
      eexists; (split; [done|]); by rewrite ?Hins. }
  unfold Store.ret in Hprom. rewrite Hprom. clear Hprom.
  pose proof (updateBoard_newPiece p (row fin)) as Hnew. simpl in Hnew.
  rewrite Hnew. fold q.
  assert (Store.boardAt (h3 ++ [Store.OPiece q]) nb = Some bv2) as Hb5.
  { eapply StoreFacts.boardAt_preserved; [apply StoreFacts.preserved_app|done]. }
  assert ((h3 ++ [Store.OPiece q]) !! nb = Some (Store.ORows rows)) as Hlb5.
  { by apply lookup_app_l_Some. }
  assert (Store.pieceAtLoc (h3 ++ [Store.OPiece q]) (Store.SRef (length h3))
          = Some (Some q)) as Hq.
  { unfold Store.pieceAtLoc. by rewrite lookup_app_r, Nat.sub_diag. }
  pose proof (writeCell_refines (h3 ++ [Store.OPiece q]) nb rows bv2
                (row fin) (col fin) (Store.SRef (length h3)) (Some q)
                Hlb5 Hndr Hb5 Hq) as Hw.
  destruct (writeCell bv2 _ _ (Some q)) as [bv3|e]; simpl.
  - destruct Hw as (h6 & -> & ? & _). eauto.
  - destruct Hw as [-> | ->]; eauto.
Qed.

End refinement.

Example updateBoard_sharedHeap :
  match Store.updateBoard 3%nat (mkMove (mkPos 5 0) [mkPos 4 1] []) sharedHeap
  with
  | Store.Return lb' h' =>
      Store.boardAt h' 3%nat = Some sharedBoard ∧
      Store.boardAt h' lb' =
        match updateBoard sharedBoard (mkMove (mkPos 5 0) [mkPos 4 1] []) with
        | Ok b' => Some b'
        | Err _ => None
        end
  | Store.Throw _ _ => False
  end.
Proof. vm_compute. done. Qed.

(** A captured square beyond the end of its row: the row of the copy
    grows, and the input board is as it was. *)
Example updateBoard_sharedHeap_grows :
  match Store.updateBoard 3%nat
          (mkMove (mkPos 5 0) [mkPos 4 1] [mkPos 4 9]) sharedHeap
  with
  | Store.Return lb' h' =>
      Store.boardAt h' 3%nat = Some sharedBoard ∧
      Store.readCell lb' 4 9 h' = Store.Return Store.RNull h' ∧
      Store.readCell lb' 4 8 h' = Store.Return Store.RUndefined h' ∧
      Store.readCell 3%nat 4 9 h' = Store.Return Store.RUndefined h'
  | Store.Throw _ _ => False
  end.
Proof. vm_compute. done. Qed.

(** C6 (no mutation of the input).  In any store [h] where [lb] is a
    board of value [bv] (its arrays and piece objects possibly shared):
    [cloneBoard] returns a board of the same value, keeps every object of
    [h] as it was, so that [lb] still has the value [bv] cell by cell and
    field by field, and none of the locations the new board is made of is
    a location of the input board; [updateBoard], whether it returns or
    throws, keeps every object of [h] as it was, and [lb] still has the
    value [bv]. *)
Theorem input_board_not_mutated (h : list Store.Obj) (lb : nat) bv m :
  Store.boardAt h lb = Some bv →
  (∃ lb' h',
     Store.cloneBoard lb h = Store.Return lb' h' ∧
     Store.preserved h h' ∧
     Store.boardAt h' lb = Some bv ∧
     Store.boardAt h' lb' = Some (cloneBoard bv) ∧
     (∀ l, l ∈ Store.boardLocs h' lb' → (length h ≤ l)%nat) ∧
     (∀ l, l ∈ Store.boardLocs h' lb' → l ∉ Store.boardLocs h' lb)) ∧
  Store.preserved h (Store.heapOf (Store.updateBoard lb m h)) ∧
  Store.boardAt (Store.heapOf (Store.updateBoard lb m h)) lb = Some bv.
Proof.
  intros Hb. split; [|split].
  - destruct (StoreFacts.cloneBoard_spec h lb bv Hb)
      as (lb' & k & Hclone & Hb' & Hfresh & _).
    exists lb', (h ++ k). split; [done|].
    split; [apply StoreFacts.preserved_app|].
    split; [by eapply StoreFacts.boardAt_preserved; [apply StoreFacts.preserved_app|]|].
    split; [by rewrite cloneBoard_id|].
    split; [intros l Hl%Hfresh; lia|].
    intros l Hl%Hfresh Hl'.
    rewrite (StoreFacts.boardLocs_preserved h (h ++ k) lb bv
               (StoreFacts.preserved_app _ _) Hb) in Hl'.
    apply (StoreFacts.boardLocs_bound h lb bv l Hb) in Hl'. lia.
  - by eapply StoreFacts.updateBoard_preserved.
  - eapply StoreFacts.boardAt_preserved; [|done].
    by eapply StoreFacts.updateBoard_preserved.
Qed.

Lemma input_board_not_mutated_witness :
  (∃ lb' h',
     Store.cloneBoard 3%nat sharedHeap = Store.Return lb' h' ∧
     Store.preserved sharedHeap h' ∧
     Store.boardAt h' 3%nat = Some sharedBoard ∧
     Store.boardAt h' lb' = Some (cloneBoard sharedBoard) ∧
     (∀ l, l ∈ Store.boardLocs h' lb' → (length sharedHeap ≤ l)%nat) ∧
     (∀ l, l ∈ Store.boardLocs h' lb' → l ∉ Store.boardLocs h' 3%nat)) ∧
  Store.preserved sharedHeap
    (Store.heapOf
       (Store.updateBoard 3%nat (mkMove (mkPos 5 0) [mkPos 4 1] [])
          sharedHeap)) ∧
  Store.boardAt
    (Store.heapOf
       (Store.updateBoard 3%nat (mkMove (mkPos 5 0) [mkPos 4 1] [])
          sharedHeap)) 3%nat = Some sharedBoard.
Proof.
  apply (input_board_not_mutated sharedHeap 3%nat sharedBoard
           (mkMove (mkPos 5 0) [mkPos 4 1] [])).
  reflexivity.
Defined.

(** ** Comparing moves *)

Lemma differAt_eq (a b : list Position) i p q :
  a !! i = Some p → b !! i = Some q →
  differAt a b i = Ok (negb (bool_decide (p = q))).
Proof.
  intros Ha Hb. unfold differAt. rewrite Ha, Hb. f_equal.
  destruct p as [r c], q as [r' c']; simpl.
  case_bool_decide as H.
  - injection H as -> ->. by rewrite !Z.eqb_refl.
  - destruct (Z.eqb_spec r r'), (Z.eqb_spec c c'); simpl; congruence.
Qed.

Lemma anyDiffer_spec (a b : list Position) : ∀ indices,
  length a = length b →
  Forall (λ i, (i < length a)%nat) indices →
  anyDiffer a b indices =
    Ok (bool_decide (Exists (λ i, a !! i ≠ b !! i) indices)).
Proof.
  intros indices Hlen. induction indices as [|i indices IH]; intros Hall.
  - rewrite bool_decide_eq_false_2; [done|]. by intros ?%Exists_nil.
  - apply Forall_cons in Hall as [Hi Hall]. simpl.
    destruct (lookup_lt_is_Some_2 a i Hi) as [p Hp].
    destruct (lookup_lt_is_Some_2 b i ltac:(lia)) as [q Hq].
    rewrite (differAt_eq a b i p q Hp Hq). cbn [mbind Res_bind].
    destruct (decide (p = q)) as [Hpq|Hpq];
      [rewrite (bool_decide_eq_true_2 (p = q)) by done
      |rewrite (bool_decide_eq_false_2 (p = q)) by done]; simpl.
    + subst q. rewrite (IH Hall). f_equal.
      apply bool_decide_ext. rewrite Exists_cons. intuition congruence.
    + f_equal. symmetry. apply bool_decide_eq_true.
      apply Exists_cons. left. rewrite Hp, Hq. congruence.
Qed.

Lemma anyDiffer_all (a b : list Position) :
  length a = length b →
  anyDiffer a b (seq 0 (length a)) = Ok (negb (bool_decide (a = b))).
Proof.
  intros Hlen. rewrite anyDiffer_spec; [|done|].
  - f_equal. case_bool_decide as H; case_bool_decide as H'; simpl; try done.
    + apply Exists_exists in H as (i & _ & Hne). by subst.
    + exfalso. apply H'. apply list_eq. intros i.
      destruct (decide (i < length a)%nat) as [Hi|Hi].
      * destruct (decide (a !! i = b !! i)) as [|Hne]; [done|].
        exfalso. apply H. apply Exists_exists. exists i. split; [|done].
        apply elem_of_seq. lia.
      * rewrite !lookup_ge_None_2 by lia. done.
  - apply Forall_forall. intros i Hi%elem_of_seq. lia.
Qed.

Lemma compareMoves_decide (m1 m2 : CheckersMove) :
  compareMoves m1 m2 = Ok (bool_decide (m1 = m2)).
Proof.
  unfold compareMoves.
  destruct m1 as [[r1 c1] p1 k1], m2 as [[r2 c2] p2 k2]; simpl.
  destruct (Z.eqb_spec r1 r2) as [->|Hr]; simpl;
    [|by rewrite bool_decide_eq_false_2 by congruence].
  destruct (Z.eqb_spec c1 c2) as [->|Hc]; simpl;
    [|by rewrite bool_decide_eq_false_2 by congruence].
  destruct (Nat.eqb_spec (length p1) (length p2)) as [Hp|Hp]; simpl;
    [|by rewrite bool_decide_eq_false_2 by congruence].
  rewrite (anyDiffer_all p1 p2 Hp). cbn [mbind Res_bind].
  case_bool_decide as Hpe; simpl;
    [subst p2|by rewrite bool_decide_eq_false_2 by congruence].
  destruct (Nat.eqb_spec (length k1) (length k2)) as [Hk|Hk]; simpl;
    [|by rewrite bool_decide_eq_false_2 by congruence].
  rewrite (anyDiffer_all k1 k2 Hk). cbn [mbind Res_bind].
  case_bool_decide as Hke; simpl;
    [subst k2|by rewrite bool_decide_eq_false_2 by congruence].
  by rewrite bool_decide_eq_true_2.
Qed.

Lemma arraySome_compareMoves (l : list CheckersMove) mv :
  arraySome (λ m, compareMoves m mv) l = Ok (bool_decide (mv ∈ l)).
Proof.
  induction l as [|m l IH]; cbn [arraySome].
  - rewrite bool_decide_eq_false_2; [done|]. apply not_elem_of_nil.
  - rewrite compareMoves_decide. cbn [mbind Res_bind].
    destruct (decide (m = mv)) as [Hm|Hm];
      [rewrite (bool_decide_eq_true_2 (m = mv)) by done
      |rewrite (bool_decide_eq_false_2 (m = mv)) by done]; simpl.
    + subst. rewrite bool_decide_eq_true_2; [done|]. by left.
    + rewrite IH. f_equal. apply bool_decide_ext.
      rewrite elem_of_cons. intuition congruence.
Qed.

(** ** The squares of a chain *)

(** Case analysis on the squares a cell-by-cell description names. *)
Ltac square_cases :=
  repeat case_decide; simplify_eq; try done;
  repeat match goal with
  | H : _ ∈ _ :: _ |- _ => apply elem_of_cons in H as [?|?]
  | H : _ ∉ _ :: _ |- _ => apply not_elem_of_cons in H as [? ?]
  | H : _ ∈ [] |- _ => by apply elem_of_nil in H
  end; simplify_eq; try done.

(** The last simulated board of a chain, square by square. *)
Lemma chain_board piece b pos ps cs b' pos' :
  chain piece b pos ps cs b' pos' → ps ≠ [] →
  ∀ q, cellAt b' q =
    if decide (q = pos') then Some (Some piece)
    else if decide (q ∈ cs) then Some None
    else if decide (q = pos) then Some None
    else cellAt b q.
Proof.
  induction 1 as [|b pos d e l b1 ps cs b' pos' Hd Hj Hs Hch IH]; [done|].
  intros _ q.
  destruct (jumpAt_Some _ _ _ _ _ _ Hj) as (He & Hl & _ & (ep & Hep & _) & Hle).
  assert (l ≠ pos) as Hlp by (rewrite Hl; by apply (landingOf_ne piece)).
  assert (e ≠ l) as Hel by (intros ->; congruence).
  destruct ps as [|l' ps].
  - inversion Hch; simplify_eq.
    rewrite (simulateJump_cellAt _ _ _ _ _ _ _ Hs).
    square_cases.
  - rewrite IH by done.
    rewrite (simulateJump_cellAt _ _ _ _ _ _ _ Hs).
    square_cases.
Qed.

(** No square is captured twice, and every captured square holds an
    opposing piece on the board the chain starts from. *)
Lemma chain_captures piece b pos ps cs b' pos' :
  chain piece b pos ps cs b' pos' →
  NoDup cs ∧ Forall (holdsEnemy b (color piece)) cs.
Proof.
  induction 1 as [|b pos d e l b1 ps cs b' pos' Hd Hj Hs Hch [IHn IHe]].
  { split; constructor. }
  destruct (jumpAt_Some _ _ _ _ _ _ Hj) as (_ & _ & _ & (ep & Hep & Hc) & _).
  assert (∀ q, holdsEnemy b1 (color piece) q →
               q ≠ e ∧ holdsEnemy b (color piece) q) as Hold.
  { intros q (eq & Hq & Hcq).
    rewrite (simulateJump_cellAt _ _ _ _ _ _ _ Hs) in Hq.
    repeat case_decide; simplify_eq. split; [done|]. by exists eq. }
  rewrite Forall_forall in IHe. split.
  - constructor; [|done]. intros He%IHe%Hold. by destruct He.
  - constructor; [by exists ep|].
    apply Forall_forall. intros q Hq%IHe%Hold. by destruct Hq.
Qed.

(** Landing squares are an even number of rows away from the start,
    captured squares an odd number. *)
Lemma chain_parity piece b pos ps cs b' pos' :
  chain piece b pos ps cs b' pos' →
  Forall (λ l, ∃ k, row l = row pos + 2 * k) ps ∧
  Forall (λ e, ∃ k, row e = row pos + 2 * k + 1) cs.
Proof.
  induction 1 as [|b pos d e l b1 ps cs b' pos' Hd Hj Hs Hch [IHp IHc]].
  { split; constructor. }
  destruct (jumpAt_Some _ _ _ _ _ _ Hj) as (-> & -> & _).
  apply getDirections_diagonal in Hd as [Hd _]. simpl in *.
  split; constructor.
  - by exists d.1.
  - eapply Forall_impl; [done|]. intros l' [k Hk]. exists (d.1 + k). lia.
  - destruct Hd as [Hd|Hd]; [exists 0|exists (-1)]; simpl; lia.
  - eapply Forall_impl; [done|]. intros e' [k Hk]. exists (d.1 + k). lia.
Qed.

(** Every landing square is empty on the board the chain starts from, or
    is the square the chain starts from. *)
Lemma chain_landings piece b pos ps cs b' pos' :
  chain piece b pos ps cs b' pos' →
  Forall (λ l, cellAt b l = Some None ∨ l = pos) ps.
Proof.
  induction 1 as [|b pos d e l b1 ps cs b' pos' Hd Hj Hs Hch IH];
    [constructor|].
  pose proof (chain_parity _ _ _ _ _ _ _ Hch) as [Hpar _].
  destruct (jumpAt_Some _ _ _ _ _ _ Hj) as (He & Hl & _ & _ & Hle).
  apply getDirections_diagonal in Hd as [Hd _].
  constructor; [by left|].
  rewrite Forall_forall in IH, Hpar. apply Forall_forall. intros l' Hl'.
  destruct (IH l' Hl') as [Hc | ->]; [|by left].
  rewrite (simulateJump_cellAt _ _ _ _ _ _ _ Hs) in Hc.
  destruct (Hpar l' Hl') as [k Hk].
  repeat case_decide; simplify_eq; eauto.
  exfalso. simpl in Hk. lia.
Qed.

(** ** The squares of a generated move *)

Lemma allowed_legalShape b turn l m :
  wfBoard b → getAllowedMovesForBoard b turn = Ok l → m ∈ l →
  ∃ piece fin, legalShape b turn m piece fin.
Proof.
  intros Hwf Hl Hm.
  destruct (getAllowedMovesForBoard_elem b turn Hwf) as (l' & Hl' & Hspec).
  assert (l' = l) as -> by congruence.
  apply Hspec in Hm as [(p & b' & pos' & Hc & Hcol & Hch & _ & Hne)|[_ Hs]].
  - assert (inGrid (from m)) as Hfrom.
    { eapply cellAt_inGrid; [done|]. by rewrite Hc. }
    destruct (chain_wf _ _ _ _ _ _ _ Hch Hwf Hfrom) as [_ Hpos'].
    destruct (chain_inGrid _ _ _ _ _ _ _ Hch Hwf) as [Hps Hcs].
    destruct (chain_captures _ _ _ _ _ _ _ Hch) as [Hnd Hen].
    exists p, pos'. rewrite Hcol in Hen.
    unfold legalShape. split_and!; try done.
    + by eapply chain_last_path.
    + by eapply chain_landings.
  - destruct Hs as (p & Hc & Hcol & (d & _ & Hg & He & Hm)).
    exists p, (enemyOf (from m) d). rewrite Hm. simpl.
    unfold legalShape. simpl. split_and!; try done; try by constructor.
    by repeat constructor.
Qed.

(** ** Additive measures of a board *)

(** A write changes the sum of the weights of the cells by the weight
    of what it puts minus the weight of what it overwrites. *)
Lemma foldr_add_app (l1 l2 : list Z) :
  foldr Z.add 0 (l1 ++ l2) = foldr Z.add 0 l1 + foldr Z.add 0 l2.
Proof. induction l1 as [|x l1 IH]; simpl; lia. Qed.

Lemma material_writeCell t b r c v b' old :
  writeCell b r c v = Ok b' →
  cell b r c = Some old →
  material b' t = material b t - signedValue t old + signedValue t v.
Proof.
  unfold writeCell, cell.
  destruct (zget b r) as [cells|] eqn:Hcells; [|done]. simpl.
  destruct (zget cells c) as [old'|] eqn:Hold; [|done].
  intros [= <-] [= ->].
  apply zget_Some in Hcells as [_ Hcells].
  apply zget_Some in Hold as [_ Hold].
  unfold material.
  destruct (concat_insert b _ cells (<[Z.to_nat c := v]> cells) Hcells)
    as [-> ->].
  pose proof (lookup_lt_Some _ _ _ Hold) as Hlt.
  rewrite insert_take_drop by done.
  rewrite <-(take_drop_middle cells _ old Hold) at 3.
  rewrite !fmap_app, !fmap_cons, !foldr_add_app. simpl. lia.
Qed.

Section measure.
Context (μ : Board → Z) (w : option Piece → Z).
Hypothesis μ_write : ∀ b r c v b' old,
  writeCell b r c v = Ok b' → cell b r c = Some old →
  μ b' = μ b - w old + w v.
Hypothesis w_None : w None = 0.

Lemma clear_cellAt caps : ∀ b b',
  forOf (λ nb cap, writeCell nb (row cap) (col cap) None) caps b = Ok b' →
  ∀ q, cellAt b' q = if decide (q ∈ caps) then Some None else cellAt b q.
Proof.
  induction caps as [|cap caps IH]; intros b b'; simpl.
  - by intros [= <-] q.
  - intros (b1 & H1 & H2)%bind_Ok q.
    rewrite (IH _ _ H2), (cellAt_writeCell _ _ _ _ _ H1).
    square_cases.
Qed.

Lemma clear_measure caps : ∀ b b',
  NoDup caps →
  forOf (λ nb cap, writeCell nb (row cap) (col cap) None) caps b = Ok b' →
  μ b' = μ b - sumZ (cellWeight w b <$> caps).
Proof using μ_write w_None.
  induction caps as [|cap caps IH]; intros b b' Hnd; simpl.
  - intros [= <-]. unfold sumZ. simpl. lia.
  - apply NoDup_cons in Hnd as [Hcap Hnd].
    intros (b1 & H1 & H2)%bind_Ok.
    rewrite (IH _ _ Hnd H2).
    destruct (writeCell_is_Some _ _ _ _ _ H1) as [old Hold].
    rewrite (μ_write _ _ _ _ _ _ H1 Hold), w_None.
    assert (cellWeight w b1 <$> caps = cellWeight w b <$> caps) as ->.
    { apply list_fmap_ext. intros i q Hq. unfold cellWeight.
      rewrite (cellAt_writeCell _ _ _ _ _ H1).
      rewrite decide_False; [done|]. intros ->.
      apply Hcap. by eapply list_elem_of_lookup_2. }
    assert (cellWeight w b cap = w old) as Hw.
    { unfold cellWeight, cellAt. by rewrite Hold. }
    unfold sumZ in *. simpl. rewrite Hw. unfold fmap. lia.
Qed.

Lemma updateBoard_measure b m piece fin b' :
  cellAt b (from m) = Some (Some piece) →
  last (path m) = Some fin →
  NoDup (captures m) → from m ∉ captures m → fin ∉ captures m →
  cellAt b fin = Some None ∨ fin = from m →
  updateBoard b m = Ok b' →
  μ b' = μ b - w (Some piece) - sumZ (cellWeight w b <$> captures m)
         + w (Some (_promoteIfNeeded piece (row fin))).
Proof using μ_write w_None.
  intros Hfrom Hlast Hnd Hfc Hfinc Hfin. unfold updateBoard.
  rewrite cloneBoard_id, (readCell_cell _ _ _ _ Hfrom). simpl.
  intros (b1 & H1 & (b2 & H2 & H3)%bind_Ok)%bind_Ok.
  rewrite Hlast in H3.
  pose proof (updateBoard_newPiece piece (row fin)) as Hnew. simpl in Hnew.
  rewrite Hnew in H3.
  assert (cellAt b2 fin = Some None) as Hold.
  { rewrite (clear_cellAt _ _ _ H2), decide_False by done.
    rewrite (cellAt_writeCell _ _ _ _ _ H1).
    destruct (decide (fin = from m)); [done|]. by destruct Hfin. }
  rewrite (μ_write _ _ _ _ _ _ H3 Hold), w_None.
  rewrite (clear_measure _ _ _ Hnd H2).
  rewrite (μ_write _ _ _ _ _ _ H1 Hfrom), w_None.
  assert (cellWeight w b1 <$> captures m = cellWeight w b <$> captures m)
    as ->; [|lia].
  apply list_fmap_ext. intros i q Hq. unfold cellWeight.
  rewrite (cellAt_writeCell _ _ _ _ _ H1).
  rewrite decide_False; [done|]. intros ->.
  apply Hfc. by eapply list_elem_of_lookup_2.
Qed.

End measure.

Lemma promote_color piece r : color (_promoteIfNeeded piece r) = color piece.
Proof. unfold _promoteIfNeeded. by repeat case_match. Qed.

Lemma promote_id piece fin :
  type piece = king ∨ ¬ reachesBackRank piece fin →
  _promoteIfNeeded piece (row fin) = piece.
Proof.
  unfold _promoteIfNeeded, reachesBackRank.
  destruct piece as [c t]; simpl. intros [-> | Hno]; [done|].
  destruct t; [|done]. simpl.
  destruct c; simpl; destruct (Z.eqb_spec (row fin) 0);
    destruct (Z.eqb_spec (row fin) 7); simpl; try done;
    exfalso; apply Hno; auto.
Qed.

Lemma promotionGain_value piece fin :
  promotionGain piece fin =
  if decide (type piece = man ∧ reachesBackRank piece fin) then 40 else 0.
Proof.
  destruct (decide _) as [[Hman Hback]|Hno]; unfold promotionGain.
  - unfold _promoteIfNeeded, reachesBackRank, pieceValue in *.
    destruct piece as [c t]; simpl in *; subst t.
    by destruct Hback as [[-> ->]|[-> ->]].
  - rewrite promote_id; [lia|].
    destruct (type piece) eqn:Ht; [right|by left]. by intros ?; apply Hno.
Qed.

Lemma legalShape_side b turn m piece fin :
  legalShape b turn m piece fin →
  (from m ∉ captures m) ∧ (fin ∉ captures m) ∧
  (cellAt b fin = Some None ∨ fin = from m).
Proof.
  intros (Hfrom & Hcol & Hlast & _ & _ & _ & _ & Hen & Hland).
  rewrite Forall_forall in Hen, Hland.
  assert (from m ∉ captures m) as Hfc.
  { intros (ep & Hep & Hne)%Hen. congruence. }
  pose proof (Hland fin (last_Some_elem_of _ _ Hlast)) as Hfin.
  split; [done|]. split; [|done].
  intros Hin. destruct Hfin as [Hfin | ->]; [|done].
  apply Hen in Hin as (ep & Hep & _). congruence.
Qed.

(** The weights of captured squares. *)
Lemma captured_enemyWeight b turn cs :
  Forall (holdsEnemy b turn) cs →
  sumZ (cellWeight (enemyWeight turn) b <$> cs) = Z.of_nat (length cs) ∧
  sumZ (cellWeight (enemyWeight (opposite turn)) b <$> cs) = 0 ∧
  sumZ (cellWeight (signedValue turn) b <$> cs) = - capturedValue b cs ∧
  0 ≤ capturedValue b cs.
Proof.
  unfold capturedValue, sumZ.
  induction 1 as [|q cs (ep & Hep & Hne) _ (IH1 & IH2 & IH3 & IH4)];
    [done|].
  assert (cellWeight (enemyWeight turn) b q = 1
          ∧ cellWeight (enemyWeight (opposite turn)) b q = 0
          ∧ cellWeight (signedValue turn) b q = - pieceValue ep
          ∧ cellWeight (λ x, match x with
                             | Some p => pieceValue p
                             | None => 0
                             end) b q = pieceValue ep
          ∧ 0 ≤ pieceValue ep) as (W1 & W2 & W3 & W4 & W5).
  { unfold cellWeight. rewrite Hep.
    unfold enemyWeight, isOpponent, signedValue, opposite, pieceValue.
    destruct turn, ep as [[] []]; simpl in *; done. }
  rewrite !fmap_cons. cbn [foldr length].
  rewrite IH1, IH2, IH3, W1, W2, W3, W4. lia.
Qed.

Lemma opponents_measure t b r c v b' old :
  writeCell b r c v = Ok b' → cell b r c = Some old →
  Z.of_nat (opponents t b') =
  Z.of_nat (opponents t b) - enemyWeight t old + enemyWeight t v.
Proof.
  intros Hw Hold. unfold enemyWeight.
  pose proof (opponents_writeCell t _ _ _ _ _ _ Hw Hold). lia.
Qed.

(** A generated move takes the captured pieces off the board and nothing
    else: counts. *)
Lemma legalShape_counts b turn m piece fin b' :
  legalShape b turn m piece fin → updateBoard b m = Ok b' →
  (opponents turn b' + length (captures m) = opponents turn b)%nat ∧
  opponents (opposite turn) b' = opponents (opposite turn) b.
Proof.
  intros Hshape Hu.
  destruct (legalShape_side _ _ _ _ _ Hshape) as (Hfc & Hfinc & Hfin).
  destruct Hshape as (Hfrom & Hcol & Hlast & _ & _ & _ & Hnd & Hen & _).
  destruct (captured_enemyWeight b turn _ Hen) as (E1 & E2 & _).
  pose proof (updateBoard_measure (λ b, Z.of_nat (opponents turn b))
    (enemyWeight turn) (opponents_measure turn) eq_refl
    b m piece fin b' Hfrom Hlast Hnd Hfc Hfinc Hfin Hu) as M1.
  pose proof (updateBoard_measure (λ b, Z.of_nat (opponents (opposite turn) b))
    (enemyWeight (opposite turn)) (opponents_measure (opposite turn)) eq_refl
    b m piece fin b' Hfrom Hlast Hnd Hfc Hfinc Hfin Hu) as M2.
  cbv beta in M1, M2. rewrite E1 in M1. rewrite E2 in M2.
  unfold enemyWeight, isOpponent in M1, M2.
  rewrite promote_color, Hcol in M1, M2.
  rewrite (bool_decide_eq_false_2 (turn ≠ turn)) in M1 by naive_solver.
  rewrite (bool_decide_eq_true_2 (turn ≠ opposite turn)) in M2
    by (unfold opposite; by destruct turn).
  simpl in M1, M2. lia.
Qed.

(** A generated move takes the captured pieces off the board and nothing
    else: material. *)
Lemma legalShape_material b turn m piece fin b' :
  legalShape b turn m piece fin → updateBoard b m = Ok b' →
  material b' turn =
  material b turn + capturedValue b (captures m) + promotionGain piece fin.
Proof.
  intros Hshape Hu.
  destruct (legalShape_side _ _ _ _ _ Hshape) as (Hfc & Hfinc & Hfin).
  destruct Hshape as (Hfrom & Hcol & Hlast & _ & _ & _ & Hnd & Hen & _).
  destruct (captured_enemyWeight b turn _ Hen) as (_ & _ & E3 & _).
  pose proof (updateBoard_measure (λ b, material b turn)
    (signedValue turn) (material_writeCell turn) eq_refl
    b m piece fin b' Hfrom Hlast Hnd Hfc Hfinc Hfin Hu) as M.
  cbv beta in M. rewrite E3 in M.
  unfold signedValue in M. rewrite promote_color in M.
  rewrite !decide_True in M by done. unfold promotionGain. lia.
Qed.

(** ** Boards are determined by their cells *)

Lemma board_ext b1 b2 :
  wfBoard b1 → wfBoard b2 → (∀ q, cellAt b1 q = cellAt b2 q) → b1 = b2.
Proof.
  intros [Hl1 Hr1] [Hl2 Hr2] Hq. apply list_eq. intros i.
  destruct (decide (i < 8)%nat) as [Hi|Hi];
    [|by rewrite !lookup_ge_None_2 by lia].
  destruct (lookup_lt_is_Some_2 b1 i) as [r1 E1]; [lia|].
  destruct (lookup_lt_is_Some_2 b2 i) as [r2 E2]; [lia|].
  rewrite E1, E2. f_equal.
  pose proof (Forall_lookup_1 _ _ _ _ Hr1 E1) as L1.
  pose proof (Forall_lookup_1 _ _ _ _ Hr2 E2) as L2. simpl in L1, L2.
  apply list_eq. intros j.
  destruct (decide (j < 8)%nat) as [Hj|Hj];
    [|by rewrite !lookup_ge_None_2 by lia].
  specialize (Hq (mkPos (Z.of_nat i) (Z.of_nat j))).
  unfold cellAt, cell, zget in Hq. simpl in Hq.
  rewrite !decide_True, !Nat2Z.id in Hq by lia.
  rewrite E1, E2 in Hq. simpl in Hq.
  by rewrite !decide_True in Hq by lia.
Qed.

(** ** The session *)

(** The assignments of [move] build the board [updateBoard] returns. *)
Lemma move_writes b m piece fin :
  wfBoard b →
  cellAt b (from m) = Some (Some piece) →
  Forall inGrid (captures m) →
  last (path m) = Some fin → inGrid fin →
  ∃ b', updateBoard b m = Ok b' ∧ wfBoard b' ∧
    (b1 ← forOf (λ nb cap, writeCell nb (row cap) (col cap) None)
                (captures m) b;
     b2 ← writeCell b1 (row (from m)) (col (from m)) None;
     writeCell b2 (row fin) (col fin)
       (Some (_promoteIfNeeded piece (row fin)))) = Ok b'.
Proof.
  intros Hwf Hfrom Hcaps Hlast Hfin.
  destruct (updateBoard_spec b m piece fin Hwf Hfrom Hcaps Hlast Hfin)
    as (b' & Hu & Hwf' & Hcells).
  exists b'. split; [done|]. split; [done|].
  destruct (clearCaptures_spec (captures m) b Hwf Hcaps)
    as (b1 & -> & Hwf1 & Hc1). simpl.
  assert (inGrid (from m)) as Hfg.
  { apply (cellAt_inGrid b); [done|]. by rewrite Hfrom. }
  destruct (writeCell_Ok b1 (row (from m)) (col (from m)) None) as [b2 H2].
  { by apply (wfBoard_cellAt b1 (from m)). }
  rewrite H2. simpl.
  destruct (writeCell_Ok b2 (row fin) (col fin)
              (Some (_promoteIfNeeded piece (row fin)))) as [b3 H3].
  { apply (wfBoard_cellAt b2 fin); [by eapply writeCell_wf|done]. }
  rewrite H3. f_equal. apply board_ext; [eauto using writeCell_wf..|].
  intros q. rewrite Hcells.
  rewrite (cellAt_writeCell _ _ _ _ _ H3), (cellAt_writeCell _ _ _ _ _ H2), Hc1.
  repeat case_decide; done.
Qed.

Lemma validateMove_spec g l mv :
  getAllowedMovesForBoard (_board g) (_turn g) = Ok l →
  Game.validateMove g mv = Ok (bool_decide (mv ∈ l)).
Proof.
  intros Hl. unfold Game.validateMove. rewrite Hl. simpl.
  apply arraySome_compareMoves.
Qed.

Lemma getCurrentState_wf g :
  wfBoard (_board g) →
  ∃ l, getAllowedMovesForBoard (_board g) (_turn g) = Ok l ∧
    Game.getCurrentState g =
      Ok (Game.mkState (_board g) (_turn g) l
            (if decide (l = []) then Game.gameOver
             else if decide (_turn g = red) then Game.redTurn
             else Game.blackTurn)
            (if decide (l = [])
             then String.append "Game Over! "
                    (String.append
                       (if decide (_turn g = red) then "Black" else "Red")
                       " wins!")
             else String.append (Game.colorName (_turn g)) "'s turn")
            (bool_decide (l = []))).
Proof.
  intros Hwf.
  destruct (getAllowedMovesForBoard_elem _ (_turn g) Hwf) as (l & Hl & _).
  exists l. split; [done|]. unfold Game.getCurrentState.
  rewrite Hl, cloneBoard_id. simpl. by destruct l.
Qed.

(** A new session: the starting position, red to move, and one event
    that announces it. *)
Example new_session :
  ∃ s, Game.new = Ok (reset, [s]) ∧
    Game.board s = initialBoard ∧ Game.turn s = red ∧
    Game.gameState s = Game.redTurn ∧ Game.isGameOver s = false ∧
    Game.boardStatus s = String.append "red" "'s turn" ∧
    length (Game.allowedMoves s) = 7%nat.
Proof. eexists. split; [vm_compute; reflexivity|]. by vm_compute. Qed.

Lemma move_rejected g l mv :
  getAllowedMovesForBoard (_board g) (_turn g) = Ok l → mv ∉ l →
  Game.move g mv = Ok (false, g, []).
Proof.
  intros Hl Hmv. unfold Game.move.
  rewrite (validateMove_spec g l mv Hl). simpl.
  by rewrite bool_decide_eq_false_2.
Qed.

Lemma move_accepted g l mv :
  wfBoard (_board g) →
  getAllowedMovesForBoard (_board g) (_turn g) = Ok l → mv ∈ l →
  ∃ b' s,
    updateBoard (_board g) mv = Ok b' ∧ wfBoard b' ∧
    Game.getCurrentState (mkCheckers b' (opposite (_turn g))) = Ok s ∧
    Game.move g mv = Ok (true, mkCheckers b' (opposite (_turn g)), [s]).
Proof.
  intros Hwf Hl Hmv.
  destruct (allowed_legalShape _ _ _ _ Hwf Hl Hmv)
    as (piece & fin & Hfrom & _ & Hlast & Hfin & _ & Hcaps & _).
  destruct (move_writes _ mv piece fin Hwf Hfrom Hcaps Hlast Hfin)
    as (b' & Hu & Hwf' & Hw).
  destruct (getCurrentState_wf (mkCheckers b' (opposite (_turn g))) Hwf')
    as (l' & _ & Hs).
  eexists b', _. split; [done|]. split; [done|]. split; [exact Hs|].
  unfold Game.move. rewrite (validateMove_spec g l mv Hl). simpl.
  rewrite bool_decide_eq_true_2 by done. simpl.
  assert (inGrid (from mv)) as Hfg.
  { apply (cellAt_inGrid (_board g)); [done|]. by rewrite Hfrom. }
  assert (getPiece g (from mv) = Ok (Obj piece)) as ->.
  { unfold getPiece. fold (offBoard (from mv)).
    rewrite (proj2 (offBoard_false _) Hfg). by apply readCell_Obj. }
  simpl. apply bind_Ok in Hw as (b1 & -> & (b2 & H2 & H3)%bind_Ok).
  simpl. rewrite H2. simpl. rewrite Hlast, H3. simpl.
  unfold Game._emitStateChange. fold (opposite (_turn g)).
  by rewrite Hs.
Qed.

Lemma accepted_cons ok oks :
  accepted (ok :: oks) = if ok then S (accepted oks) else accepted oks.
Proof.
  unfold accepted. destruct ok.
  - by rewrite filter_cons_True.
  - by rewrite filter_cons_False.
Qed.

(** ** The value of a position *)

Lemma opposite_involutive t : opposite (opposite t) = t.
Proof. by destruct t. Qed.

Lemma evaluateBoard_opposite b p v :
  evaluateBoard b p = Ok v → evaluateBoard b (opposite p) = Ok (- v).
Proof.
  pose proof (evaluateBoard_opp b) as H. intros Hv.
  destruct p; change (opposite red) with black;
    change (opposite black) with red.
  - rewrite Hv in H. destruct (evaluateBoard b black) as [x|]; [|done].
    injection H as ->. f_equal. lia.
  - by rewrite H, Hv.
Qed.

Lemma minimaxValue_unique depth b isMax turn p v v' :
  minimaxValue depth b isMax turn p v →
  minimaxValue depth b isMax turn p v' → v = v'.
Proof.
  destruct depth as [|d]; simpl; intros (l & Hl & H) (l' & Hl' & H');
    assert (l' = l) as -> by congruence; [congruence|].
  destruct (decide (l = [])); [congruence|].
  destruct H as [(m & nb & Hm & Hu & Hv) Hb].
  destruct H' as [(m' & nb' & Hm' & Hu' & Hv') Hb'].
  pose proof (Hb' m nb v Hm Hu Hv).
  pose proof (Hb m' nb' v' Hm' Hu' Hv').
  unfold worseEq in *. destruct isMax; lia.
Qed.

Lemma minimaxValue_negate depth : ∀ b isMax turn p v,
  minimaxValue depth b isMax turn p v →
  minimaxValue depth b (negb isMax) turn (opposite p) (- v).
Proof.
  induction depth as [|d IH]; intros b isMax turn p v; simpl;
    intros (l & Hl & H); exists l; (split; [done|]).
  { by apply evaluateBoard_opposite. }
  destruct (decide (l = [])); [by apply evaluateBoard_opposite|].
  destruct H as [(m & nb & Hm & Hu & Hv) Hb]. split.
  - exists m, nb. split; [done|]. split; [done|]. by apply IH.
  - intros m' nb' w Hm' Hu' Hw. apply IH in Hw.
    rewrite negb_involutive, opposite_involutive in Hw.
    pose proof (Hb m' nb' _ Hm' Hu' Hw).
    unfold worseEq in *. destruct isMax; simpl; lia.
Qed.

(** The loop over the shuffled moves keeps a best value among the moves
    seen and a move that has it. *)
Lemma search_loop_best (recur : Board → Rng → Res (SearchResult * Rng))
    (isMax : bool) b sl g (V : Board → Z → Prop) :
  (∀ nb w w', V nb w → V nb w' → w = w') →
  (∀ m, m ∈ sl → ∃ b', updateBoard b m = Ok b' ∧
     ∀ g1, ∃ s mv g2, recur b' g1 = Ok (mkResult (Finite s) mv, g2) ∧ V b' s) →
  sl ≠ [] →
  ∃ v m b' g',
    forOf (searchStep recur (if isMax then score_gt else score_lt) b) sl
          (if isMax then NegInfinity else PosInfinity, None, g) =
      Ok (Finite v, Some m, g') ∧
    m ∈ sl ∧ updateBoard b m = Ok b' ∧ V b' v ∧
    ∀ m' b'' w, m' ∈ sl → updateBoard b m' = Ok b'' → V b'' w →
      worseEq isMax w v.
Proof.
  intros Huniq Hstep Hne.
  set (better := if isMax then score_gt else score_lt).
  set (init := if isMax then NegInfinity else PosInfinity).
  destruct (forOf_total
    (λ seen st,
       (seen = [] ∧ st.1 = (init, None)) ∨
       (∃ v m b', st.1 = (Finite v, Some m) ∧ m ∈ seen ∧
          updateBoard b m = Ok b' ∧ V b' v ∧
          ∀ m' b'' w, m' ∈ seen → updateBoard b m' = Ok b'' → V b'' w →
            worseEq isMax w v))
    (searchStep recur better b) sl (init, None, g))
    as ([[bv bm] g'] & Hrun & Hinv).
  - by left.
  - intros seen x [[bv bm] g1] Hinv Hx.
    destruct (Hstep x Hx) as (bx & Hu & Hrec).
    destruct (Hrec g1) as (s & mv & g2 & Hr & Hs).
    unfold searchStep. rewrite Hu. simpl. rewrite Hr. simpl.
    destruct Hinv as [[-> Hst]|(v0 & m0 & b0 & Hst & Hm0 & Hu0 & Hv0 & Hb0)];
      simpl in Hst; simplify_eq.
    + assert (better (Finite s) init = true) as ->
        by (unfold better, init; by destruct isMax).
      eexists. split; [done|]. right.
      exists s, x, bx. simpl. split_and!; try done; [by left|].
      intros m' b'' w ->%list_elem_of_singleton Hu' Hw.
      assert (b'' = bx) as -> by congruence.
      rewrite (Huniq _ _ _ Hw Hs). unfold worseEq. destruct isMax; lia.
    + destruct (better (Finite s) (Finite v0)) eqn:Hbetter;
        eexists; (split; [done|]); right.
      * exists s, x, bx. simpl. split_and!; try done.
        { apply elem_of_app. right. by left. }
        intros m' b'' w [Hm' | ->%list_elem_of_singleton]%elem_of_app Hu' Hw.
        -- pose proof (Hb0 _ _ _ Hm' Hu' Hw) as Hle.
           unfold better, score_lt, score_gt, worseEq in *.
           destruct isMax; simpl in *; lia.
        -- assert (b'' = bx) as -> by congruence.
           rewrite (Huniq _ _ _ Hw Hs). unfold worseEq. destruct isMax; lia.
      * exists v0, m0, b0. simpl. split_and!; try done.
        { apply elem_of_app. by left. }
        intros m' b'' w [Hm' | ->%list_elem_of_singleton]%elem_of_app Hu' Hw.
        -- by eapply Hb0.
        -- assert (b'' = bx) as -> by congruence.
           rewrite (Huniq _ _ _ Hw Hs).
           unfold better, score_lt, score_gt, worseEq in *.
           destruct isMax; simpl in *; lia.
  - destruct Hinv as [[-> Hst]|(v0 & m0 & b0 & Hst & Hm0 & Hu0 & Hv0 & Hb0)];
      [done|]. simpl in Hst. simplify_eq.
    exists v0, m0, b0, g'. by split_and!.
Qed.

(** [minimax] returns the value of the position, whatever the draws, and
    its move leads to a position of that value. *)
Lemma minimax_value depth : ∀ b isMax turn p g,
  wfBoard b →
  ∃ s mv g',
    minimax b depth isMax turn p g = Ok (mkResult (Finite s) mv, g') ∧
    minimaxValue depth b isMax turn p s ∧
    (∀ m, mv = Some m →
       ∃ depth' nb, depth = S depth' ∧ updateBoard b m = Ok nb ∧
         minimaxValue depth' nb (negb isMax) (opposite turn) p s).
Proof.
  induction depth as [|depth' IH]; intros b isMax turn p g Hwf;
    destruct (getAllowedMovesForBoard_elem b turn Hwf) as (l & Hl & _).
  - exists (material b p), None, g. simpl. rewrite Hl. simpl.
    rewrite evaluateBoard_material by done. split; [done|].
    split; [|done]. by exists l.
  - rewrite minimax_S, Hl. simpl.
    destruct l as [|m0 l]; simpl.
    + rewrite evaluateBoard_material by done. simpl.
      exists (material b p), None, g. split; [done|]. split; [|done].
      by exists [].
    + destruct (shuffle_spec (m0 :: l) g) as [Hlen Hel].
      destruct (search_loop_best
        (λ nb g', minimax nb depth' (negb isMax) (opposite turn) p g')
        isMax b (shuffle (m0 :: l) g).1 (shuffle (m0 :: l) g).2
        (λ nb v, minimaxValue depth' nb (negb isMax) (opposite turn) p v))
        as (v & m & b' & g' & -> & Hm & Hu & Hv & Hbest).
      * intros nb w w'. apply minimaxValue_unique.
      * intros m Hm%Hel.
        destruct (allowed_applicable b turn _ m Hwf Hl Hm) as (b' & Hu & Hwf').
        exists b'. split; [done|]. intros g1.
        destruct (IH b' (negb isMax) (opposite turn) p g1 Hwf')
          as (s & mv & g2 & Hr & Hs & _). eauto.
      * intros Hnil. rewrite Hnil in Hlen. done.
      * simpl. exists v, (Some m), g'. split; [done|]. split.
        -- exists (m0 :: l). split; [done|]. simpl. split.
           ++ exists m, b'. split; [by apply Hel|]. done.
           ++ intros m' nb w Hm'%Hel. by apply Hbest.
        -- intros ? [= <-]. eauto.
Qed.

(** ** Directions of a man *)

Lemma man_direction piece d :
  type piece = man → d ∈ getDirections piece →
  d.1 = match color piece with red => -1 | black => 1 end.
Proof.
  intros Hman. unfold getDirections. rewrite Hman.
  destruct (color piece); simpl;
    intros [-> | ->%list_elem_of_singleton]%elem_of_cons; done.
Qed.

Lemma hops_forward piece pos ps cs :
  type piece = man → hops (getDirections piece) pos ps cs →
  forwardRows (color piece) pos ps.
Proof.
  intros Hman. revert pos cs.
  induction ps as [|l ps IH]; intros pos [|e cs]; simpl; try done.
  intros [(d & Hd & _ & ->) Hrest]. split; [|by eapply IH].
  unfold getDirections in Hd. rewrite Hman in Hd.
  destruct (color piece); simpl in Hd;
    apply elem_of_cons in Hd as [-> | Hd%list_elem_of_singleton];
    subst; simpl; lia.
Qed.

(** ** The shuffle *)

Lemma swap_Permutation {A} (l : list A) i j : swap l i j ≡ₚ l.
Proof.
  unfold swap. destruct (l !! i) as [x|] eqn:Hi; [|done].
  destruct (l !! j) as [y|] eqn:Hj; [|done].
  by apply Permutation_insert_swap.
Qed.

Lemma shuffleFrom_Permutation {A} i : ∀ (l : list A) g,
  (shuffleFrom i l g).1 ≡ₚ l ∧
  ∀ n, (shuffleFrom i l g).2 n = g (i + n)%nat.
Proof.
  induction i as [|i IH]; intros l g; [done|].
  change (shuffleFrom (S i) l g) with
    (shuffleFrom i (swap l (S i) (g 0%nat `mod` (S i + 1))%nat)
       (λ n, g (S n))).
  destruct (IH (swap l (S i) (g 0%nat `mod` (S i + 1))%nat) (λ n, g (S n)))
    as [Hperm Hrng].
  split.
  - by rewrite Hperm, swap_Permutation.
  - intros n. by rewrite Hrng.
Qed.

(** ** Faults of the evaluation *)

(** A loop whose body throws [e] at the elements that satisfy [P], and
    returns at the others, throws [e] when it meets one and returns
    otherwise. *)
Lemma forOf_fault {A St} (P : A → Prop) `{!∀ x, Decision (P x)} (e : Fault)
    (body : St → A → Res St) xs :
  (∀ s x, x ∈ xs → P x → body s x = Err e) →
  (∀ s x, x ∈ xs → ¬ P x → ∃ s', body s x = Ok s') →
  ∀ s, (Exists P xs → forOf body xs s = Err e) ∧
       (Forall (λ x, ¬ P x) xs → ∃ s', forOf body xs s = Ok s').
Proof.
  induction xs as [|x xs IH]; intros Herr Hok s.
  { split; [by intros ?%Exists_nil|]. intros _. by exists s. }
  assert (∀ s, (Exists P xs → forOf body xs s = Err e) ∧
               (Forall (λ x, ¬ P x) xs → ∃ s', forOf body xs s = Ok s'))
    as IH'.
  { apply IH.
    - intros s0 y Hy. apply Herr. by right.
    - intros s0 y Hy. apply Hok. by right. }
  simpl. destruct (decide (P x)) as [Hx|Hx].
  - rewrite (Herr s x) by (done || by left). simpl.
    split; [done|]. by intros [? _]%Forall_cons.
  - destruct (Hok s x) as [s1 ->]; [by left|done|]. simpl.
    split.
    + intros [?|?]%Exists_cons; [done|]. by apply IH'.
    + intros [_ ?]%Forall_cons. by apply IH'.
Qed.

Lemma evalCell_fault b p r v c :
  (zget b r = None → evalCell b p r v c = Err TypeError) ∧
  (zget b r ≠ None → ∃ v', evalCell b p r v c = Ok v').
Proof.
  unfold evalCell, readCell. destruct (zget b r) as [cells|]; [|done].
  split; [done|]. intros _. simpl.
  destruct (zget cells c) as [[q|]|]; simpl; repeat case_decide; eauto.
Qed.

(** On a row the board has, a cell adds its weight, and a cell the row
    does not have adds nothing. *)
Lemma evalCell_rows b p r v c :
  is_Some (zget b r) →
  evalCell b p r v c = Ok (v + cellWeight (signedValue p) b (mkPos r c)).
Proof.
  intros [cells Hr].
  unfold evalCell, readCell, cellWeight, cellAt, cell. simpl. rewrite Hr.
  simpl. destruct (zget cells c) as [[[co ty]|]|]; simpl;
    [|f_equal; lia..].
  unfold pieceValue. simpl.
  destruct (decide (co = p)), ty; simpl; f_equal; lia.
Qed.

Lemma evalCells_rows b p sq : ∀ v,
  Forall (λ rc : Z * Z, is_Some (zget b rc.1)) sq →
  forOf (λ value rc, evalCell b p rc.1 value rc.2) sq v =
  Ok (v + sumZ ((λ rc, cellWeight (signedValue p) b (mkPos rc.1 rc.2))
                  <$> sq)).
Proof.
  intros v HF. revert v.
  induction HF as [|[r c] sq Hr _ IH]; intros v.
  - simpl. f_equal. unfold sumZ. simpl. lia.
  - cbn [forOf fst snd]. rewrite (evalCell_rows _ _ _ _ _ Hr).
    cbn [mbind Res_bind]. rewrite IH. rewrite fmap_cons.
    unfold sumZ. cbn [foldr fst snd]. f_equal. lia.
Qed.

Lemma squares_elem (r c : Z) :
  (r, c) ∈ squares ↔ 0 ≤ r < 8 ∧ 0 ≤ c < 8.
Proof.
  unfold squares. rewrite list_elem_of_bind. split.
  - intros (r' & (c' & [= -> ->] & Hc)%list_elem_of_fmap & Hr).
    apply elem_of_seqZ in Hc, Hr. lia.
  - intros [Hr Hc]. exists r. split; [|apply elem_of_seqZ; lia].
    apply list_elem_of_fmap. exists c. split; [done|].
    apply elem_of_seqZ. lia.
Qed.

(** ** Boards of any shape *)

Lemma safeOn_bind {A B} b (m : Res A) (f : A → Res B) :
  safeOn b m → (∀ x, m = Ok x → safeOn b (f x)) → safeOn b (m ≫= f).
Proof. destruct m as [x|e]; simpl; [|done]. intros _ Hf. by apply Hf. Qed.

Lemma safeOn_forOf {A St} b (body : St → A → Res St) xs : ∀ s,
  (∀ s x, x ∈ xs → safeOn b (body s x)) → safeOn b (forOf body xs s).
Proof.
  induction xs as [|x xs IH]; intros s Hbody; simpl; [done|].
  apply safeOn_bind; [apply Hbody; by left|].
  intros s' _. apply IH. intros s0 y Hy. apply Hbody. by right.
Qed.

Lemma safeOn_length {A} b b' (r : Res A) :
  length b' = length b → safeOn b' r → safeOn b r.
Proof. intros Hlen. destruct r; simpl; [done|]. by rewrite Hlen. Qed.

Lemma safeOn_readCell b r c : 0 ≤ r < 8 → safeOn b (readCell b r c).
Proof.
  intros Hr. unfold readCell. destruct (zget b r) as [cells|] eqn:Hz; [done|].
  simpl. split; [done|].
  destruct (decide (length b < 8)%nat) as [|Hge]; [done|].
  destruct (zget_is_Some b r) as [_ [? ?]]; [lia|congruence].
Qed.

Lemma safeOn_jumpAt b pos piece d : safeOn b (jumpAt b pos piece d).
Proof.
  unfold jumpAt.
  destruct (offBoard _) eqn:Hoff; [done|]. apply offBoard_false in Hoff.
  apply safeOn_bind.
  - destruct (onBoard _) eqn:Hon; [|done]. apply onBoard_true in Hon.
    apply safeOn_readCell, Hon.
  - intros [| |ep] _; try done. case_decide; [done|].
    apply safeOn_bind; [apply safeOn_readCell, Hoff|].
    by intros [| |?] _.
Qed.

Lemma writeCell_length b r c v b' :
  writeCell b r c v = Ok b' → length b' = length b.
Proof.
  unfold writeCell. destruct (zget b r); [|done].
  destruct (zget _ c); [|done]. intros [= <-]. by rewrite length_insert.
Qed.

Lemma simulateJump_length b pos piece e l b' :
  simulateJump b pos piece e l = Ok b' → length b' = length b.
Proof.
  unfold simulateJump. rewrite cloneBoard_id.
  intros (b1 & H1 & (b2 & H2 & H3)%bind_Ok)%bind_Ok.
  rewrite (writeCell_length _ _ _ _ _ H3), (writeCell_length _ _ _ _ _ H2).
  by apply writeCell_length in H1.
Qed.

(** The capture search on a board of any shape. *)
Lemma safeOn_getCapturesFuel fuel : ∀ b pos piece cur,
  is_Some (cellAt b pos) → (opponents (color piece) b < fuel)%nat →
  safeOn b (getCapturesFuel fuel b pos piece cur).
Proof.
  induction fuel as [|fuel' IH]; intros b pos piece cur Hpos Hfuel; [lia|].
  rewrite getCapturesFuel_S. apply safeOn_bind.
  - apply safeOn_forOf. intros [moves found] d _. unfold captureStep.
    apply safeOn_bind; [apply safeOn_jumpAt|].
    intros [[e l]|] Hj; [|done].
    destruct (jumpAt_Some _ _ _ _ _ _ Hj)
      as (_ & Hl & _ & (ep & Hep & Hc) & Hle).
    destruct (simulateJump_Ok b pos piece e l) as [b1 Hs];
      [done|by rewrite Hep|by rewrite Hle|].
    rewrite Hs. simpl.
    pose proof (simulateJump_opponents _ _ _ _ _ _ _ Hs Hep Hc Hle) as Hlt.
    apply safeOn_bind.
    + apply (safeOn_length b b1); [by eapply simulateJump_length|].
      apply IH; [|lia].
      rewrite (simulateJump_cellAt _ _ _ _ _ _ _ Hs).
      repeat case_decide; eauto.
    + intros fc _. by case_match.
  - intros st _. by case_match.
Qed.

Lemma safeOn_getSimpleMovesForPiece b pos piece :
  safeOn b (getSimpleMovesForPiece b pos piece).
Proof.
  unfold getSimpleMovesForPiece. apply safeOn_forOf. intros moves d _.
  destruct (offBoard _) eqn:Hoff; [done|]. apply offBoard_false in Hoff.
  apply safeOn_bind; [apply safeOn_readCell, Hoff|].
  by intros [| |?] _.
Qed.

Lemma safeOn_scanCell b turn r acc c :
  0 ≤ r < 8 → safeOn b (scanCell b turn r acc c).
Proof.
  intros Hr. unfold scanCell. destruct acc as [ac asim].
  apply safeOn_bind; [by apply safeOn_readCell|].
  intros [| |p] Hp; try done. case_decide; [|done].
  apply readCell_Obj in Hp.
  apply safeOn_bind.
  - apply safeOn_getCapturesFuel; [|lia].
    unfold cellAt. simpl. by rewrite Hp.
  - intros caps _. case_match; [done|].
    apply safeOn_bind; [apply safeOn_getSimpleMovesForPiece|done].
Qed.

Lemma safeOn_getAllowedMovesForBoard b turn :
  safeOn b (getAllowedMovesForBoard b turn).
Proof.
  unfold getAllowedMovesForBoard. apply safeOn_bind.
  - apply safeOn_forOf. intros acc r Hr%elem_of_seqZ.
    apply safeOn_forOf. intros acc' c _. apply safeOn_scanCell. lia.
  - intros [ac asim] _. by case_match.
Qed.

(** A loop that returns has returned from its body at every element. *)
Lemma forOf_Ok_elem {A St} (body : St → A → Res St) xs : ∀ s s' x,
  forOf body xs s = Ok s' → x ∈ xs → ∃ s1 s2, body s1 x = Ok s2.
Proof.
  induction xs as [|y xs IH]; intros s s' x Hrun Hx;
    [by apply elem_of_nil in Hx|].
  simpl in Hrun. apply bind_Ok in Hrun as (s1 & Hy & Hrest).
  apply elem_of_cons in Hx as [-> | Hx]; [eauto|]. by eapply IH.
Qed.

Lemma getAllowedMovesForBoard_short b turn l :
  getAllowedMovesForBoard b turn = Ok l → (8 ≤ length b)%nat.
Proof.
  unfold getAllowedMovesForBoard. intros ([ac asim] & Hrun & _)%bind_Ok.
  destruct (decide (8 ≤ length b)%nat) as [|Hshort]; [done|]. exfalso.
  destruct (forOf_Ok_elem _ _ _ _ (Z.of_nat (length b)) Hrun)
    as (acc1 & acc2 & Hrow); [apply elem_of_seqZ; lia|].
  destruct (forOf_Ok_elem _ _ _ _ 0 Hrow) as ([a1 a2] & acc4 & Hcell);
    [apply elem_of_seqZ; lia|].
  unfold scanCell, readCell, zget in Hcell.
  rewrite decide_True in Hcell by lia.
  by rewrite Nat2Z.id, lookup_ge_None_2 in Hcell by lia.
Qed.

(** ** No move is generated twice *)

Lemma landingOf_inj pos d d' : landingOf pos d = landingOf pos d' → d = d'.
Proof.
  destruct d as [d1 d2], d' as [d1' d2']. unfold landingOf. simpl.
  intros [= ? ?]. f_equal; lia.
Qed.

Lemma enemyOf_inj pos d d' : enemyOf pos d = enemyOf pos d' → d = d'.
Proof.
  destruct d as [d1 d2], d' as [d1' d2']. unfold enemyOf. simpl.
  intros [= ? ?]. f_equal; lia.
Qed.

Lemma NoDup_getDirections piece : NoDup (getDirections piece).
Proof.
  unfold getDirections. repeat case_decide; by apply (bool_decide_unpack _).
Qed.

(** The loop of the capture search over the directions [ds] that are
    left: the moves found so far went through other directions. *)
Lemma captureLoop_NoDup fuel' b pos piece cur :
  (∀ b1 l cm ms, getCapturesFuel fuel' b1 l piece cm = Ok ms → NoDup ms) →
  ∀ ds st st', NoDup ds →
    forOf (captureStep fuel' b pos piece (startMove pos cur)) ds st = Ok st' →
    NoDup st.1 →
    (∀ m, m ∈ st.1 →
       ∃ d ps, (d ∉ ds) ∧
         path m = path (startMove pos cur) ++ landingOf pos d :: ps) →
    NoDup st'.1.
Proof.
  intros IH ds. induction ds as [|d ds IHds];
    intros [moves found] st' Hnd Hrun Hmoves Hpaths; simpl in *.
  { by simplify_eq. }
  apply NoDup_cons in Hnd as [Hd Hnd].
  apply bind_Ok in Hrun as (st1 & Hstep & Hrest).
  apply (IHds st1 st' Hnd Hrest); clear Hrest IHds.
  - unfold captureStep in Hstep.
    apply bind_Ok in Hstep as (j & Hj & Hk).
    destruct j as [[e l]|]; [|by simplify_eq].
    apply bind_Ok in Hk as (nb & Hnb & (fc & Hfc & Hk)%bind_Ok).
    destruct (jumpAt_Some _ _ _ _ _ _ Hj) as (_ & -> & _).
    assert (∀ m, m ∈ moves → ∀ ps,
              path m ≠ path (startMove pos cur) ++ landingOf pos d :: ps)
      as Hother.
    { intros m (d' & ps' & Hd' & Hp)%Hpaths ps Hp'. rewrite Hp in Hp'.
      apply app_inv_head in Hp'.
      assert (landingOf pos d' = landingOf pos d) as ->%landingOf_inj
        by congruence.
      apply Hd'. by left. }
    case_match; simplify_eq; simpl; apply NoDup_app; (split; [done|]).
    + split; [|by eapply IH]. intros m Hm Hin.
      destruct (getCapturesFuel_sound _ _ _ _ _ _ _ Hfc Hin)
        as (ps & cs & _ & _ & _ & _ & Heq & _).
      apply (Hother m Hm ps). rewrite Heq. simpl. by rewrite <-app_assoc.
    + split; [|apply NoDup_singleton].
      intros m Hm ->%list_elem_of_singleton.
      by apply (Hother _ Hm []).
  - unfold captureStep in Hstep.
    apply bind_Ok in Hstep as (j & Hj & Hk).
    destruct j as [[e l]|].
    + apply bind_Ok in Hk as (nb & Hnb & (fc & Hfc & Hk)%bind_Ok).
      destruct (jumpAt_Some _ _ _ _ _ _ Hj) as (_ & -> & _).
      assert (∀ m, m ∈ moves →
                ∃ d' ps, (d' ∉ ds) ∧
                  path m = path (startMove pos cur) ++ landingOf pos d' :: ps)
        as Hold.
      { intros m (d' & ps' & Hd' & Hp)%Hpaths. exists d', ps'.
        split; [|done]. intros ?. apply Hd'. by right. }
      case_match; simplify_eq; simpl;
        intros m [Hm|Hm]%elem_of_app; try by apply Hold.
      * destruct (getCapturesFuel_sound _ _ _ _ _ _ _ Hfc Hm)
          as (ps & cs & _ & _ & _ & _ & Heq & _).
        exists d, ps. split; [done|]. rewrite Heq. simpl.
        by rewrite <-app_assoc.
      * apply list_elem_of_singleton in Hm as ->. by exists d, [].
    + simplify_eq. simpl. intros m (d' & ps' & Hd' & Hp)%Hpaths.
      exists d', ps'. split; [|done]. intros ?. apply Hd'. by right.
Qed.

Lemma getCapturesFuel_NoDup fuel : ∀ b pos piece cur ms,
  getCapturesFuel fuel b pos piece cur = Ok ms → NoDup ms.
Proof.
  induction fuel as [|fuel' IH]; intros b pos piece cur ms; [done|].
  rewrite getCapturesFuel_S.
  intros ([moves found] & Hloop & Hret)%bind_Ok. simpl in Hret.
  case_match; simplify_eq; [apply NoDup_singleton|].
  apply (captureLoop_NoDup fuel' b pos piece cur (λ _ _, IH _ _ _)
           _ _ _ (NoDup_getDirections piece) Hloop); simpl.
  - constructor.
  - by intros m ?%elem_of_nil.
Qed.

Lemma getCapturesFuel_from fuel b pos piece ms m :
  getCapturesFuel fuel b pos piece None = Ok ms → m ∈ ms → from m = pos.
Proof.
  intros Hms Hm.
  by destruct (getCapturesFuel_sound _ _ _ _ _ _ _ Hms Hm)
    as (ps & cs & _ & _ & _ & _ & -> & _).
Qed.

(** The loop of [getSimpleMovesForPiece] over the directions that are
    left. *)
Lemma simpleLoop_NoDup b pos : ∀ ds ms ms',
  NoDup ds →
  forOf (λ moves d,
    let target := mkPos (row pos + d.1) (col pos + d.2) in
    if offBoard target then Ok moves
    else
      t ← readCell b (row target) (col target);
      match t with
      | Null => Ok (moves ++ [mkMove pos [target] []])
      | _ => Ok moves
      end) ds ms = Ok ms' →
  NoDup ms →
  (∀ m, m ∈ ms → ∃ d, (d ∉ ds) ∧ m = mkMove pos [enemyOf pos d] []) →
  NoDup ms' ∧ ∀ m, m ∈ ms' → from m = pos.
Proof.
  intros ds. induction ds as [|d ds IH]; intros ms ms' Hnd Hrun Hms Hdirs.
  { simpl in Hrun. simplify_eq. split; [done|].
    by intros m (d & _ & ->)%Hdirs. }
  apply NoDup_cons in Hnd as [Hd Hnd].
  simpl in Hrun. apply bind_Ok in Hrun as (ms1 & Hstep & Hrest).
  assert (∀ m, m ∈ ms → ∃ d', (d' ∉ ds) ∧ m = mkMove pos [enemyOf pos d'] [])
    as Hold.
  { intros m (d' & Hd' & ->)%Hdirs. exists d'. split; [|done].
    intros ?. apply Hd'. by right. }
  assert (ms1 = ms ∨ ms1 = ms ++ [mkMove pos [enemyOf pos d] []]) as Hms1.
  { destruct (offBoard _); [left; by simplify_eq|].
    apply bind_Ok in Hstep as (t & _ & Ht).
    destruct t; simplify_eq; eauto. }
  apply (IH ms1 ms' Hnd Hrest); destruct Hms1 as [-> | ->]; try done.
  - apply NoDup_app. split; [done|]. split; [|apply NoDup_singleton].
    intros m (d' & Hd' & ->)%Hdirs Heq%list_elem_of_singleton.
    assert (enemyOf pos d' = enemyOf pos d) as ->%enemyOf_inj by congruence.
    apply Hd'. by left.
  - intros m [Hm|Hm%list_elem_of_singleton]%elem_of_app; [by apply Hold|].
    by exists d.
Qed.

Lemma getSimpleMovesForPiece_NoDup b pos piece ms :
  getSimpleMovesForPiece b pos piece = Ok ms →
  NoDup ms ∧ ∀ m, m ∈ ms → from m = pos.
Proof.
  intros Hms.
  apply (simpleLoop_NoDup b pos _ _ _ (NoDup_getDirections piece) Hms).
  - constructor.
  - by intros m ?%elem_of_nil.
Qed.

(** Lists of moves of pieces on different squares, put together. *)
Lemma NoDup_concat_keys {K A} (key : A → K) (ks : list K) (mss : list (list A)) :
  NoDup ks →
  Forall2 (λ k ms, NoDup ms ∧ ∀ m, m ∈ ms → key m = k) ks mss →
  NoDup (concat mss) ∧ ∀ m, m ∈ concat mss → key m ∈ ks.
Proof.
  intros Hnd Hall. induction Hall as [|k ms ks mss [Hms Hkey] _ IH]; simpl.
  { split; [constructor|]. by intros m ?%elem_of_nil. }
  apply NoDup_cons in Hnd as [Hk Hnd]. destruct (IH Hnd) as [IH1 IH2].
  split.
  - apply NoDup_app. split; [done|]. split; [|done].
    intros m Hm%Hkey Hin%IH2. congruence.
  - intros m [Hm%Hkey|Hm%IH2]%elem_of_app; [rewrite Hm; by left|by right].
Qed.

Lemma piecesOf_NoDup b turn : NoDup ((piecesOf b turn).*1).
Proof.
  unfold piecesOf.
  assert (NoDup squares) as Hsq by (by apply (bool_decide_unpack _)).
  induction Hsq as [|rc sq Hrc _ IH]; simpl; [constructor|].
  destruct (pieceAt b turn rc) as [[pos p]|] eqn:Hp; [|done].
  simpl. constructor; [|done].
  intros ([pos' p'] & Hpos & Hin)%list_elem_of_fmap. simpl in Hpos. subst pos'.
  apply list_elem_of_omap in Hin as (rc' & Hrc' & Hp').
  apply pieceAt_Some in Hp as (-> & _), Hp' as (Heq & _).
  injection Heq as ??. apply Hrc. by destruct rc, rc'; simplify_eq/=.
Qed.

Lemma getAllowedMovesForBoard_NoDup b turn l :
  wfBoard b → getAllowedMovesForBoard b turn = Ok l → NoDup l.
Proof.
  intros Hwf Hl.
  destruct (getAllowedMovesForBoard_spec b turn Hwf)
    as (caps & simples & Hc & Hs & Hl').
  rewrite Hl in Hl'. injection Hl' as ->.
  case_decide.
  - apply (NoDup_concat_keys from ((piecesOf b turn).*1) simples);
      [apply piecesOf_NoDup|].
    apply Forall2_fmap_l. eapply Forall2_impl; [done|].
    intros [pos p] ms Hms. by apply getSimpleMovesForPiece_NoDup in Hms.
  - apply (NoDup_concat_keys from ((piecesOf b turn).*1) caps);
      [apply piecesOf_NoDup|].
    apply Forall2_fmap_l. eapply Forall2_impl; [done|].
    intros [pos p] ms Hms. simpl in *. split.
    + by eapply getCapturesFuel_NoDup.
    + intros m Hm. by eapply getCapturesFuel_from.
Qed.

(** ** Further properties of the program *)

(** X1 (equality of moves).  [compareMoves] returns for every two moves,
    and its answer is [true] exactly when they are the same move: the same
    origin, the same path and the same captures, square by square and in
    the same order. *)
Theorem compareMoves_eq (m1 m2 : CheckersMove) :
  ∃ r, compareMoves m1 m2 = Ok r ∧ (r = true ↔ m1 = m2).
Proof.
  exists (bool_decide (m1 = m2)). split; [apply compareMoves_decide|].
  apply bool_decide_eq_true.
Qed.

(** X2 (a move that is not legal).  When the move is not in the list of
    legal moves of the side to move, [validateMove] answers [false] and
    [move] returns [false], leaves the board and the turn as they were
    and emits no event. *)
Theorem move_rejects_illegal g l mv :
  getAllowedMovesForBoard (_board g) (_turn g) = Ok l → mv ∉ l →
  Game.validateMove g mv = Ok false ∧ Game.move g mv = Ok (false, g, []).
Proof.
  intros Hl Hmv. split; [|by eapply move_rejected].
  rewrite (validateMove_spec g l mv Hl). by rewrite bool_decide_eq_false_2.
Qed.

Lemma move_rejects_illegal_witness :
  Game.validateMove reset (mkMove (mkPos 5 0) [mkPos 3 2] []) = Ok false ∧
  Game.move reset (mkMove (mkPos 5 0) [mkPos 3 2] [])
    = Ok (false, reset, []).
Proof.
  eapply (move_rejects_illegal reset).
  - vm_compute. reflexivity.
  - apply (bool_decide_unpack _). vm_compute. exact I.
Defined.

(** X3 (a legal move).  When the move is in the list of legal moves,
    [move] returns [true]; the board of the session becomes the board
    [updateBoard] returns for that move, although [move] clears the
    captured squares before the origin and promotes with
    [_promoteIfNeeded]; the turn passes to the other color, and one
    [stateChange] event carries the snapshot of the new state. *)
Theorem move_applies_updateBoard g l mv :
  wfBoard (_board g) →
  getAllowedMovesForBoard (_board g) (_turn g) = Ok l → mv ∈ l →
  ∃ b' s,
    updateBoard (_board g) mv = Ok b' ∧ wfBoard b' ∧
    Game.getCurrentState (mkCheckers b' (opposite (_turn g))) = Ok s ∧
    Game.move g mv = Ok (true, mkCheckers b' (opposite (_turn g)), [s]).
Proof. apply move_accepted. Qed.

Lemma move_applies_updateBoard_witness :
  ∃ b' s,
    updateBoard (_board reset) (mkMove (mkPos 5 0) [mkPos 4 1] []) = Ok b' ∧
    wfBoard b' ∧
    Game.getCurrentState (mkCheckers b' (opposite (_turn reset))) = Ok s ∧
    Game.move reset (mkMove (mkPos 5 0) [mkPos 4 1] [])
      = Ok (true, mkCheckers b' (opposite (_turn reset)), [s]).
Proof.
  eapply (move_applies_updateBoard reset).
  - split; [reflexivity|repeat constructor].
  - vm_compute. reflexivity.
  - apply (bool_decide_unpack _). vm_compute. exact I.
Defined.

(** X4 (captures are mandatory in a session).  While some piece of the
    side to move has a jump available on the board of the session,
    [move] refuses every move without captures: it returns [false] and
    the session is unchanged. *)
Theorem move_enforces_capture g mv :
  wfBoard (_board g) → captureAvailable (_board g) (_turn g) →
  captures mv = [] →
  Game.move g mv = Ok (false, g, []).
Proof.
  intros Hwf Hav Hc.
  destruct (allowed_rules (_board g) (_turn g) (wfBoard_rows _ Hwf))
    as (l & Hl & Hspec).
  eapply move_rejected; [done|].
  intros [Hcap%captureMove_shape|[Hno _]]%Hspec; done.
Qed.

Lemma move_enforces_capture_witness :
  canJump edgeBoard (mkPos 3 5) (mkPiece red man) (-1, 1) ∧
  stepMove edgeBoard red (mkMove (mkPos 3 5) [mkPos 2 4] []) ∧
  Game.move (mkCheckers edgeBoard red) (mkMove (mkPos 3 5) [mkPos 2 4] [])
    = Ok (false, mkCheckers edgeBoard red, []).
Proof.
  assert (canJump edgeBoard (mkPos 3 5) (mkPiece red man) (-1, 1)) as Hcan
    by by_evaluation.
  split; [done|]. split.
  { exists (mkPiece red man), (-1, -1).
    split; [by_evaluation|]. split; [by_evaluation|reflexivity]. }
  apply (move_enforces_capture (mkCheckers edgeBoard red)
           (mkMove (mkPos 3 5) [mkPos 2 4] [])).
  - split; [reflexivity|repeat constructor].
  - exists (mkPos 3 5), (mkPiece red man), (-1, 1).
    split; [by_evaluation|done].
  - reflexivity.
Defined.

(** X5 (a session never breaks).  From a session whose board is an 8 by
    8 grid, any sequence of calls of [move], legal or not, returns
    without an exception; the board is still an 8 by 8 grid, neither
    color has more pieces than before, and the turn has passed as many
    times as moves were accepted. *)
Theorem play_safe g mvs :
  wfBoard (_board g) →
  ∃ g' oks,
    play g mvs = Ok (g', oks) ∧ wfBoard (_board g') ∧
    length oks = length mvs ∧
    (opponents red (_board g') ≤ opponents red (_board g))%nat ∧
    (opponents black (_board g') ≤ opponents black (_board g))%nat ∧
    _turn g' = if Nat.even (accepted oks) then _turn g else opposite (_turn g).
Proof.
  revert g. induction mvs as [|mv mvs IH]; intros g Hwf.
  { exists g, []. by split_and!. }
  destruct (getAllowedMovesForBoard_elem _ (_turn g) Hwf) as (l & Hl & _).
  cbn [play]. destruct (decide (mv ∈ l)) as [Hmv|Hmv].
  - destruct (move_accepted g l mv Hwf Hl Hmv) as (b' & s & Hu & Hwf' & _ & ->).
    destruct (allowed_legalShape _ _ _ _ Hwf Hl Hmv) as (piece & fin & Hshape).
    destruct (legalShape_counts _ _ _ _ _ _ Hshape Hu) as [Hc1 Hc2].
    destruct (IH (mkCheckers b' (opposite (_turn g))) Hwf')
      as (g' & oks & Hplay & ? & ? & Hr & Hb & Ht).
    cbn [mbind Res_bind fst snd]. rewrite Hplay. cbn [mbind Res_bind fst snd].
    exists g', (true :: oks). rewrite accepted_cons.
    cbn [_board _turn length] in *. split_and!; try done.
    + by f_equal.
    + unfold opposite in *. destruct (_turn g); simpl in *; lia.
    + unfold opposite in *. destruct (_turn g); simpl in *; lia.
    + rewrite Nat.even_succ, <-Nat.negb_even, Ht. unfold opposite.
      destruct (Nat.even _), (_turn g); done.
  - rewrite (move_rejected g l mv Hl Hmv).
    destruct (IH g Hwf) as (g' & oks & Hplay & ? & ? & Hr & Hb & Ht).
    cbn [mbind Res_bind fst snd]. rewrite Hplay. cbn [mbind Res_bind fst snd].
    exists g', (false :: oks). rewrite accepted_cons.
    cbn [length]. split_and!; try done. by f_equal.
Qed.

Lemma play_safe_witness :
  ∃ g' oks,
    play reset [mkMove (mkPos 5 0) [mkPos 4 1] [];
                mkMove (mkPos 5 2) [mkPos 4 3] [];
                mkMove (mkPos 2 1) [mkPos 3 2] []] = Ok (g', oks) ∧
    wfBoard (_board g') ∧
    length oks = 3%nat ∧
    (opponents red (_board g') ≤ opponents red (_board reset))%nat ∧
    (opponents black (_board g') ≤ opponents black (_board reset))%nat ∧
    _turn g' = if Nat.even (accepted oks) then _turn reset
               else opposite (_turn reset).
Proof.
  apply (play_safe reset).
  split; [reflexivity|repeat constructor].
Defined.

(** X6 (the shuffle).  [shuffle] returns a permutation of its argument,
    whatever the draws, and takes one draw for each element but one. *)
Theorem shuffle_permutation {A} (l : list A) (g : Rng) :
  (shuffle l g).1 ≡ₚ l ∧
  ∀ n, (shuffle l g).2 n = g (length l - 1 + n)%nat.
Proof. apply shuffleFrom_Permutation. Qed.

(** X7 (what the search computes).  On an 8 by 8 board [minimax]
    returns the value of the position at that depth: the static
    evaluation at depth 0 or without a legal move, otherwise the largest
    (when maximizing) or the least (when minimizing) of the values of the
    positions after each legal move; the move it returns leads to a
    position of that value. *)
Theorem minimax_returns_value depth b isMax turn p g :
  wfBoard b →
  ∃ s mv g',
    minimax b depth isMax turn p g = Ok (mkResult (Finite s) mv, g') ∧
    minimaxValue depth b isMax turn p s ∧
    (∀ m, mv = Some m →
       ∃ depth' nb, depth = S depth' ∧ updateBoard b m = Ok nb ∧
         minimaxValue depth' nb (negb isMax) (opposite turn) p s).
Proof. apply minimax_value. Qed.

Lemma minimax_returns_value_witness :
  ∃ s mv g',
    minimax doubleJumpBoard 2 true red red (λ n, n)
      = Ok (mkResult (Finite s) mv, g') ∧
    minimaxValue 2 doubleJumpBoard true red red s ∧
    (∀ m, mv = Some m →
       ∃ depth' nb, 2%nat = S depth' ∧ updateBoard doubleJumpBoard m = Ok nb ∧
         minimaxValue depth' nb (negb true) (opposite red) red s).
Proof.
  apply (minimax_returns_value 2 doubleJumpBoard true red red (λ n, n)).
  split; [reflexivity|repeat constructor].
Defined.

(** X8 (the score does not depend on the draws).  The shuffle changes
    which of several best moves is returned, never the score: on an 8 by
    8 board the score of [minimax] is the same for every stream of random
    draws. *)
Theorem minimax_score_ignores_draws depth b isMax turn p :
  wfBoard b →
  ∃ v, ∀ g, ∃ mv g',
    minimax b depth isMax turn p g = Ok (mkResult (Finite v) mv, g').
Proof.
  intros Hwf.
  destruct (minimax_value depth b isMax turn p (λ _, 0%nat) Hwf)
    as (v & _ & _ & _ & Hv & _).
  exists v. intros g.
  destruct (minimax_value depth b isMax turn p g Hwf)
    as (v' & mv & g' & Hrun & Hv' & _).
  rewrite (minimaxValue_unique _ _ _ _ _ _ _ Hv Hv'). eauto.
Qed.

Lemma minimax_score_ignores_draws_witness :
  ∃ v, ∀ g, ∃ mv g',
    minimax initialBoard 1 true red red g = Ok (mkResult (Finite v) mv, g').
Proof.
  apply (minimax_score_ignores_draws 1 initialBoard true red red).
  split; [reflexivity|repeat constructor].
Defined.

(** X9 (zero sum).  Searching the same position for the other
    perspective with the roles of maximizer and minimizer exchanged gives
    the opposite score. *)
Theorem minimax_zero_sum depth b isMax turn p g1 g2 :
  wfBoard b →
  ∃ v m1 g1' m2 g2',
    minimax b depth isMax turn p g1 = Ok (mkResult (Finite v) m1, g1') ∧
    minimax b depth (negb isMax) turn (opposite p) g2
      = Ok (mkResult (Finite (- v)) m2, g2').
Proof.
  intros Hwf.
  destruct (minimax_value depth b isMax turn p g1 Hwf)
    as (v & m1 & g1' & Hrun1 & Hv & _).
  destruct (minimax_value depth b (negb isMax) turn (opposite p) g2 Hwf)
    as (v' & m2 & g2' & Hrun2 & Hv' & _).
  apply minimaxValue_negate in Hv.
  rewrite (minimaxValue_unique _ _ _ _ _ _ _ Hv' Hv) in Hrun2.
  by exists v, m1, g1', m2, g2'.
Qed.

Lemma minimax_zero_sum_witness :
  ∃ v m1 g1' m2 g2',
    minimax mixedBoard 2 true red red (λ n, n)
      = Ok (mkResult (Finite v) m1, g1') ∧
    minimax mixedBoard 2 (negb true) red (opposite red) (λ n, (2 * n)%nat)
      = Ok (mkResult (Finite (- v)) m2, g2').
Proof.
  apply (minimax_zero_sum 2 mixedBoard true red red).
  split; [reflexivity|repeat constructor].
Defined.

(** X10 (men move forward).  In every legal move of a man, each square
    of the path is in a row ahead of the square before it, starting from
    the origin: rows decrease for a red man and increase for a black
    man, in simple moves and in every jump of a chain. *)
Theorem men_move_forward b turn l m piece :
  wfBoard b → getAllowedMovesForBoard b turn = Ok l → m ∈ l →
  cellAt b (from m) = Some (Some piece) → type piece = man →
  forwardRows turn (from m) (path m).
Proof.
  intros Hwf Hl Hm Hfrom Hman.
  destruct (getAllowedMovesForBoard_elem b turn Hwf) as (l' & Hl' & Hspec).
  assert (l' = l) as -> by congruence.
  apply Hspec in Hm as [(p & b' & pos' & Hc & Hcol & Hch & _)|[_ Hs]].
  - assert (p = piece) as -> by congruence. rewrite <-Hcol.
    eapply hops_forward; [done|]. by eapply chain_hops.
  - destruct Hs as (p & Hc & Hcol & (d & Hd & _ & _ & Hm)).
    assert (p = piece) as -> by congruence. rewrite <-Hcol.
    pose proof (man_direction piece d Hman Hd) as Hd1.
    rewrite Hm. simpl. split; [|done].
    destruct (color piece); lia.
Qed.

Lemma men_move_forward_witness :
  forwardRows red (mkPos 5 2) [mkPos 3 4; mkPos 1 2].
Proof.
  apply (men_move_forward doubleJumpBoard red
           [mkMove (mkPos 5 2) [mkPos 3 4; mkPos 1 2] [mkPos 4 3; mkPos 2 3]]
           (mkMove (mkPos 5 2) [mkPos 3 4; mkPos 1 2] [mkPos 4 3; mkPos 2 3])
           (mkPiece red man)).
  - split; [reflexivity|repeat constructor].
  - vm_compute. reflexivity.
  - apply (bool_decide_unpack _). vm_compute. exact I.
  - reflexivity.
  - reflexivity.
Defined.

(** X11 (the squares of a legal move).  For every legal move on an 8 by
    8 board: the origin holds a piece of the side to move; the path and
    the captures are on the board; no square is captured twice, and
    every captured square holds a piece of the other color on that
    board; every square of the path is empty on that board or is the
    origin; and the move captures no more pieces than the other color
    has. *)
Theorem legal_move_squares b turn l m :
  wfBoard b → getAllowedMovesForBoard b turn = Ok l → m ∈ l →
  ∃ piece fin,
    legalShape b turn m piece fin ∧
    (length (captures m) ≤ opponents turn b)%nat.
Proof.
  intros Hwf Hl Hm.
  destruct (allowed_legalShape _ _ _ _ Hwf Hl Hm) as (piece & fin & Hshape).
  destruct (allowed_applicable _ _ _ _ Hwf Hl Hm) as (b' & Hu & _).
  destruct (legalShape_counts _ _ _ _ _ _ Hshape Hu) as [Hc _].
  exists piece, fin. split; [done|]. lia.
Qed.

Lemma legal_move_squares_witness :
  ∃ piece fin,
    legalShape circuitBoard red
      (mkMove (mkPos 4 1)
         [mkPos 2 3; mkPos 4 5; mkPos 6 3; mkPos 4 1]
         [mkPos 3 2; mkPos 3 4; mkPos 5 4; mkPos 5 2]) piece fin ∧
    (length (captures
       (mkMove (mkPos 4 1)
         [mkPos 2 3; mkPos 4 5; mkPos 6 3; mkPos 4 1]
         [mkPos 3 2; mkPos 3 4; mkPos 5 4; mkPos 5 2]))
     ≤ opponents red circuitBoard)%nat.
Proof.
  eapply (legal_move_squares circuitBoard red).
  - split; [reflexivity|repeat constructor].
  - vm_compute. reflexivity.
  - apply (bool_decide_unpack _). vm_compute. exact I.
Defined.

(** X12 (the simulation and the committed move agree).  For a legal
    capture move, the board on which the generator ended the chain is
    the board [updateBoard] returns, up to the promotion of the piece on
    the final square: writing the promoted piece there gives the board
    of [updateBoard], and the two boards are equal when the piece is not
    promoted. *)
Theorem simulation_agrees_with_updateBoard b turn l m :
  wfBoard b → getAllowedMovesForBoard b turn = Ok l → m ∈ l →
  captures m ≠ [] →
  ∃ piece b' pos' b'',
    cellAt b (from m) = Some (Some piece) ∧
    chain piece b (from m) (path m) (captures m) b' pos' ∧
    updateBoard b m = Ok b'' ∧
    writeCell b' (row pos') (col pos')
      (Some (_promoteIfNeeded piece (row pos'))) = Ok b'' ∧
    (type piece = king ∨ ¬ reachesBackRank piece pos' → b'' = b').
Proof.
  intros Hwf Hl Hm Hcap.
  destruct (getAllowedMovesForBoard_elem b turn Hwf) as (l' & Hl' & Hspec).
  assert (l' = l) as -> by congruence.
  apply Hspec in Hm as [(p & b' & pos' & Hc & Hcol & Hch & _ & Hne)
                       |[_ [? _]%simpleOf_captures]]; [|done].
  assert (inGrid (from m)) as Hfrom.
  { apply (cellAt_inGrid b); [done|]. by rewrite Hc. }
  destruct (chain_wf _ _ _ _ _ _ _ Hch Hwf Hfrom) as [Hwf' Hpos'].
  destruct (chain_inGrid _ _ _ _ _ _ _ Hch Hwf) as [_ Hcs].
  pose proof (chain_last_path _ _ _ _ _ _ _ Hch Hne) as Hlast.
  destruct (updateBoard_spec b m p pos' Hwf Hc Hcs Hlast Hpos')
    as (b'' & Hu & Hwf'' & Hcells).
  pose proof (chain_board _ _ _ _ _ _ _ Hch Hne) as Hsim.
  destruct (writeCell_Ok b' (row pos') (col pos')
              (Some (_promoteIfNeeded p (row pos')))) as [b3 H3].
  { by apply (wfBoard_cellAt b' pos'). }
  assert (b3 = b'') as ->.
  { apply board_ext; [by eapply writeCell_wf|done|]. intros q.
    rewrite (cellAt_writeCell _ _ _ _ _ H3), Hcells, Hsim.
    by repeat case_decide. }
  exists p, b', pos', b''. split_and!; try done.
  intros Hid. apply board_ext; [done..|]. intros q.
  rewrite Hcells, Hsim, (promote_id _ _ Hid). by repeat case_decide.
Qed.

Lemma simulation_agrees_with_updateBoard_witness :
  ∃ piece b' pos' b'',
    cellAt backRankBoard (mkPos 2 1) = Some (Some piece) ∧
    chain piece backRankBoard (mkPos 2 1) [mkPos 0 3] [mkPos 1 2] b' pos' ∧
    updateBoard backRankBoard (mkMove (mkPos 2 1) [mkPos 0 3] [mkPos 1 2])
      = Ok b'' ∧
    writeCell b' (row pos') (col pos')
      (Some (_promoteIfNeeded piece (row pos'))) = Ok b'' ∧
    (type piece = king ∨ ¬ reachesBackRank piece pos' → b'' = b').
Proof.
  eapply (simulation_agrees_with_updateBoard backRankBoard red _
            (mkMove (mkPos 2 1) [mkPos 0 3] [mkPos 1 2])).
  - split; [reflexivity|repeat constructor].
  - vm_compute. reflexivity.
  - apply (bool_decide_unpack _). vm_compute. exact I.
  - simpl. discriminate.
Defined.

(** X13 (a legal move and the number of pieces).  Applying a legal
    move with [updateBoard] takes exactly the captured pieces off the
    board: the other color has as many pieces fewer as the move has
    captures, and the side that moved has as many pieces as before. *)
Theorem legal_move_piece_counts b turn l m :
  wfBoard b → getAllowedMovesForBoard b turn = Ok l → m ∈ l →
  ∃ b', updateBoard b m = Ok b' ∧ wfBoard b' ∧
    (opponents turn b' + length (captures m) = opponents turn b)%nat ∧
    opponents (opposite turn) b' = opponents (opposite turn) b.
Proof.
  intros Hwf Hl Hm.
  destruct (allowed_legalShape _ _ _ _ Hwf Hl Hm) as (piece & fin & Hshape).
  destruct (allowed_applicable _ _ _ _ Hwf Hl Hm) as (b' & Hu & Hwf').
  destruct (legalShape_counts _ _ _ _ _ _ Hshape Hu) as [Hc1 Hc2].
  by exists b'.
Qed.

Lemma legal_move_piece_counts_witness :
  ∃ b',
    updateBoard doubleJumpBoard
      (mkMove (mkPos 5 2) [mkPos 3 4; mkPos 1 2] [mkPos 4 3; mkPos 2 3])
      = Ok b' ∧ wfBoard b' ∧
    (opponents red b' + 2 = opponents red doubleJumpBoard)%nat ∧
    opponents (opposite red) b' = opponents (opposite red) doubleJumpBoard.
Proof.
  eapply (legal_move_piece_counts doubleJumpBoard red _
            (mkMove (mkPos 5 2) [mkPos 3 4; mkPos 1 2] [mkPos 4 3; mkPos 2 3])).
  - split; [reflexivity|repeat constructor].
  - vm_compute. reflexivity.
  - apply (bool_decide_unpack _). vm_compute. exact I.
Defined.

(** X14 (a legal move and the evaluation).  After a legal move the
    evaluation from the point of view of the side that moved is the
    evaluation before, plus the value of the captured pieces, plus 40
    when the move promotes a man; it is never lower than before. *)
Theorem legal_move_material b turn l m :
  wfBoard b → getAllowedMovesForBoard b turn = Ok l → m ∈ l →
  ∃ piece fin b' v,
    cellAt b (from m) = Some (Some piece) ∧ last (path m) = Some fin ∧
    updateBoard b m = Ok b' ∧
    evaluateBoard b turn = Ok v ∧
    evaluateBoard b' turn =
      Ok (v + capturedValue b (captures m) + promotionGain piece fin) ∧
    0 ≤ capturedValue b (captures m) ∧
    promotionGain piece fin =
      (if decide (type piece = man ∧ reachesBackRank piece fin)
       then 40 else 0).
Proof.
  intros Hwf Hl Hm.
  destruct (allowed_legalShape _ _ _ _ Hwf Hl Hm) as (piece & fin & Hshape).
  destruct (allowed_applicable _ _ _ _ Hwf Hl Hm) as (b' & Hu & Hwf').
  pose proof (legalShape_material _ _ _ _ _ _ Hshape Hu) as Hmat.
  destruct Hshape as (Hfrom & Hcol & Hlast & _ & _ & _ & _ & Hen & _).
  destruct (captured_enemyWeight b turn _ Hen) as (_ & _ & _ & Hpos).
  exists piece, fin, b', (material b turn). split_and!; try done.
  - by apply evaluateBoard_material.
  - by rewrite evaluateBoard_material, Hmat.
  - apply promotionGain_value.
Qed.

Lemma legal_move_material_witness :
  ∃ piece fin b' v,
    cellAt backRankBoard (mkPos 2 1) = Some (Some piece) ∧
    last [mkPos 0 3] = Some fin ∧
    updateBoard backRankBoard (mkMove (mkPos 2 1) [mkPos 0 3] [mkPos 1 2])
      = Ok b' ∧
    evaluateBoard backRankBoard red = Ok v ∧
    evaluateBoard b' red =
      Ok (v + capturedValue backRankBoard [mkPos 1 2]
          + promotionGain piece fin) ∧
    0 ≤ capturedValue backRankBoard [mkPos 1 2] ∧
    promotionGain piece fin =
      (if decide (type piece = man ∧ reachesBackRank piece fin)
       then 40 else 0).
Proof.
  eapply (legal_move_material backRankBoard red _
            (mkMove (mkPos 2 1) [mkPos 0 3] [mkPos 1 2])).
  - split; [reflexivity|repeat constructor].
  - vm_compute. reflexivity.
  - apply (bool_decide_unpack _). vm_compute. exact I.
Defined.

(** X15 (what [updateBoard] changes).  For a move whose origin holds a
    piece and whose captured and final squares are on an 8 by 8 board,
    legal or not, [updateBoard] returns an 8 by 8 board that differs from
    its argument on the origin, the captured squares and the final
    square only: the final square holds the piece, promoted if needed;
    the captured squares and the origin are empty, unless one of them is
    the final square, which is written last. *)
Theorem updateBoard_frame b m piece fin :
  wfBoard b →
  cellAt b (from m) = Some (Some piece) →
  Forall inGrid (captures m) →
  last (path m) = Some fin → inGrid fin →
  ∃ b', updateBoard b m = Ok b' ∧ wfBoard b' ∧
    cellAt b' fin = Some (Some (_promoteIfNeeded piece (row fin))) ∧
    (∀ q, q ∈ captures m → q ≠ fin → cellAt b' q = Some None) ∧
    (from m ≠ fin → cellAt b' (from m) = Some None) ∧
    (∀ q, q ≠ fin → q ≠ from m → q ∉ captures m → cellAt b' q = cellAt b q).
Proof.
  intros Hwf Hfrom Hcaps Hlast Hfin.
  destruct (updateBoard_spec b m piece fin Hwf Hfrom Hcaps Hlast Hfin)
    as (b' & Hu & Hwf' & Hcells).
  exists b'. split_and!; try done.
  - by rewrite Hcells, decide_True.
  - intros q Hq Hne. by rewrite Hcells, decide_False, decide_True.
  - intros Hne. rewrite Hcells, decide_False by done.
    by repeat case_decide.
  - intros q ???. by rewrite Hcells, !decide_False.
Qed.

Lemma updateBoard_frame_witness :
  ∃ b',
    updateBoard doubleJumpBoard
      (mkMove (mkPos 5 2) [mkPos 5 2] [mkPos 4 3; mkPos 0 0; mkPos 5 2])
      = Ok b' ∧ wfBoard b' ∧
    cellAt b' (mkPos 5 2)
      = Some (Some (_promoteIfNeeded (mkPiece red man) 5)) ∧
    (∀ q, q ∈ [mkPos 4 3; mkPos 0 0; mkPos 5 2] → q ≠ mkPos 5 2 →
       cellAt b' q = Some None) ∧
    (mkPos 5 2 ≠ mkPos 5 2 → cellAt b' (mkPos 5 2) = Some None) ∧
    (∀ q, q ≠ mkPos 5 2 → q ≠ mkPos 5 2 →
       q ∉ [mkPos 4 3; mkPos 0 0; mkPos 5 2] →
       cellAt b' q = cellAt doubleJumpBoard q).
Proof.
  apply (updateBoard_frame doubleJumpBoard
           (mkMove (mkPos 5 2) [mkPos 5 2] [mkPos 4 3; mkPos 0 0; mkPos 5 2])
           (mkPiece red man) (mkPos 5 2)).
  - split; [reflexivity|repeat constructor].
  - reflexivity.
  - repeat constructor; simpl; lia.
  - reflexivity.
  - repeat constructor; simpl; lia.
Defined.

(** X16 (edge cases of [updateBoard]).  When the row of the origin is
    not in the board, [updateBoard] throws a [TypeError].  When the row
    is there and the origin holds no piece, it returns an equal board
    and ignores the path and the captures, whatever they are.  When the
    origin holds a piece and the path is empty, it throws a
    [TypeError]. *)
Theorem updateBoard_edge_cases b m :
  (zget b (row (from m)) = None → updateBoard b m = Err TypeError) ∧
  (is_Some (zget b (row (from m))) →
   (∀ p, cellAt b (from m) ≠ Some (Some p)) → updateBoard b m = Ok b) ∧
  (∀ piece, wfBoard b → cellAt b (from m) = Some (Some piece) →
     Forall inGrid (captures m) → path m = [] →
     updateBoard b m = Err TypeError).
Proof.
  split_and!.
  - intros Hrow. unfold updateBoard, readCell.
    by rewrite cloneBoard_id, Hrow.
  - intros [cells Hrow] Hno. unfold updateBoard, readCell.
    rewrite cloneBoard_id, Hrow. simpl.
    destruct (zget cells (col (from m))) as [[p|]|] eqn:Hc; try done.
    destruct (Hno p). unfold cellAt, cell. by rewrite Hrow.
  - intros piece Hwf Hfrom Hcaps Hpath. unfold updateBoard.
    rewrite cloneBoard_id, (readCell_cell _ _ _ _ Hfrom). simpl.
    destruct (writeCell_Ok b (row (from m)) (col (from m)) None) as [b1 H1].
    { fold (cellAt b (from m)). by rewrite Hfrom. }
    rewrite H1. simpl.
    destruct (clearCaptures_spec (captures m) b1) as (b2 & -> & _);
      [by eapply writeCell_wf|done|].
    simpl. by rewrite Hpath.
Qed.

Lemma updateBoard_edge_cases_witness :
  updateBoard [] (mkMove (mkPos 0 0) [mkPos 1 1] []) = Err TypeError ∧
  updateBoard initialBoard (mkMove (mkPos 3 0) [mkPos 9 9] [mkPos 8 8])
    = Ok initialBoard ∧
  updateBoard initialBoard (mkMove (mkPos 5 0) [] []) = Err TypeError.
Proof.
  split_and!.
  - by apply (proj1 (updateBoard_edge_cases []
                       (mkMove (mkPos 0 0) [mkPos 1 1] []))).
  - apply (proj1 (proj2 (updateBoard_edge_cases initialBoard
                           (mkMove (mkPos 3 0) [mkPos 9 9] [mkPos 8 8])))).
    + vm_compute. eauto.
    + intros p. vm_compute. discriminate.
  - apply (proj2 (proj2 (updateBoard_edge_cases initialBoard
                           (mkMove (mkPos 5 0) [] []))) (mkPiece red man)).
    + split; [reflexivity|repeat constructor].
    + reflexivity.
    + constructor.
    + reflexivity.
Defined.

(** X17 (the capture search with a move so far).  Called with a move
    so far, [getCapturesForPiece] returns, on an 8 by 8 board, exactly
    the extensions of that move by the sequences of jumps from [pos],
    each available on the board the jumps before it leave, after which
    no jump is available; the move so far itself is returned only when no
    jump is available from [pos] and it has captures already.  Every
    returned move keeps the origin of the move so far, and its path and
    captures begin with those of the move so far. *)
Theorem captures_extend_current_move b pos piece cur :
  wfBoard b → inGrid pos →
  ∃ ms, getCapturesForPiece b pos piece cur = Ok ms ∧
    ∀ m, m ∈ ms ↔
      ∃ ps cs b' pos',
        jumps piece b pos ps cs b' pos' ∧ noJump piece b' pos' ∧
        m = extend (startMove pos cur) ps cs ∧
        (ps = [] → captures (startMove pos cur) ≠ []).
Proof.
  intros Hwf Hpos. unfold getCapturesForPiece.
  pose proof (wfBoard_rows b Hwf) as Hlen.
  pose proof (wfBoard_cellAt b pos Hwf Hpos) as Hcell.
  destruct (getCapturesFuel_total (S (opponents (color piece) b))
              b pos piece cur Hwf Hpos) as [ms Hms]; [lia|].
  exists ms. split; [done|]. intros m. split.
  - intros Hm.
    destruct (getCapturesFuel_sound _ _ _ _ _ _ _ Hms Hm)
      as (ps & cs & b' & pos' & Hch & Hst & -> & Hne).
    destruct (proj1 (chain_stuck_jumps piece b pos ps cs Hlen Hcell))
      as (b2 & p2 & ? & ?); [eauto|]. eauto 10.
  - intros (ps & cs & b' & pos' & Hj & Hno & -> & Hne).
    destruct (proj2 (chain_stuck_jumps piece b pos ps cs Hlen Hcell))
      as (b2 & p2 & Hch & Hst); [eauto|].
    destruct (getCapturesFuel_complete (S (opponents (color piece) b))
                b pos piece cur ps cs b2 p2 Hwf Hpos) as (ms' & Hms' & Hin);
      [lia|done..|].
    congruence.
Qed.

Lemma captures_extend_current_move_witness :
  ∃ ms,
    getCapturesForPiece doubleJumpBoard (mkPos 5 2) (mkPiece red man)
      (Some (mkMove (mkPos 7 0) [mkPos 5 2] [mkPos 6 1])) = Ok ms ∧
    ms = [mkMove (mkPos 7 0) [mkPos 5 2; mkPos 3 4; mkPos 1 2]
                             [mkPos 6 1; mkPos 4 3; mkPos 2 3]] ∧
    ∀ m, m ∈ ms ↔
      ∃ ps cs b' pos',
        jumps (mkPiece red man) doubleJumpBoard (mkPos 5 2) ps cs b' pos' ∧
        noJump (mkPiece red man) b' pos' ∧
        m = extend (mkMove (mkPos 7 0) [mkPos 5 2] [mkPos 6 1]) ps cs ∧
        (ps = [] → [mkPos 6 1] ≠ []).
Proof.
  destruct (captures_extend_current_move doubleJumpBoard (mkPos 5 2)
              (mkPiece red man)
              (Some (mkMove (mkPos 7 0) [mkPos 5 2] [mkPos 6 1])))
    as (ms & Hms & Hspec).
  - split; [reflexivity|repeat constructor].
  - by_evaluation.
  - exists ms. split; [done|]. split; [|done].
    vm_compute in Hms. congruence.
Defined.

(** X18 (the depth of the capture search).  On an 8 by 8 board the
    recursion of [getCapturesForPiece] is never deeper than the number
    of pieces of the other color plus one: the search returns, and any
    larger bound on the depth gives the same list. *)
Theorem capture_search_depth b pos piece cur :
  wfBoard b → inGrid pos →
  ∃ ms, getCapturesForPiece b pos piece cur = Ok ms ∧
    ∀ fuel, (opponents (color piece) b < fuel)%nat →
      getCapturesFuel fuel b pos piece cur = Ok ms.
Proof.
  intros Hwf Hpos. unfold getCapturesForPiece.
  destruct (getCapturesFuel_total (S (opponents (color piece) b))
              b pos piece cur Hwf Hpos) as [ms Hms]; [lia|].
  exists ms. split; [done|]. intros fuel Hfuel.
  eapply getCapturesFuel_mono; [|done]. lia.
Qed.

Lemma capture_search_depth_witness :
  ∃ ms,
    getCapturesForPiece circuitBoard (mkPos 4 1) (mkPiece red king) None
      = Ok ms ∧
    ∀ fuel, (opponents (color (mkPiece red king)) circuitBoard < fuel)%nat →
      getCapturesFuel fuel circuitBoard (mkPos 4 1) (mkPiece red king) None
        = Ok ms.
Proof.
  apply (capture_search_depth circuitBoard (mkPos 4 1) (mkPiece red king) None).
  - split; [reflexivity|repeat constructor].
  - repeat constructor; simpl; lia.
Defined.

(** X19 (boards that are not 8 by 8 and the evaluation).
    [evaluateBoard] throws a [TypeError] exactly when the board has
    fewer than 8 rows.  With 8 rows or more it returns, whatever the
    lengths of the rows, the sum over the 64 squares of the grid of the
    signed values of the pieces on them: a cell that a short row does not
    have counts as an empty square, and cells outside the grid are not
    counted. *)
Theorem evaluateBoard_faults b p :
  ((length b < 8)%nat → evaluateBoard b p = Err TypeError) ∧
  ((8 ≤ length b)%nat →
     evaluateBoard b p =
     Ok (sumZ ((λ rc, cellWeight (signedValue p) b (mkPos rc.1 rc.2))
                 <$> squares))).
Proof.
  rewrite evaluateBoard_unfold. split.
  - destruct (forOf_fault (λ rc : Z * Z, zget b rc.1 = None) TypeError
                (λ value rc, evalCell b p rc.1 value rc.2) squares)
      with (s := 0) as [Herr _].
    + intros v rc _. apply evalCell_fault.
    + intros v rc _. apply evalCell_fault.
    + intros Hlen. apply Herr. apply Exists_exists.
      exists (Z.of_nat (length b), 0). split; [apply squares_elem; lia|].
      simpl. unfold zget. rewrite decide_True by lia.
      apply lookup_ge_None_2. lia.
  - intros Hlen. rewrite evalCells_rows; [done|].
    apply Forall_forall. intros [r c] [Hr _]%squares_elem. simpl.
    apply zget_is_Some. lia.
Qed.

Lemma evaluateBoard_faults_witness :
  evaluateBoard [[RM]; []; []] red = Err TypeError ∧
  evaluateBoard [[RM]; []; []; [NN; BM]; []; []; []; [RK]; [RK; RK]] red
    = Ok 50.
Proof.
  split.
  - apply (proj1 (evaluateBoard_faults [[RM]; []; []] red)). simpl. lia.
  - rewrite (proj2 (evaluateBoard_faults
                      [[RM]; []; []; [NN; BM]; []; []; []; [RK]; [RK; RK]]
                      red)); [|simpl; lia].
    vm_compute. reflexivity.
Defined.



(** X21 (the two models of [updateBoard]).  In any store where [lb] is
    a board of value [bv], however its rows and pieces are shared: when
    the function on values returns a board, [updateBoard] on the store
    returns a reference to a board of that value; when it stops on a
    [TypeError], so does [updateBoard] on the store. *)
Theorem updateBoard_store_agrees (h : list Store.Obj) (lb : nat) bv m :
  Store.boardAt h lb = Some bv →
  (∀ bv', updateBoard bv m = Ok bv' →
     ∃ lb' h', Store.updateBoard lb m h = Store.Return lb' h' ∧
               Store.boardAt h' lb' = Some bv') ∧
  (updateBoard bv m = Err TypeError →
     ∃ h', Store.updateBoard lb m h = Store.Throw TypeError h').
Proof.
  intros Hb. pose proof (updateBoard_refines h lb bv m Hb) as H.
  split.
  - intros bv' Hu. by rewrite Hu in H.
  - intros Hu. rewrite Hu in H. by destruct H as [?|?].
Qed.

Lemma updateBoard_store_agrees_witness :
  (∀ bv', updateBoard sharedBoard (mkMove (mkPos 5 0) [mkPos 4 1] []) = Ok bv' →
     ∃ lb' h',
       Store.updateBoard 3%nat (mkMove (mkPos 5 0) [mkPos 4 1] []) sharedHeap
         = Store.Return lb' h' ∧
       Store.boardAt h' lb' = Some bv') ∧
  (updateBoard sharedBoard (mkMove (mkPos 5 0) [mkPos 4 1] []) = Err TypeError →
     ∃ h',
       Store.updateBoard 3%nat (mkMove (mkPos 5 0) [mkPos 4 1] []) sharedHeap
         = Store.Throw TypeError h').
Proof.
  apply (updateBoard_store_agrees sharedHeap 3%nat sharedBoard
           (mkMove (mkPos 5 0) [mkPos 4 1] [])).
  reflexivity.
Defined.

(** X22 (the snapshot of a session).  On an 8 by 8 board
    [getCurrentState] returns the board, the turn and the list of legal
    moves of the side to move; [isGameOver] is set, and [gameState] is
    [gameOver], exactly when that list is empty, and in that state
    [move] refuses every move. *)
Theorem snapshot_reports_game_over g :
  wfBoard (_board g) →
  ∃ s, Game.getCurrentState g = Ok s ∧
    Game.board s = _board g ∧ Game.turn s = _turn g ∧
    getAllowedMovesForBoard (_board g) (_turn g) = Ok (Game.allowedMoves s) ∧
    (Game.isGameOver s = true ↔ Game.allowedMoves s = []) ∧
    (Game.gameState s = Game.gameOver ↔ Game.allowedMoves s = []) ∧
    (Game.allowedMoves s = [] → ∀ mv, Game.move g mv = Ok (false, g, [])).
Proof.
  intros Hwf. destruct (getCurrentState_wf g Hwf) as (l & Hl & Hs).
  eexists. split; [exact Hs|]. simpl. split_and!; try done.
  - apply bool_decide_eq_true.
  - destruct (decide (l = [])); [done|]. by destruct (decide (_turn g = red)).
  - intros -> mv. eapply move_rejected; [done|]. apply not_elem_of_nil.
Qed.

Lemma snapshot_reports_game_over_witness :
  ∃ s, Game.getCurrentState (mkCheckers doubleJumpBoard black) = Ok s ∧
    Game.board s = doubleJumpBoard ∧ Game.turn s = black ∧
    getAllowedMovesForBoard doubleJumpBoard black = Ok (Game.allowedMoves s) ∧
    (Game.isGameOver s = true ↔ Game.allowedMoves s = []) ∧
    (Game.gameState s = Game.gameOver ↔ Game.allowedMoves s = []) ∧
    (Game.allowedMoves s = [] →
     ∀ mv, Game.move (mkCheckers doubleJumpBoard black) mv
           = Ok (false, mkCheckers doubleJumpBoard black, [])).
Proof.
  apply (snapshot_reports_game_over (mkCheckers doubleJumpBoard black)).
  split; [reflexivity|repeat constructor].
Defined.

(** X23 (the move of the search can be played).  On a session with an
    8 by 8 board [bestMove] returns, at every depth and for every stream
    of draws, and [move] accepts the move it returns: the answer is
    [true] and the turn passes. *)
Theorem bestMove_is_playable g depth rng :
  wfBoard (_board g) →
  ∃ r rng', bestMove g depth rng = Ok (r, rng') ∧
    ∀ m, r = Some m →
      ∃ b' s, Game.move g m
              = Ok (true, mkCheckers b' (opposite (_turn g)), [s]).
Proof.
  intros Hwf. unfold bestMove. rewrite cloneBoard_id.
  destruct (minimax_total depth (_board g) true (_turn g) (_turn g) rng Hwf)
    as (l & s & mv & rng' & Hl & -> & _ & Hmv).
  simpl. exists mv, rng'. split; [done|]. intros m Hm%Hmv.
  destruct (move_accepted g l m Hwf Hl Hm) as (b' & st & _ & _ & _ & ->).
  eauto.
Qed.

Lemma bestMove_is_playable_witness :
  ∃ r rng', bestMove reset 1 (λ n, n) = Ok (r, rng') ∧
    ∀ m, r = Some m →
      ∃ b' s, Game.move reset m
              = Ok (true, mkCheckers b' (opposite (_turn reset)), [s]).
Proof.
  apply (bestMove_is_playable reset 1 (λ n, n)).
  split; [reflexivity|repeat constructor].
Defined.

(** X24 (reading a square of a session).  On a session with an 8 by 8
    board [getPiece] returns for every position, never [undefined]: the
    cell of the board for a position on the board, [null] for any
    other. *)
Theorem getPiece_total g pos :
  wfBoard (_board g) →
  ∃ c, getPiece g pos = Ok (jsCell c) ∧
    (inGrid pos → cellAt (_board g) pos = Some c) ∧
    (¬ inGrid pos → c = None).
Proof.
  intros Hwf. unfold getPiece. fold (offBoard pos).
  destruct (offBoard pos) eqn:Hoff.
  - exists None. split; [done|]. split; [|done].
    intros Hin%offBoard_false. congruence.
  - apply offBoard_false in Hoff.
    destruct (readCell_wf (_board g) (row pos) (col pos) Hwf)
      as (c & Hc & Hr); [apply Hoff..|].
    exists c. split; [done|]. split; [done|]. by intros [].
Qed.

Lemma getPiece_total_witness :
  ∃ c, getPiece reset (mkPos 5 0) = Ok (jsCell c) ∧
    (inGrid (mkPos 5 0) → cellAt (_board reset) (mkPos 5 0) = Some c) ∧
    (¬ inGrid (mkPos 5 0) → c = None).
Proof.
  apply (getPiece_total reset (mkPos 5 0)).
  split; [reflexivity|repeat constructor].
Defined.

(** X25 (a piece without captures).  On an 8 by 8 board the capture
    list [getCapturesForPiece] returns for a piece is empty exactly when
    no jump is available to the piece from its square, that is when in
    none of its directions the neighbour square holds an opposing piece
    with the square behind it on the board and empty; and every available
    jump is the beginning of a returned move. *)
Theorem captures_empty_iff_no_jump b pos piece :
  wfBoard b → inGrid pos →
  ∃ ms, getCapturesForPiece b pos piece None = Ok ms ∧
    (ms = [] ↔ noJump piece b pos) ∧
    (∀ d, canJump b pos piece d →
       ∃ ps cs,
         mkMove pos (landingOf pos d :: ps) (enemyOf pos d :: cs) ∈ ms).
Proof.
  intros Hwf Hpos. pose proof (wfBoard_rows b Hwf) as Hlen.
  destruct (getCapturesForPiece_rules b pos piece Hlen)
    as (ms & Hms & Hspec); [by apply wfBoard_cellAt|].
  exists ms. split; [done|].
  assert (∀ d, canJump b pos piece d →
            ∃ ps cs,
              mkMove pos (landingOf pos d :: ps) (enemyOf pos d :: cs) ∈ ms)
    as Hbegin.
  { intros d Hcan.
    destruct (canJump_begins piece b pos d Hlen Hcan)
      as (ps & cs & b' & pos' & Hj & Hno).
    exists ps, cs. apply Hspec.
    exists (landingOf pos d :: ps), (enemyOf pos d :: cs), b', pos'. done. }
  split; [|done]. split.
  - intros -> d Hcan. destruct (Hbegin d Hcan) as (ps & cs & Hin).
    by apply elem_of_nil in Hin.
  - intros Hno. destruct ms as [|m ms]; [done|]. exfalso.
    destruct (proj1 (Hspec m)) as (ps & cs & b' & pos' & Hj & _ & Hne & _);
      [by left|].
    inversion Hj as [|? ? d ? ? ? ? Hcan _]; simplify_eq. by apply (Hno d).
Qed.

Lemma captures_empty_iff_no_jump_witness :
  (∃ ms, getCapturesForPiece mixedBoard (mkPos 5 6) (mkPiece red man) None
           = Ok ms ∧
         noJump (mkPiece red man) mixedBoard (mkPos 5 6) ∧ ms = []) ∧
  (∃ ms, getCapturesForPiece edgeBoard (mkPos 3 5) (mkPiece red man) None
           = Ok ms ∧
         canJump edgeBoard (mkPos 3 5) (mkPiece red man) (-1, 1) ∧
         ∃ ps cs, mkMove (mkPos 3 5) (mkPos 1 7 :: ps) (mkPos 2 6 :: cs) ∈ ms).
Proof.
  assert (wfBoard mixedBoard) as Hwf
    by (split; [reflexivity|repeat constructor]).
  split.
  - destruct (captures_empty_iff_no_jump mixedBoard (mkPos 5 6)
                (mkPiece red man) Hwf) as (ms & Hms & Hiff & _);
      [by_evaluation|].
    assert (noJump (mkPiece red man) mixedBoard (mkPos 5 6)) as Hno
      by by_evaluation.
    exists ms. split; [done|]. split; [done|]. by apply Hiff.
  - destruct (captures_empty_iff_no_jump edgeBoard (mkPos 3 5)
                (mkPiece red man)) as (ms & Hms & _ & Hbegin);
      [split; [reflexivity|repeat constructor]|by_evaluation|].
    assert (canJump edgeBoard (mkPos 3 5) (mkPiece red man) (-1, 1)) as Hcan
      by by_evaluation.
    exists ms. split; [done|]. split; [done|].
    apply (Hbegin (-1, 1) Hcan).
Defined.

(** X26 (no legal move).  On an 8 by 8 board the list of legal moves
    of a color is empty exactly when none of its pieces has, in one of its
    directions, a jump over an opposing piece onto an empty square of the
    board or a step to an empty neighbour square of the board. *)
Theorem no_legal_move_iff_blocked b turn :
  wfBoard b →
  ∃ l, getAllowedMovesForBoard b turn = Ok l ∧ (l = [] ↔ blocked b turn).
Proof.
  intros Hwf. pose proof (wfBoard_rows b Hwf) as Hlen.
  destruct (allowed_rules b turn Hlen) as (l & Hl & Hspec).
  exists l. split; [done|]. split.
  - intros -> pos piece Hown.
    assert (¬ captureAvailable b turn) as Hnocap.
    { intros (m & Hm)%captureAvailable_captureMove; [|done].
      apply (not_elem_of_nil m). apply Hspec. by left. }
    split.
    + intros d Hcan. apply Hnocap. by exists pos, piece, d.
    + intros d Hst.
      apply (not_elem_of_nil (mkMove pos [enemyOf pos d] [])).
      apply Hspec. right. split; [done|]. by exists piece, d.
  - intros Hblocked. destruct l as [|m l]; [done|]. exfalso.
    destruct (proj1 (Hspec m)) as [Hcap|[_ Hsim]]; [by left|..].
    + destruct Hcap as (piece & b' & pos' & Hown & Hj & _ & Hne).
      destruct (Hblocked _ _ Hown) as [Hno _].
      inversion Hj as [|? ? d ? ? ? ? Hcan _]; simplify_eq; try congruence.
      by apply (Hno d).
    + destruct Hsim as (piece & d & Hown & Hst & _).
      destruct (Hblocked _ _ Hown) as [_ Hno]. by apply (Hno d).
Qed.

Lemma no_legal_move_iff_blocked_witness :
  ∃ l, getAllowedMovesForBoard blockedBoard black = Ok l ∧
       l = [] ∧ blocked blockedBoard black ∧
       ownPiece blockedBoard black (mkPos 3 2) (mkPiece black man).
Proof.
  destruct (no_legal_move_iff_blocked blockedBoard black) as (l & Hl & Hiff).
  { split; [reflexivity|repeat constructor]. }
  assert (l = []) as Hnil by (vm_compute in Hl; congruence).
  exists l. split; [done|]. split; [done|]. split; [by apply Hiff|].
  by_evaluation.
Defined.

(** X27 (boards that are not 8 by 8 and the generator).
    [getAllowedMovesForBoard] throws a [TypeError] exactly when the
    board has fewer than 8 rows.  With 8 rows or more it returns,
    whatever the lengths of the rows, and the list follows the rules read
    on the cells the board has: a cell that a short row does not have is
    neither a piece, so nothing moves from it and nothing is captured on
    it, nor an empty square, so nothing steps or lands on it. *)
Theorem getAllowedMovesForBoard_faults b turn :
  ((length b < 8)%nat → getAllowedMovesForBoard b turn = Err TypeError) ∧
  ((8 ≤ length b)%nat →
     ∃ l, getAllowedMovesForBoard b turn = Ok l ∧
       ∀ m, m ∈ l ↔
         captureMove b turn m ∨
         (¬ captureAvailable b turn ∧ stepMove b turn m)).
Proof.
  split; [|apply allowed_rules].
  pose proof (safeOn_getAllowedMovesForBoard b turn) as Hsafe.
  pose proof (getAllowedMovesForBoard_short b turn) as Hshort.
  destruct (getAllowedMovesForBoard b turn) as [l|e]; simpl in Hsafe.
  - specialize (Hshort l eq_refl). lia.
  - by destruct Hsafe as [-> Hlen].
Qed.

Lemma getAllowedMovesForBoard_faults_witness :
  getAllowedMovesForBoard [[RM]; []; []] red = Err TypeError ∧
  holdsEnemy raggedBoard red (mkPos 1 1) ∧
  cellAt raggedBoard (mkPos 0 2) = None ∧
  ¬ canJump raggedBoard (mkPos 2 0) (mkPiece red man) (-1, 1) ∧
  cellAt raggedBoard (mkPos 6 3) = None ∧
  ∃ l, getAllowedMovesForBoard raggedBoard red = Ok l ∧
       l = [mkMove (mkPos 7 2) [mkPos 6 1] []] ∧
       ∀ m, m ∈ l ↔
         captureMove raggedBoard red m ∨
         (¬ captureAvailable raggedBoard red ∧ stepMove raggedBoard red m).
Proof.
  split.
  { apply (proj1 (getAllowedMovesForBoard_faults [[RM]; []; []] red)).
    simpl. lia. }
  split; [by_evaluation|]. split; [reflexivity|]. split; [by_evaluation|].
  split; [reflexivity|].
  destruct (proj2 (getAllowedMovesForBoard_faults raggedBoard red))
    as (l & Hl & Hspec); [simpl; lia|].
  exists l. split; [done|]. split; [|done].
  vm_compute in Hl. congruence.
Defined.

(** X28 (no move twice).  On an 8 by 8 board the list of legal moves
    has no duplicates: the moves of one piece differ in their paths, and
    the moves of different pieces in their origins. *)
Theorem legal_moves_distinct b turn :
  wfBoard b →
  ∃ l, getAllowedMovesForBoard b turn = Ok l ∧ NoDup l.
Proof.
  intros Hwf.
  destruct (getAllowedMovesForBoard_elem b turn Hwf) as (l & Hl & _).
  exists l. split; [done|]. by eapply getAllowedMovesForBoard_NoDup.
Qed.

Lemma legal_moves_distinct_witness :
  ∃ l, getAllowedMovesForBoard circuitBoard red = Ok l ∧ NoDup l.
Proof.
  apply (legal_moves_distinct circuitBoard red).
  split; [reflexivity|repeat constructor].
Defined.

(** X29 (only the pieces of the side to move).  On a session with an
    8 by 8 board [move] refuses every move whose origin does not hold a
    piece of the side to move: an empty square, a square off the board
    or a piece of the other color. *)
Theorem move_requires_own_piece g mv :
  wfBoard (_board g) →
  (∀ p, cellAt (_board g) (from mv) = Some (Some p) → color p ≠ _turn g) →
  Game.move g mv = Ok (false, g, []).
Proof.
  intros Hwf Hnot.
  destruct (getAllowedMovesForBoard_elem _ (_turn g) Hwf) as (l & Hl & _).
  eapply move_rejected; [done|]. intros Hmv.
  destruct (allowed_legalShape _ _ _ _ Hwf Hl Hmv)
    as (piece & fin & Hfrom & Hcol & _).
  by apply (Hnot piece).
Qed.

Lemma move_requires_own_piece_witness :
  Game.move reset (mkMove (mkPos 2 1) [mkPos 3 2] []) = Ok (false, reset, []).
Proof.
  apply (move_requires_own_piece reset (mkMove (mkPos 2 1) [mkPos 3 2] [])).
  - split; [reflexivity|repeat constructor].
  - intros p. vm_compute. by intros [= <-].
Defined.

(** X30 (the search obeys the capture rule).  On a session with an 8 by
    8 board where some piece of the side to move has a jump available,
    [bestMove] returns a move at every positive depth and for every
    stream of draws; that move is in the list of legal moves and it is a
    capture move of the side to move on the board of the session. *)
Theorem bestMove_captures_when_possible g depth rng :
  wfBoard (_board g) → (0 < depth)%nat →
  captureAvailable (_board g) (_turn g) →
  ∃ m rng' l,
    bestMove g depth rng = Ok (Some m, rng') ∧
    getAllowedMovesForBoard (_board g) (_turn g) = Ok l ∧ m ∈ l ∧
    captureMove (_board g) (_turn g) m ∧ captures m ≠ [].
Proof.
  intros Hwf Hdepth Hav. unfold bestMove. rewrite cloneBoard_id.
  destruct (minimax_total depth (_board g) true (_turn g) (_turn g) rng Hwf)
    as (l & s & mv & rng' & Hl & -> & Hnone & Hmv).
  destruct (allowed_rules (_board g) (_turn g) (wfBoard_rows _ Hwf))
    as (l' & Hl' & Hspec).
  assert (l' = l) as -> by congruence. simpl.
  destruct mv as [m|].
  - exists m, rng', l. split; [done|]. specialize (Hmv m eq_refl).
    split; [done|]. split; [done|].
    apply Hspec in Hmv as [Hcap|[Hno _]]; [|done].
    split; [done|]. by eapply captureMove_shape.
  - destruct Hnone as [[?| ->] _]; [done|lia|].
    apply captureAvailable_captureMove in Hav as (m & Hm);
      [|by apply wfBoard_rows].
    exfalso. apply (not_elem_of_nil m). apply Hspec. by left.
Qed.

Lemma bestMove_captures_when_possible_witness :
  ∃ m rng' l,
    bestMove (mkCheckers edgeBoard red) 2 (λ n, n) = Ok (Some m, rng') ∧
    getAllowedMovesForBoard edgeBoard red = Ok l ∧ m ∈ l ∧
    captureMove edgeBoard red m ∧ captures m ≠ [].
Proof.
  apply (bestMove_captures_when_possible (mkCheckers edgeBoard red) 2
           (λ n, n)).
  - split; [reflexivity|repeat constructor].
  - lia.
  - exists (mkPos 3 5), (mkPiece red man), (-1, 1). split; by_evaluation.
Defined.
